(** * Logic Simulator: scanner and parser of the definition language

    A shallow embedding of [scanner.py] (class [Scanner]) and [parse.py]
    (class [Parser]).  Objects become records, methods become functions
    that take the object and return the updated object next to their
    result.  The definition file is a sequence of ASCII characters, as the
    language description requires. *)

From Stdlib Require Import String Ascii List Bool Arith Lia NArith.
From Stdlib Require Import DecimalString.
Import ListNotations.
Local Open Scope string_scope.
Local Open Scope list_scope.
Local Open Scope nat_scope.

Set Implicit Arguments.

(** ** Python values used by the two classes *)

(** [x == y] on values that are an int or [None]. *)
Definition py_eq (x y : option nat) : bool :=
  match x, y with
  | Some a, Some b => Nat.eqb a b
  | None, None => true
  | _, _ => false
  end.

(** [x in l], for a list of ints [l] and [x] an int or [None]. *)
Definition py_in (x : option nat) (l : list nat) : bool :=
  match x with
  | Some a => existsb (Nat.eqb a) l
  | None => false
  end.

(** [str(n)] for a non-negative int. *)
Definition str (n : nat) : string := NilEmpty.string_of_uint (Nat.to_uint n).

(** [c * n] for a one-character string [c]; with truncated subtraction in
    [n] this is also Python's empty result for a negative count. *)
Fixpoint repeat_char (c : ascii) (n : nat) : string :=
  match n with
  | O => ""
  | S k => String c (repeat_char c k)
  end.

Definition newline : ascii := ascii_of_nat 10.
Definition nl : string := String newline "".

(** [str.isspace], [str.isdigit], [str.isalpha] and [str.isalnum] on one
    ASCII character. *)
Definition isspace (c : ascii) : bool :=
  let n := nat_of_ascii c in
  ((9 <=? n) && (n <=? 13)) || ((28 <=? n) && (n <=? 32)).

Definition isdigit (c : ascii) : bool :=
  let n := nat_of_ascii c in (48 <=? n) && (n <=? 57).

Definition isalpha (c : ascii) : bool :=
  let n := nat_of_ascii c in
  ((65 <=? n) && (n <=? 90)) || ((97 <=? n) && (n <=? 122)).

Definition isalnum (c : ascii) : bool := isalpha c || isdigit c.

Definition char_is (c : option ascii) (d : ascii) : bool :=
  match c with
  | Some x => Ascii.eqb x d
  | None => false
  end.

(** [int(s)] on a string of decimal digits. *)
Fixpoint int_acc (s : string) (acc : N) : N :=
  match s with
  | EmptyString => acc
  | String c r => int_acc r (10 * acc + N.of_nat (nat_of_ascii c - 48))%N
  end.

Definition int (s : string) : N := int_acc s 0%N.

(** ** The symbol table *)

Module Names.

(** Modelled from the spec: the class [Names] of [names.py] is not part of
    the sources at hand.  It interns strings: a string's identifier is its
    position in the table, [lookup] adds the strings it does not know,
    [query] only looks a string up and [get_name_string] resolves an
    identifier back to its string ([test_names.py] fixes these results). *)
Definition t := list string.

Fixpoint query_from (tbl : t) (s : string) (i : nat) : option nat :=
  match tbl with
  | [] => None
  | x :: r => if String.eqb x s then Some i else query_from r s (S i)
  end.

Definition query (tbl : t) (s : string) : option nat := query_from tbl s 0.

Definition lookup1 (tbl : t) (s : string) : nat * t :=
  match query tbl s with
  | Some i => (i, tbl)
  | None => (length tbl, tbl ++ [s])
  end.

Fixpoint lookup (tbl : t) (l : list string) : list nat * t :=
  match l with
  | [] => ([], tbl)
  | s :: r =>
      let '(i, tbl1) := lookup1 tbl s in
      let '(ids, tbl2) := lookup tbl1 r in
      (i :: ids, tbl2)
  end.

Definition get_name_string (tbl : t) (i : nat) : option string :=
  nth_error tbl i.

End Names.

(** ** scanner.py *)

Record Symbol := mkSymbol {
  sym_type : option nat;
  sym_id : option nat;
  linenum : nat;
  colnum : nat
}.

Module Scanner.

(** The reserved words are interned when the scanner is created, on a table
    that is new (the tests and the user interface create [Names()] right
    before the scanner), so their identifiers are the positions below. *)
Definition reserved : list string :=
  [""; ":"; ";"; "->"; "."; "OFF"; "ON";
   "DEVICE_LIST"; "CONNECTION_LIST"; "MONITOR_LIST"; "END";
   "AND"; "NAND"; "OR"; "NOR"; "XOR"; "DTYPE"; "CLOCK"; "SWITCH"; "SIGGEN"].

Definition init_names : Names.t := snd (Names.lookup [] reserved).

Definition EOF : nat := 0.
Definition COLON : nat := 1.
Definition SEMI_COLON : nat := 2.
Definition ARROW : nat := 3.
Definition PERIOD : nat := 4.
Definition OFF : nat := 5.
Definition ON : nat := 6.
Definition DEVICE_LIST : nat := 7.
Definition CONNECTION_LIST : nat := 8.
Definition MONITOR_LIST : nat := 9.
Definition END : nat := 10.
Definition AND : nat := 11.
Definition NAND : nat := 12.
Definition OR : nat := 13.
Definition NOR : nat := 14.
Definition XOR : nat := 15.
Definition D_TYPE : nat := 16.
Definition CLOCK : nat := 17.
Definition SWITCH : nat := 18.
Definition SIGGEN : nat := 19.

Definition punctuation : list nat := [COLON; SEMI_COLON; ARROW; PERIOD].
Definition initial_states : list nat := [OFF; ON].
Definition keywords_list : list nat :=
  [DEVICE_LIST; CONNECTION_LIST; MONITOR_LIST; END].
Definition device_keywords : list nat :=
  [AND; NAND; OR; NOR; XOR; D_TYPE; CLOCK; SWITCH; SIGGEN].

(** [self.types = [...] = range(9)] *)
Definition KEYWORDS : nat := 0.
Definition DEVICETYPE : nat := 1.
Definition NAMES : nat := 2.
Definition PROPERTY : nat := 3.
Definition NUMBER : nat := 4.
Definition CL : nat := 5.
Definition SCL : nat := 6.
Definition AR : nat := 7.
Definition PE : nat := 8.

(** [defi_file] holds the characters not read yet; [text] is the whole
    file, which [print_line] reads again from its start.  [current_char]
    is [None] for both falsy values the code stores there (the empty string
    that [read] gives at the end of the file and the [None] of a search
    that found nothing). *)
Record t := mk {
  filesize : nat;
  current_position : nat;
  defi_file : list ascii;
  text : list ascii;
  names : Names.t;
  current_char : option ascii;
  line_counter : nat;
  col_counter : nat;
  comment_switch : nat
}.

Definition init (txt : list ascii) : t :=
  {| filesize := length txt; current_position := 0; defi_file := txt;
     text := txt; names := init_names; current_char := Some " "%char;
     line_counter := 1; col_counter := 0; comment_switch := 0 |}.

Definition set_current_char (c : option ascii) (s : t) : t :=
  {| filesize := filesize s; current_position := current_position s;
     defi_file := defi_file s; text := text s; names := names s;
     current_char := c; line_counter := line_counter s;
     col_counter := col_counter s; comment_switch := comment_switch s |}.

Definition set_comment_switch (n : nat) (s : t) : t :=
  {| filesize := filesize s; current_position := current_position s;
     defi_file := defi_file s; text := text s; names := names s;
     current_char := current_char s; line_counter := line_counter s;
     col_counter := col_counter s; comment_switch := n |}.

Definition set_names (tbl : Names.t) (s : t) : t :=
  {| filesize := filesize s; current_position := current_position s;
     defi_file := defi_file s; text := text s; names := tbl;
     current_char := current_char s; line_counter := line_counter s;
     col_counter := col_counter s; comment_switch := comment_switch s |}.

(** [get_next_character]: one [read(1)], which gives the empty string
    ([None] here) once the file is exhausted. *)
Definition get_next_character (s : t) : option ascii * t :=
  let '(charac, rest) :=
    match defi_file s with
    | [] => (None, [])
    | c :: r => (Some c, r)
    end in
  let is_nl := char_is charac newline in
  (charac,
   {| filesize := filesize s;
      current_position := S (current_position s);
      defi_file := rest; text := text s; names := names s;
      current_char := current_char s;
      line_counter := if is_nl then S (line_counter s) else line_counter s;
      col_counter := if is_nl then 0 else S (col_counter s);
      comment_switch :=
        if is_nl && Nat.eqb (comment_switch s) 1 then 0
        else comment_switch s |}).

(** The [for] loop of [get_next_non_whitespace_character], over the [n]
    indices of its [range]; falling out of the loop returns [None]. *)
Fixpoint non_whitespace_loop (n : nat) (s : t) : option ascii * t :=
  match n with
  | O => (None, s)
  | S k =>
      let '(charac, s1) := get_next_character s in
      match charac with
      | Some c => if isspace c then non_whitespace_loop k s1 else (Some c, s1)
      | None => (None, s1)
      end
  end.

Definition get_next_non_whitespace_character (s : t) : option ascii * t :=
  non_whitespace_loop (filesize s - current_position s) s.

(** [self.current_char = self.get_next_character()] and its sibling. *)
Definition advance (s : t) : t :=
  let '(c, s1) := get_next_character s in set_current_char c s1.

Definition advance_non_whitespace (s : t) : t :=
  let '(c, s1) := get_next_non_whitespace_character s in set_current_char c s1.

(** What is left to read, the current character included: every loop of
    the scanner reads at least one character per round, so this bounds
    their rounds. *)
Definition measure (s : t) : nat :=
  length (defi_file s) +
  match current_char s with Some _ => 1 | None => 0 end.

(** The [while self.comment_switch != 0] loop of [comment_check]. *)
Fixpoint comment_loop (fuel : nat) (s : t) : t :=
  if Nat.eqb (comment_switch s) 0 then s
  else
    match current_char s with
    | None => s
    | Some c =>
        match fuel with
        | O => s
        | S k =>
            let s1 :=
              if Nat.eqb (comment_switch s) 2 && Ascii.eqb c "*"%char then
                let s2 := advance s in
                if char_is (current_char s2) "/"%char
                then set_comment_switch 0 s2 else s2
              else s in
            comment_loop k (advance_non_whitespace s1)
        end
    end.

Fixpoint comment_check_rec (fuel : nat) (s : t) : t :=
  if char_is (current_char s) "/"%char then
    match fuel with
    | O => s
    | S k =>
        let s1 := advance s in
        let s2 := if char_is (current_char s1) "/"%char
                  then set_comment_switch 1 s1 else s1 in
        let s3 := if char_is (current_char s2) "*"%char
                  then set_comment_switch 2 s2 else s2 in
        let s4 := advance_non_whitespace s3 in
        let s5 := comment_loop (S (measure s4)) s4 in
        comment_check_rec k s5
    end
  else s.

Definition comment_check (s : t) : t := comment_check_rec (S (measure s)) s.

(** [while self.current_char.isdigit()] *)
Fixpoint read_number (fuel : nat) (num_string : string) (s : t) : string * t :=
  match current_char s with
  | Some c =>
      if isdigit c then
        match fuel with
        | O => (num_string, s)
        | S k => read_number k (num_string ++ String c "")%string (advance s)
        end
      else (num_string, s)
  | None => (num_string, s)
  end.

(** [while self.current_char.isalnum() or self.current_char == '_'] *)
Fixpoint read_word (fuel : nat) (word : string) (s : t) : string * t :=
  match current_char s with
  | Some c =>
      if isalnum c || Ascii.eqb c "_"%char then
        match fuel with
        | O => (word, s)
        | S k => read_word k (word ++ String c "")%string (advance s)
        end
      else (word, s)
  | None => (word, s)
  end.

Definition classify (id : nat) : nat :=
  if existsb (Nat.eqb id) keywords_list then KEYWORDS
  else if existsb (Nat.eqb id) device_keywords then DEVICETYPE
  else if existsb (Nat.eqb id) initial_states then PROPERTY
  else NAMES.

Definition get_symbol (s : t) : Symbol * t :=
  match current_char s with
  | None => (mkSymbol None (Some EOF) (line_counter s) (col_counter s), s)
  | Some c0 =>
      let s1 := if isspace c0 then advance_non_whitespace s else s in
      let s2 := comment_check s1 in
      let col := col_counter s2 in
      let line := line_counter s2 in
      match current_char s2 with
      | None =>
          (mkSymbol None (Some EOF) (line_counter s2) (col_counter s2), s2)
      | Some c =>
          if isdigit c then
            let '(num_string, s3) := read_number (S (measure s2)) "" s2 in
            let '(id, tbl) := Names.lookup1 (names s3) num_string in
            (mkSymbol (Some NUMBER) (Some id) line col, set_names tbl s3)
          else if isalpha c then
            let '(word, s3) := read_word (S (measure s2)) "" s2 in
            let '(id, tbl) := Names.lookup1 (names s3) word in
            (mkSymbol (Some (classify id)) (Some id) line col,
             set_names tbl s3)
          else if Ascii.eqb c ":"%char then
            (mkSymbol (Some CL) (Some COLON) line col, advance s2)
          else if Ascii.eqb c ";"%char then
            (mkSymbol (Some SCL) (Some SEMI_COLON) line col, advance s2)
          else if Ascii.eqb c "."%char then
            (mkSymbol (Some PE) (Some PERIOD) line col, advance s2)
          else if Ascii.eqb c "-"%char then
            let s3 := advance s2 in
            if char_is (current_char s3) ">"%char
            then (mkSymbol (Some AR) (Some ARROW) line col, advance s3)
            else (mkSymbol None None line col, advance s3)
          else
            let '(id, tbl) := Names.lookup1 (names s2) (String c "") in
            (mkSymbol None (Some id) line col, advance (set_names tbl s2))
      end
  end.



(** [print_line] reads the file again from its start, line by line; a line
    keeps its newline character. *)
Fixpoint lines_from (cur : list ascii) (l : list ascii) : list (list ascii) :=
  match l with
  | [] => match cur with [] => [] | _ => [rev cur] end
  | c :: r =>
      if Ascii.eqb c newline then rev (c :: cur) :: lines_from [] r
      else lines_from (c :: cur) r
  end.

Definition file_lines (s : t) : list (list ascii) := lines_from [] (text s).

Definition format_line (line : list ascii) (colnum : nat) : string :=
  let linesize := length line in
  let '(line_string, blanks) :=
    if (colnum <? 37) || (linesize <? 73) then
      (string_of_list_ascii line, repeat_char " " (colnum - 1))
    else if linesize <? colnum + 37 then
      (("..." ++ string_of_list_ascii (skipn (linesize - 73) line))%string,
       repeat_char " " (colnum + 75 - linesize))
    else
      (("..." ++
        string_of_list_ascii
          (firstn (colnum + 37 - (colnum - 36)) (skipn (colnum - 36) line)) ++
        "..." ++ nl)%string,
       repeat_char " " 38) in
  (line_string ++ blanks ++ "^")%string.

(** The read position that [print_line] moves is not followed: the parser
    asks for no symbol after its report. *)
Definition print_line (s : t) (linnum colnum : nat) : string :=
  match linnum with
  | O => (nl ++ "^")%string
  | S k =>
      match nth_error (file_lines s) k with
      | Some line => format_line line colnum
      | None => (nl ++ "^")%string
      end
  end.

End Scanner.

(** ** parse.py *)

(** The error codes the parser tells apart.  Its own thirteen come from
    [names.unique_error_codes(13)]; the others are the codes that the
    classes [Monitors], [Network] and [Devices] draw from the same table,
    together with the [NO_ERROR] of each, so all of them differ. *)
Inductive error_code : Type :=
| SYNTAX_COLON | KEYWORD_ERROR | SYMBOL_TYPE_ERROR | NO_DEVICE | BAD_NAME
| NOT_VALID_NAME | SYNTAX | END_ERROR | IDENTIFIER_PRESENT
| UNCONNECTED_INPUTS | NO_MONITOR | NO_IDENTIFIER | NO_EOF
| MONITORS_NO_ERROR | NOT_OUTPUT | MONITOR_PRESENT
| NETWORK_NO_ERROR | INPUT_TO_INPUT | OUTPUT_TO_OUTPUT | INPUT_CONNECTED
| PORT_ABSENT | DEVICE_ABSENT
| DEVICES_NO_ERROR | INVALID_QUALIFIER | NO_QUALIFIER | BAD_DEVICE
| QUALIFIER_PRESENT | DEVICE_PRESENT.

Definition error_code_eqb (a b : error_code) : bool :=
  match a, b with
  | SYNTAX_COLON, SYNTAX_COLON | KEYWORD_ERROR, KEYWORD_ERROR
  | SYMBOL_TYPE_ERROR, SYMBOL_TYPE_ERROR | NO_DEVICE, NO_DEVICE
  | BAD_NAME, BAD_NAME | NOT_VALID_NAME, NOT_VALID_NAME | SYNTAX, SYNTAX
  | END_ERROR, END_ERROR | IDENTIFIER_PRESENT, IDENTIFIER_PRESENT
  | UNCONNECTED_INPUTS, UNCONNECTED_INPUTS | NO_MONITOR, NO_MONITOR
  | NO_IDENTIFIER, NO_IDENTIFIER | NO_EOF, NO_EOF
  | MONITORS_NO_ERROR, MONITORS_NO_ERROR | NOT_OUTPUT, NOT_OUTPUT
  | MONITOR_PRESENT, MONITOR_PRESENT | NETWORK_NO_ERROR, NETWORK_NO_ERROR
  | INPUT_TO_INPUT, INPUT_TO_INPUT | OUTPUT_TO_OUTPUT, OUTPUT_TO_OUTPUT
  | INPUT_CONNECTED, INPUT_CONNECTED | PORT_ABSENT, PORT_ABSENT
  | DEVICE_ABSENT, DEVICE_ABSENT | DEVICES_NO_ERROR, DEVICES_NO_ERROR
  | INVALID_QUALIFIER, INVALID_QUALIFIER | NO_QUALIFIER, NO_QUALIFIER
  | BAD_DEVICE, BAD_DEVICE | QUALIFIER_PRESENT, QUALIFIER_PRESENT
  | DEVICE_PRESENT, DEVICE_PRESENT => true
  | _, _ => false
  end.

(** The property handed to [make_device]: [None], an int or a string. *)
Inductive property : Type :=
| PNone
| PInt (n : N)
| PStr (s : string).

(** The third argument of [Parser.error]: absent, an identifier of the
    symbol table or the name of a symbol type. *)
Inductive vararg : Type :=
| VNone
| VId (i : option nat)
| VStr (s : string).

(** What the parser asks of the objects it is built on.  [devices.py],
    [network.py] and [monitors.py] are not among the sources, so their
    methods and constants are the fields of this interface and [World] is
    the state the three objects share.  [get_device] gives the
    [device_kind] of the device found, [monitors_dictionary] tells
    whether the dictionary is non-empty.  The objects are built on the
    table of names that the scanner interns into; [make_device] is the one
    call that may intern names of its own (those of the pins of the new
    device), so it is given the table and returns it. *)
Record Env (World : Type) := mkEnv {
  get_device : World -> option nat -> option nat;
  make_device :
    World -> Names.t -> option nat -> option nat -> property ->
    error_code * World * Names.t;
  make_connection :
    World -> option nat -> option nat -> option nat -> option nat ->
    error_code * World;
  make_monitor : World -> option nat -> option nat -> error_code * World;
  check_network : World -> bool;
  monitors_dictionary : World -> bool;
  dev_D_TYPE : nat;
  dev_SWITCH : nat;
  dev_CLOCK : nat;
  dev_SIGGEN : nat;
  dev_XOR : nat;
  gate_types : list nat;
  LOW : N;
  HIGH : N
}.

Module Parser.

Section WithWorld.

Variable World : Type.
Variable E : Env World.

(** [self.INPUT, self.OUTPUT = range(2)] *)
Definition INPUT : nat := 0.
Definition OUTPUT : nat := 1.

(** [self.symbol_types], indexed by the scanner's symbol types. *)
Definition symbol_types : list string :=
  ["KEYWORD"; "DEVICE TYPE"; "NAME"; "INITIAL STATE"; "NUMBER"; "COLON";
   "SEMI COLON"; "ARROW (->)"; "PERIOD (.)"].

Definition NAMES_str : string := "NAME".

(** The parser object.  [printed] is what [print] has written so far.
    [symbol] exists from the first statement of [parse_network] on. *)
Record t := mk {
  scanner : Scanner.t;
  world : World;
  symbol : Symbol;
  error_count : nat;
  error_messages : list (string * nat * nat);
  missing_end : bool;
  reached_eof : bool;
  printed : list string
}.

Definition init (sc : Scanner.t) (w : World) : t :=
  {| scanner := sc; world := w; symbol := mkSymbol None None 0 0;
     error_count := 0; error_messages := []; missing_end := false;
     reached_eof := false; printed := [] |}.

Definition set_world (w : World) (p : t) : t :=
  {| scanner := scanner p; world := w; symbol := symbol p;
     error_count := error_count p; error_messages := error_messages p;
     missing_end := missing_end p; reached_eof := reached_eof p;
     printed := printed p |}.

Definition set_names (tbl : Names.t) (p : t) : t :=
  {| scanner := Scanner.set_names tbl (scanner p); world := world p;
     symbol := symbol p; error_count := error_count p;
     error_messages := error_messages p; missing_end := missing_end p;
     reached_eof := reached_eof p; printed := printed p |}.

Definition set_missing_end (b : bool) (p : t) : t :=
  {| scanner := scanner p; world := world p; symbol := symbol p;
     error_count := error_count p; error_messages := error_messages p;
     missing_end := b; reached_eof := reached_eof p;
     printed := printed p |}.

Definition set_reached_eof (b : bool) (p : t) : t :=
  {| scanner := scanner p; world := world p; symbol := symbol p;
     error_count := error_count p; error_messages := error_messages p;
     missing_end := missing_end p; reached_eof := b;
     printed := printed p |}.

Definition incr_error_count (p : t) : t :=
  {| scanner := scanner p; world := world p; symbol := symbol p;
     error_count := S (error_count p); error_messages := error_messages p;
     missing_end := missing_end p; reached_eof := reached_eof p;
     printed := printed p |}.

Definition append_error (e : string * nat * nat) (p : t) : t :=
  {| scanner := scanner p; world := world p; symbol := symbol p;
     error_count := error_count p;
     error_messages := error_messages p ++ [e];
     missing_end := missing_end p; reached_eof := reached_eof p;
     printed := printed p |}.

Definition print (s : string) (p : t) : t :=
  {| scanner := scanner p; world := world p; symbol := symbol p;
     error_count := error_count p; error_messages := error_messages p;
     missing_end := missing_end p; reached_eof := reached_eof p;
     printed := printed p ++ [s] |}.

(** [self.symbol = self.scanner.get_symbol()] *)
Definition next (p : t) : t :=
  let '(sym, sc) := Scanner.get_symbol (scanner p) in
  {| scanner := sc; world := world p; symbol := sym;
     error_count := error_count p; error_messages := error_messages p;
     missing_end := missing_end p; reached_eof := reached_eof p;
     printed := printed p |}.

Definition type_is (p : t) (ty : nat) : bool :=
  py_eq (sym_type (symbol p)) (Some ty).

Definition id_is (p : t) (id : nat) : bool :=
  py_eq (sym_id (symbol p)) (Some id).

(** The parser is given the table of names that its scanner interns into. *)
Definition name_string (p : t) (i : option nat) : string :=
  match i with
  | Some n =>
      match Names.get_name_string (Scanner.names (scanner p)) n with
      | Some s => s
      | None => ""
      end
  | None => ""
  end.

(** *** Parser.error *)

Definition recovery : list nat := [Scanner.SEMI_COLON; Scanner.END].

(** The list [stopping_symbol] once the chain of comparisons is through. *)
Definition stopping_symbol (et : error_code) : list nat :=
  Scanner.EOF ::
  match et with
  | NO_EOF | UNCONNECTED_INPUTS | NO_MONITOR => []
  | KEYWORD_ERROR | SYNTAX_COLON => [Scanner.END]
  | END_ERROR => Scanner.keywords_list
  | SYMBOL_TYPE_ERROR | NO_DEVICE | BAD_NAME | NOT_VALID_NAME | SYNTAX
  | IDENTIFIER_PRESENT | NO_IDENTIFIER => recovery
  | NOT_OUTPUT | MONITOR_PRESENT => recovery
  | INPUT_TO_INPUT | OUTPUT_TO_OUTPUT | INPUT_CONNECTED | PORT_ABSENT
  | DEVICE_ABSENT => recovery
  | INVALID_QUALIFIER | NO_QUALIFIER | BAD_DEVICE | QUALIFIER_PRESENT
  | DEVICE_PRESENT => recovery
  | MONITORS_NO_ERROR | NETWORK_NO_ERROR | DEVICES_NO_ERROR => []
  end.

Definition vararg_is (v : vararg) (n : nat) : bool :=
  match v with
  | VId i => py_eq i (Some n)
  | _ => false
  end.

Definition vararg_in (v : vararg) (l : list nat) : bool :=
  match v with
  | VId i => py_in i l
  | _ => false
  end.

Definition vararg_name (p : t) (v : vararg) : string :=
  match v with
  | VId i => name_string p i
  | _ => ""
  end.

Definition vararg_str (v : vararg) : string :=
  match v with
  | VStr s => s
  | _ => ""
  end.

(** What the chain adds to ["***Error: "]. *)
Definition error_text (p : t) (et : error_code) (v : vararg) : string :=
  (match et with
   | NO_EOF => "End of file not reached."
   | KEYWORD_ERROR =>
       "List declaration not made. Expected '" ++ vararg_name p v ++
       "'. Advancing to next list."
   | SYNTAX_COLON =>
       "Expected a ':' after a list declaration. Advancing to next list."
   | SYMBOL_TYPE_ERROR => "Expected a " ++ vararg_str v ++ "."
   | NO_DEVICE => "This does not match a known device."
   | BAD_NAME =>
       "Expected a name for the device. Make sure it is not one of the " ++
       "reserved keywords and follows the correct syntax."
   | NOT_VALID_NAME => "Already used as a name for another device."
   | SYNTAX => "Expected a '" ++ vararg_name p v ++ "'."
   | END_ERROR => "Expected either another item in list or the keyword END."
   | IDENTIFIER_PRESENT => "Not expecting an identifier."
   | NO_IDENTIFIER => "No identifier present."
   | UNCONNECTED_INPUTS => "Not all inputs are connected."
   | NO_MONITOR =>
       "No monitor points chosen. At least one output must be monitored."
   | NOT_OUTPUT => "This point cannot be monitored as it is not an output."
   | MONITOR_PRESENT => "This point is already being monitored."
   | INPUT_TO_INPUT => "Cannot connect an input to an input."
   | OUTPUT_TO_OUTPUT => "Cannot connect an output to an output."
   | INPUT_CONNECTED => "The input is already connected elsewhere."
   | PORT_ABSENT => "One of the ports does not exist."
   | DEVICE_ABSENT => "One of the devices does not exist in network."
   | INVALID_QUALIFIER =>
       "Property not recognised for device." ++
       (if vararg_is v (dev_SWITCH E) then
          " Make sure property is either 'OFF' or 'ON'."
        else if vararg_is v (dev_CLOCK E) then
          " Make sure property is a positive integer."
        else if vararg_is v (dev_SIGGEN E) then
          " Make sure property contains only '0's and '1's."
        else if vararg_in v (gate_types E) &&
                negb (vararg_is v (dev_XOR E)) then
          " Make sure property is an integer less than 17 " ++
          "(and greater than 0)."
        else "")
   | NO_QUALIFIER => "Expected a property for the device."
   | BAD_DEVICE =>
       "Something went wrong adding this device to the network."
   | QUALIFIER_PRESENT => "Property not required for this device."
   | DEVICE_PRESENT => "This device already exists."
   | MONITORS_NO_ERROR | NETWORK_NO_ERROR | DEVICES_NO_ERROR => ""
   end)%string.

(** [while self.symbol.id not in stopping_symbol]: every round but the last
    takes a symbol that is not the end of the file, so the rounds are
    bounded by what the scanner has left to read. *)
Fixpoint skip_to (stop : list nat) (fuel : nat) (p : t) : t :=
  if py_in (sym_id (symbol p)) stop then p
  else
    match fuel with
    | O => p
    | S k => skip_to stop k (next p)
    end.

Definition error (et : error_code) (advance_symbol : bool) (v : vararg)
    (p : t) : option nat * t :=
  let p0 := incr_error_count p in
  let error_message := ("***Error: " ++ error_text p et v)%string in
  let stopping := stopping_symbol et in
  let l := linenum (symbol p) in
  let c := colnum (symbol p) in
  let '(stop, error_message1, p1) :=
    if advance_symbol then
      let p1 := skip_to stopping (S (Scanner.measure (scanner p0))) p0 in
      let stop := sym_id (symbol p1) in
      if negb (id_is p1 Scanner.EOF) then
        let p2 := next p1 in
        (stop,
         (error_message ++ " Parsing resumed on line " ++
          str (linenum (symbol p2)) ++ ".")%string,
         p2)
      else (stop, error_message, set_reached_eof true p1)
    else (None, error_message, p0) in
  (stop, append_error ((error_message1 ++ "***" ++ nl)%string, l, c) p1).

Definition error_ (et : error_code) (advance_symbol : bool) (v : vararg)
    (p : t) : t :=
  snd (error et advance_symbol v p).

(** *** The small checks *)

Definition check_keyword (keyword : nat) (p : t) : bool * t :=
  if id_is p keyword then
    let p1 := next p in
    if type_is p1 Scanner.CL then (true, next p1)
    else (false, error_ SYNTAX_COLON true VNone p1)
  else (false, error_ KEYWORD_ERROR true (VId (Some keyword)) p).

Definition check_end (error_recovery : bool) (p : t) : t :=
  if id_is p Scanner.END then next p
  else error_ END_ERROR error_recovery VNone p.

Definition check_valid_name (id : option nat) (p : t) : bool :=
  match get_device E (world p) id with
  | Some _ => false
  | None => true
  end.

(** [get_property]; the name of a NUMBER symbol is the digit string that
    the scanner interned, which [int] reads. *)
Definition get_property (type : option nat) (p : t) : property :=
  let prop := sym_id (symbol p) in
  if py_eq type (Some (dev_SWITCH E)) && py_in prop Scanner.initial_states
  then
    if py_eq prop (Some Scanner.OFF) then PInt (LOW E) else PInt (HIGH E)
  else if type_is p Scanner.NUMBER then
    if py_eq type (Some (dev_SIGGEN E)) then PStr (name_string p prop)
    else PInt (int (name_string p prop))
  else PNone.

(** [get_io]: the pair [(device_id, port_id)], [(None, None)] after an
    error. *)
Definition get_io (io : nat) (p : t) : (option nat * option nat) * t :=
  let id := sym_id (symbol p) in
  match get_device E (world p) id with
  | None => ((None, None), error_ NO_DEVICE true VNone p)
  | Some device_kind =>
      let expect_identifier :=
        Nat.eqb io INPUT || Nat.eqb device_kind (dev_D_TYPE E) in
      let p1 := next p in
      if type_is p1 Scanner.PE then
        if expect_identifier then
          let p2 := next p1 in
          if type_is p2 Scanner.NAMES then
            ((id, sym_id (symbol p2)), next p2)
          else ((None, None), error_ NO_IDENTIFIER true VNone p2)
        else ((None, None), error_ IDENTIFIER_PRESENT true VNone p1)
      else if expect_identifier then
        ((None, None), error_ SYNTAX true (VId (Some Scanner.PERIOD)) p1)
      else ((id, None), p1)
  end.

Definition check_io (io : nat) (p : t) : bool * t :=
  let p1 := next p in
  if type_is p1 Scanner.PE then
    let p2 := next p1 in
    if type_is p2 Scanner.NAMES then (true, next p2)
    else (false, error_ NO_IDENTIFIER true VNone p2)
  else (true, p1).

Definition is_none_pair (x : option nat * option nat) : bool :=
  match x with
  | (None, None) => true
  | _ => false
  end.

(** *** The items of the three lists *)

Definition device (p : t) : bool * t :=
  let type := sym_id (symbol p) in
  if negb (py_in type Scanner.device_keywords) then
    (false, error_ NO_DEVICE true VNone p)
  else
    let p1 := next p in
    if type_is p1 Scanner.NAMES then
      let id := sym_id (symbol p1) in
      if negb (check_valid_name id p1) then
        (false, error_ NOT_VALID_NAME true VNone p1)
      else
        let p2 := next p1 in
        let '(prop, p3) :=
          if type_is p2 Scanner.PROPERTY || type_is p2 Scanner.NUMBER
          then (get_property type p2, next p2)
          else (PNone, p2) in
        let '(error_type, w, tbl) :=
          make_device E (world p3) (Scanner.names (scanner p3))
            id type prop in
        let p4 := set_names tbl (set_world w p3) in
        if negb (error_code_eqb error_type DEVICES_NO_ERROR) then
          (false, error_ error_type true (VId type) p4)
        else if type_is p4 Scanner.SCL then (true, next p4)
        else (false, error_ SYNTAX true (VId (Some Scanner.SEMI_COLON)) p4)
    else (false, error_ BAD_NAME true VNone p1).

Definition connect (p : t) : bool * t :=
  let '(out, p1) := get_io OUTPUT p in
  if is_none_pair out then (false, p1)
  else if type_is p1 Scanner.AR then
    let p2 := next p1 in
    if type_is p2 Scanner.NAMES then
      let '(inp, p3) := get_io INPUT p2 in
      if is_none_pair inp then (false, p3)
      else
        let '(error_type, w) :=
          make_connection E (world p3) (fst inp) (snd inp)
            (fst out) (snd out) in
        let p4 := set_world w p3 in
        if negb (error_code_eqb error_type NETWORK_NO_ERROR) then
          (false, error_ error_type true VNone p4)
        else if type_is p4 Scanner.SCL then (true, next p4)
        else (false, error_ SYNTAX true (VId (Some Scanner.SEMI_COLON)) p4)
    else (false, error_ SYMBOL_TYPE_ERROR true (VStr NAMES_str) p2)
  else (false, error_ SYNTAX true (VId (Some Scanner.ARROW)) p1).

Definition connect_syntax (p : t) : t :=
  let '(ok, p1) := check_io OUTPUT p in
  if negb ok then p1
  else if type_is p1 Scanner.AR then
    let p2 := next p1 in
    if type_is p2 Scanner.NAMES then
      let '(ok2, p3) := check_io INPUT p2 in
      if negb ok2 then p3
      else if type_is p3 Scanner.SCL then next p3
      else error_ SYNTAX true (VId (Some Scanner.SEMI_COLON)) p3
    else error_ SYMBOL_TYPE_ERROR true (VStr NAMES_str) p2
  else error_ SYNTAX true (VId (Some Scanner.ARROW)) p1.

Definition monitor (p : t) : t :=
  let '(out, p1) := get_io OUTPUT p in
  if is_none_pair out then p1
  else
    let '(error_type, w) := make_monitor E (world p1) (fst out) (snd out) in
    let p2 := set_world w p1 in
    if negb (error_code_eqb error_type MONITORS_NO_ERROR) then
      error_ error_type true VNone p2
    else if type_is p2 Scanner.SCL then next p2
    else error_ SYNTAX true (VId (Some Scanner.SEMI_COLON)) p2.

Definition monitor_syntax (p : t) : t :=
  let '(ok, p1) := check_io OUTPUT p in
  if negb ok then p1
  else if type_is p1 Scanner.SCL then next p1
  else error_ SYNTAX true (VId (Some Scanner.SEMI_COLON)) p1.

(** [monitor] returns nothing, and [build_list] reads that [None] as a
    failed item. *)
Definition monitor_method (p : t) : bool * t := (false, monitor p).

(** *** The lists *)

Definition list_goes_on (p : t) : bool :=
  negb (id_is p Scanner.END) && negb (id_is p Scanner.EOF).

Definition expected_name (expected_type : nat) : string :=
  nth expected_type symbol_types "".

(** The [while] loop of [build_list], with [success] as it stands.  A round
    that is followed by another one has taken a symbol from the scanner,
    which bounds the rounds as in [skip_to]. *)
Fixpoint build_list_loop (expected_type : nat) (method : t -> bool * t)
    (fuel : nat) (success : bool) (p : t) : bool * t :=
  if list_goes_on p then
    match fuel with
    | O => (success, p)
    | S k =>
        if type_is p expected_type then
          let '(ok, p1) := method p in
          build_list_loop expected_type method k (success && ok) p1
        else if type_is p Scanner.KEYWORDS || type_is p Scanner.CL then
          let p1 := error_ END_ERROR false VNone p in
          (false, set_missing_end true p1)
        else
          let p1 :=
            error_ SYMBOL_TYPE_ERROR true
              (VStr (expected_name expected_type)) p in
          build_list_loop expected_type method k false p1
    end
  else (success, p).

Definition build_list (expected_type : nat) (method : t -> bool * t)
    (p : t) : bool * t :=
  build_list_loop expected_type method (S (Scanner.measure (scanner p)))
    true p.

Fixpoint check_syntax_loop (expected_type : nat) (method : t -> t)
    (fuel : nat) (p : t) : t :=
  if list_goes_on p then
    match fuel with
    | O => p
    | S k =>
        if type_is p expected_type then
          check_syntax_loop expected_type method k (method p)
        else if type_is p Scanner.KEYWORDS || type_is p Scanner.CL then
          set_missing_end true (error_ END_ERROR false VNone p)
        else
          check_syntax_loop expected_type method k
            (error_ SYMBOL_TYPE_ERROR true
               (VStr (expected_name expected_type)) p)
    end
  else p.

Definition check_syntax (expected_type : nat) (method : t -> t) (p : t) : t :=
  check_syntax_loop expected_type method (S (Scanner.measure (scanner p))) p.

(** [devicelist] returns [True], [False] or, by a bare [return], [None]. *)
Definition devicelist (p : t) : option bool * t :=
  if reached_eof p then (None, p)
  else
    let p0 := print "Parsing device list..." p in
    let '(ok, p1) := check_keyword Scanner.DEVICE_LIST p0 in
    if negb ok then (Some false, p1)
    else
      let '(built, p2) := build_list Scanner.DEVICETYPE device p1 in
      if negb built then
        if negb (missing_end p2) then (Some false, check_end true p2)
        else (Some false, set_missing_end false p2)
      else (Some true, check_end true p2).

Definition connectionlist (semantic_checks : bool) (p : t)
    : option bool * t :=
  if reached_eof p then (Some true, p)
  else
    let p0 := print "Parsing connection list..." p in
    let '(ok, p1) := check_keyword Scanner.CONNECTION_LIST p0 in
    if negb ok then (Some false, p1)
    else if semantic_checks then
      let '(built, p2) := build_list Scanner.NAMES connect p1 in
      if negb built then
        if negb (missing_end p2) then (Some false, check_end true p2)
        else (Some false, set_missing_end false p2)
      else if negb (check_network E (world p2)) then
        (Some false,
         check_end true (error_ UNCONNECTED_INPUTS false VNone p2))
      else (Some true, check_end true p2)
    else
      let p2 := check_syntax Scanner.NAMES connect_syntax p1 in
      if missing_end p2 then (None, set_missing_end false p2)
      else (Some true, check_end true p2).

Definition monitorlist (semantic_checks : bool) (p : t) : t :=
  if reached_eof p then p
  else
    let p0 := print "Parsing monitor list..." p in
    let '(ok, p1) := check_keyword Scanner.MONITOR_LIST p0 in
    if negb ok then p1
    else
      let p2 :=
        if semantic_checks then
          let p2 := snd (build_list Scanner.NAMES monitor_method p1) in
          if negb (monitors_dictionary E (world p2))
          then error_ NO_MONITOR false VNone p2 else p2
        else check_syntax Scanner.NAMES monitor_syntax p1 in
      let p3 := check_end false p2 in
      if negb (id_is p3 Scanner.EOF) then error_ NO_EOF false VNone p3
      else p3.

(** *** The report and the entry point *)

Definition report_entry (p : t) (e : string * nat * nat) : string :=
  let '(msg, l, c) := e in
  let s := Scanner.print_line (scanner p) l c in
  let message :=
    ("---------" ++ nl ++ "In line " ++ str l ++ ":" ++ nl ++ s ++ nl)%string in
  (message ++ msg ++ "---------" ++ nl)%string.

Definition error_report (p : t) : t :=
  fold_left (fun q e => print (report_entry p e) q) (error_messages p) p.

Definition truthy (r : option bool) : bool :=
  match r with
  | Some b => b
  | None => false
  end.

Definition parse_network (p : t) : bool * t :=
  let p0 := next p in
  let '(r, p1) := devicelist p0 in
  let p5 :=
    if negb (truthy r) then
      let p2 :=
        print ("Errors encountered in device list. " ++
               "Will now check for syntax errors in rest of file.") p1 in
      let p3 := snd (connectionlist false p2) in
      monitorlist false p3
    else
      let '(r2, p2) := connectionlist true p1 in
      if negb (truthy r2) then
        let p3 :=
          print ("Errors encountered in connection list. " ++
                 "Will now check for syntax errors in monitor list.") p2 in
        monitorlist false p3
      else monitorlist true p2 in
  if id_is p5 Scanner.EOF && Nat.eqb (error_count p5) 0 then
    (true, print "Parsing complete." p5)
  else
    let error_string :=
      ("Parsing complete. Unable to build network. " ++
       str (error_count p5) ++ " error(s) found:")%string in
    let dashes := repeat_char "-" (String.length error_string) in
    let p6 :=
      print (dashes ++ nl ++ error_string ++ nl ++ dashes)%string p5 in
    (false, error_report p6).

End WithWorld.

End Parser.

(** ** Properties of parser states *)

(** [grows p q]: [q] has the errors of [p], then some more, each counted. *)
Definition grows {World : Type} (p q : Parser.t World) : Prop :=
  exists es,
    Parser.error_messages q = Parser.error_messages p ++ es /\
    Parser.error_count q = Parser.error_count p + length es.

(** The count of errors is the length of the list of messages. *)
Definition consistent {World : Type} (p : Parser.t World) : Prop :=
  Parser.error_count p = length (Parser.error_messages p).

(** The methods of the parser, as calls on the parser object: what a
    sequence of parser operations is made of.  [build_list] and
    [check_syntax] are given the item methods the parser gives them. *)
Inductive build_method : Type := BuildDevice | BuildConnect | BuildMonitor.

Inductive syntax_method : Type := SyntaxConnect | SyntaxMonitor.

Inductive operation : Type :=
| OpGetSymbol
| OpParseNetwork
| OpDevicelist
| OpConnectionlist (semantic_checks : bool)
| OpMonitorlist (semantic_checks : bool)
| OpDevice
| OpConnect
| OpConnectSyntax
| OpMonitor
| OpMonitorSyntax
| OpCheckKeyword (keyword : nat)
| OpBuildList (expected_type : nat) (m : build_method)
| OpCheckSyntax (expected_type : nat) (m : syntax_method)
| OpCheckEnd (error_recovery : bool)
| OpGetIo (io : nat)
| OpCheckIo (io : nat)
| OpError (et : error_code) (advance_symbol : bool) (v : vararg)
| OpErrorReport.

Definition build_method_of {World : Type} (E : Env World) (m : build_method)
    : Parser.t World -> bool * Parser.t World :=
  match m with
  | BuildDevice => Parser.device E
  | BuildConnect => Parser.connect E
  | BuildMonitor => Parser.monitor_method E
  end.

Definition syntax_method_of {World : Type} (E : Env World)
    (m : syntax_method) : Parser.t World -> Parser.t World :=
  match m with
  | SyntaxConnect => Parser.connect_syntax E
  | SyntaxMonitor => Parser.monitor_syntax E
  end.

Definition run {World : Type} (E : Env World) (op : operation)
    (p : Parser.t World) : Parser.t World :=
  match op with
  | OpGetSymbol => Parser.next p
  | OpParseNetwork => snd (Parser.parse_network E p)
  | OpDevicelist => snd (Parser.devicelist E p)
  | OpConnectionlist b => snd (Parser.connectionlist E b p)
  | OpMonitorlist b => Parser.monitorlist E b p
  | OpDevice => snd (Parser.device E p)
  | OpConnect => snd (Parser.connect E p)
  | OpConnectSyntax => Parser.connect_syntax E p
  | OpMonitor => Parser.monitor E p
  | OpMonitorSyntax => Parser.monitor_syntax E p
  | OpCheckKeyword k => snd (Parser.check_keyword E k p)
  | OpBuildList ty m => snd (Parser.build_list E ty (build_method_of E m) p)
  | OpCheckSyntax ty m => Parser.check_syntax E ty (syntax_method_of E m) p
  | OpCheckEnd b => Parser.check_end E b p
  | OpGetIo io => snd (Parser.get_io E io p)
  | OpCheckIo io => snd (Parser.check_io E io p)
  | OpError et adv v => snd (Parser.error E et adv v p)
  | OpErrorReport => Parser.error_report p
  end.

Definition run_all {World : Type} (E : Env World) (ops : list operation)
    (p : Parser.t World) : Parser.t World :=
  fold_left (fun q op => run E op q) ops p.

(** One for a character, none for the falsy value at the end of the file. *)
Definition opt_size (c : option ascii) : nat :=
  match c with Some _ => 1 | None => 0 end.

(** What the scanner of a parser has left to read. *)
Definition pmeasure {World : Type} (p : Parser.t World) : nat :=
  Scanner.measure (Parser.scanner p).

(** The scanner has reported the end of the file as the current symbol. *)
Definition at_end {World : Type} (p : Parser.t World) : Prop :=
  Scanner.current_char (Parser.scanner p) = None /\
  sym_id (Parser.symbol p) = Some Scanner.EOF.

(** [later p q]: [q] is [p] after it took zero or more symbols. *)
Definition later {World : Type} (p q : Parser.t World) : Prop :=
  pmeasure q <= pmeasure p /\ (at_end p -> at_end q).

(** [ahead p q]: [q] is [p] after it took at least one symbol. *)
Definition ahead {World : Type} (p q : Parser.t World) : Prop :=
  pmeasure q < pmeasure p \/ (at_end q /\ pmeasure q <= pmeasure p).

(** The state after [k] more symbols. *)
Definition after_symbols {World : Type} (k : nat) (p : Parser.t World)
    : Parser.t World :=
  Nat.iter k (@Parser.next World) p.

(** None of the first [k] symbols from [p] on, the current one included,
    is in the list [stop]. *)
Definition none_stops {World : Type} (stop : list nat) (k : nat)
    (p : Parser.t World) : Prop :=
  forall j, j < k ->
    py_in (sym_id (Parser.symbol (after_symbols j p))) stop = false.

(** The message of an error that skips no symbol. *)
Definition plain_message (text : string) : string :=
  ("***Error: " ++ text ++ "***" ++ nl)%string.

Definition END_ERROR_message : string :=
  plain_message "Expected either another item in list or the keyword END.".

Definition UNCONNECTED_INPUTS_message : string :=
  plain_message "Not all inputs are connected.".

Definition NO_MONITOR_message : string :=
  plain_message
    "No monitor points chosen. At least one output must be monitored.".

(** The entries of an error list that carry the message [m]. *)
Definition count_message (m : string) (l : list (string * nat * nat)) : nat :=
  length (filter (fun e => String.eqb (fst (fst e)) m) l).

(** [p] with one more error, recorded at its current symbol, and nothing
    else changed: what [error] does when it is not to skip symbols. *)
Definition with_error {World : Type} (msg : string) (p : Parser.t World)
    : Parser.t World :=
  Parser.append_error
    (msg, linenum (Parser.symbol p), colnum (Parser.symbol p))
    (Parser.incr_error_count p).

(** No error between [p] and [q]. *)
Definition same_errors {World : Type} (p q : Parser.t World) : Prop :=
  Parser.error_messages q = Parser.error_messages p /\
  Parser.error_count q = Parser.error_count p.

(** [q] is [p] but for what has been printed. *)
Definition printed_more {World : Type} (p q : Parser.t World) : Prop :=
  Parser.scanner q = Parser.scanner p /\
  Parser.world q = Parser.world p /\
  Parser.symbol q = Parser.symbol p /\
  Parser.error_count q = Parser.error_count p /\
  Parser.error_messages q = Parser.error_messages p /\
  Parser.missing_end q = Parser.missing_end p /\
  Parser.reached_eof q = Parser.reached_eof p.

(** ** The network that the parser builds *)

Module Model.

(** Modelled from the spec: [devices.py], [network.py] and [monitors.py]
    (classes [Devices], [Network] and [Monitors]) are not among the
    sources.  This is the Device Model, the Connection Graph and the
    Signal-Trace Recorder as the specification describes their construction
    calls: [declare] with its four failures, [connect] with the failures of
    its endpoints, [validate_fully_wired], and [monitor] with its two
    failures.  A device kind is the identifier of its keyword.  A D_TYPE has
    the inputs DATA, CLK, SET and CLEAR and the outputs Q and QBAR; a gate
    has one unnamed output and inputs named by their ordinal index, written
    [I1], [I2], ... since the parser takes a pin only from a NAME symbol;
    XOR has two inputs and takes no property; a clock, a switch and a
    signal generator have one unnamed output and no input. *)
Record device := mkDevice {
  device_id : nat;
  device_kind : nat;
  inputs : list (nat * option (nat * option nat));
  outputs : list (option nat)
}.

Record world := mkWorld {
  devices_list : list device;
  monitors_dictionary : list (nat * option nat)
}.

Definition empty : world := mkWorld [] [].

Definition LOW : N := 0.
Definition HIGH : N := 1.

Definition gate_types : list nat :=
  [Scanner.AND; Scanner.OR; Scanner.NAND; Scanner.NOR; Scanner.XOR].

Definition get_device_object (w : world) (id : option nat) : option device :=
  match id with
  | Some i => find (fun d => Nat.eqb (device_id d) i) (devices_list w)
  | None => None
  end.

Definition get_device (w : world) (id : option nat) : option nat :=
  option_map device_kind (get_device_object w id).

Definition add_device (w : world) (d : device) : world :=
  mkWorld (devices_list w ++ [d]) (monitors_dictionary w).

Definition input_names (n : nat) : list string :=
  map (fun i => ("I" ++ str i)%string) (seq 1 n).

Definition unconnected (ids : list nat)
    : list (nat * option (nat * option nat)) :=
  map (fun i => (i, None)) ids.

Definition is_bit_string (s : string) : bool :=
  match s with
  | EmptyString => false
  | _ => forallb (fun c => Ascii.eqb c "0" || Ascii.eqb c "1")
           (list_ascii_of_string s)
  end.

Definition make_device (w : world) (tbl : Names.t) (id kind : option nat)
    (prop : property) : error_code * world * Names.t :=
  match id, kind with
  | Some i, Some k =>
      match get_device_object w id with
      | Some _ => (DEVICE_PRESENT, w, tbl)
      | None =>
          if existsb (Nat.eqb k)
               [Scanner.AND; Scanner.NAND; Scanner.OR; Scanner.NOR] then
            match prop with
            | PNone => (NO_QUALIFIER, w, tbl)
            | PInt n =>
                if (1 <=? n)%N && (n <=? 16)%N then
                  let '(ids, tbl1) :=
                    Names.lookup tbl (input_names (N.to_nat n)) in
                  (DEVICES_NO_ERROR,
                   add_device w (mkDevice i k (unconnected ids) [None]),
                   tbl1)
                else (INVALID_QUALIFIER, w, tbl)
            | PStr _ => (INVALID_QUALIFIER, w, tbl)
            end
          else if Nat.eqb k Scanner.XOR then
            match prop with
            | PNone =>
                let '(ids, tbl1) := Names.lookup tbl (input_names 2) in
                (DEVICES_NO_ERROR,
                 add_device w (mkDevice i k (unconnected ids) [None]), tbl1)
            | _ => (QUALIFIER_PRESENT, w, tbl)
            end
          else if Nat.eqb k Scanner.D_TYPE then
            match prop with
            | PNone =>
                let '(ins, tbl1) :=
                  Names.lookup tbl ["DATA"; "CLK"; "SET"; "CLEAR"] in
                let '(outs, tbl2) := Names.lookup tbl1 ["Q"; "QBAR"] in
                (DEVICES_NO_ERROR,
                 add_device w
                   (mkDevice i k (unconnected ins) (map Some outs)),
                 tbl2)
            | _ => (QUALIFIER_PRESENT, w, tbl)
            end
          else if Nat.eqb k Scanner.CLOCK then
            match prop with
            | PNone => (NO_QUALIFIER, w, tbl)
            | PInt n =>
                if (1 <=? n)%N then
                  (DEVICES_NO_ERROR, add_device w (mkDevice i k [] [None]),
                   tbl)
                else (INVALID_QUALIFIER, w, tbl)
            | PStr _ => (INVALID_QUALIFIER, w, tbl)
            end
          else if Nat.eqb k Scanner.SWITCH then
            match prop with
            | PNone => (NO_QUALIFIER, w, tbl)
            | PInt n =>
                if N.eqb n LOW || N.eqb n HIGH then
                  (DEVICES_NO_ERROR, add_device w (mkDevice i k [] [None]),
                   tbl)
                else (INVALID_QUALIFIER, w, tbl)
            | PStr _ => (INVALID_QUALIFIER, w, tbl)
            end
          else if Nat.eqb k Scanner.SIGGEN then
            match prop with
            | PNone => (NO_QUALIFIER, w, tbl)
            | PStr s =>
                if is_bit_string s then
                  (DEVICES_NO_ERROR, add_device w (mkDevice i k [] [None]),
                   tbl)
                else (INVALID_QUALIFIER, w, tbl)
            | PInt _ => (INVALID_QUALIFIER, w, tbl)
            end
          else (BAD_DEVICE, w, tbl)
      end
  | _, _ => (BAD_DEVICE, w, tbl)
  end.

Definition is_input (d : device) (port : option nat) : bool :=
  match port with
  | Some q => existsb (fun x => Nat.eqb (fst x) q) (inputs d)
  | None => false
  end.

Definition is_output (d : device) (port : option nat) : bool :=
  existsb (py_eq port) (outputs d).

Definition is_driven (d : device) (port : nat) : bool :=
  existsb (fun x => Nat.eqb (fst x) port &&
                    match snd x with Some _ => true | None => false end)
    (inputs d).

Definition drive (src : nat * option nat) (port : nat) (d : device)
    : device :=
  mkDevice (device_id d) (device_kind d)
    (map (fun x => if Nat.eqb (fst x) port then (fst x, Some src) else x)
       (inputs d))
    (outputs d).

Definition make_connection (w : world)
    (in_id in_port out_id out_port : option nat) : error_code * world :=
  match get_device_object w in_id, get_device_object w out_id with
  | Some din, Some dout =>
      if is_output din in_port then (OUTPUT_TO_OUTPUT, w)
      else if is_input dout out_port then (INPUT_TO_INPUT, w)
      else
        match in_port with
        | Some q =>
            if negb (is_input din in_port) || negb (is_output dout out_port)
            then (PORT_ABSENT, w)
            else if is_driven din q then (INPUT_CONNECTED, w)
            else
              (NETWORK_NO_ERROR,
               mkWorld
                 (map (fun d =>
                         if Nat.eqb (device_id d) (device_id din)
                         then drive (device_id dout, out_port) q d else d)
                    (devices_list w))
                 (monitors_dictionary w))
        | None => (PORT_ABSENT, w)
        end
  | _, _ => (DEVICE_ABSENT, w)
  end.

(** [validate_fully_wired] *)
Definition check_network (w : world) : bool :=
  forallb
    (fun d =>
       forallb
         (fun x => match snd x with Some _ => true | None => false end)
         (inputs d))
    (devices_list w).

Definition make_monitor (w : world) (id port : option nat)
    : error_code * world :=
  match get_device_object w id with
  | Some d =>
      if negb (is_output d port) then (NOT_OUTPUT, w)
      else if existsb
                (fun m => Nat.eqb (fst m) (device_id d) && py_eq (snd m) port)
                (monitors_dictionary w)
      then (MONITOR_PRESENT, w)
      else
        (MONITORS_NO_ERROR,
         mkWorld (devices_list w)
           (monitors_dictionary w ++ [(device_id d, port)]))
  | None => (NOT_OUTPUT, w)
  end.

Definition has_monitors (w : world) : bool :=
  match monitors_dictionary w with
  | [] => false
  | _ => true
  end.

Definition env : Env world :=
  mkEnv get_device make_device make_connection make_monitor check_network
    has_monitors Scanner.D_TYPE Scanner.SWITCH Scanner.CLOCK Scanner.SIGGEN
    Scanner.XOR gate_types LOW HIGH.

(** A parser on the text of a definition file, all objects new. *)
Definition parser_on (txt : string) : Parser.t world :=
  Parser.init (Scanner.init (list_ascii_of_string txt)) empty.

Definition parse (txt : string) : bool * Parser.t world :=
  Parser.parse_network env (parser_on txt).

End Model.

(** ** Definition files used below *)

(** The minimal program of the language description. *)
Definition minimal_example : string :=
  ("DEVICE_LIST:" ++ nl ++ "SWITCH sw1 OFF;" ++ nl ++ "AND g1 2;" ++ nl ++
   "END" ++ nl ++ "CONNECTION_LIST:" ++ nl ++ "sw1 -> g1.1;" ++ nl ++
   "sw1 -> g1.2;" ++ nl ++ "END" ++ nl ++ "MONITOR_LIST:" ++ nl ++
   "g1;" ++ nl ++ "END" ++ nl)%string.

(** The same program with the input pins written as names. *)
Definition minimal_example_named_pins : string :=
  ("DEVICE_LIST:" ++ nl ++ "SWITCH sw1 OFF;" ++ nl ++ "AND g1 2;" ++ nl ++
   "END" ++ nl ++ "CONNECTION_LIST:" ++ nl ++ "sw1 -> g1.I1;" ++ nl ++
   "sw1 -> g1.I2;" ++ nl ++ "END" ++ nl ++ "MONITOR_LIST:" ++ nl ++
   "g1;" ++ nl ++ "END" ++ nl)%string.

(** A device list that the Device Model refuses (a gate without its
    number of inputs), before two lists that are well formed. *)
Definition refused_device_example : string :=
  ("DEVICE_LIST: AND g1; END" ++ nl ++
   "CONNECTION_LIST: sw1 -> g1.I1; END" ++ nl ++
   "MONITOR_LIST: g1; END" ++ nl)%string.

(** A gate with three inputs of which two are wired. *)
Definition unwired_input_example : string :=
  ("DEVICE_LIST: SWITCH sw1 OFF; AND g1 3; END" ++ nl ++
   "CONNECTION_LIST: sw1 -> g1.I1; sw1 -> g1.I2; END" ++ nl ++
   "MONITOR_LIST: g1; END" ++ nl)%string.

(** A monitor list without a monitor point. *)
Definition no_monitor_example : string :=
  ("DEVICE_LIST: SWITCH sw1 OFF; AND g1 1; END" ++ nl ++
   "CONNECTION_LIST: sw1 -> g1.I1; END" ++ nl ++
   "MONITOR_LIST: END" ++ nl)%string.

(** A device list that lacks its END. *)
Definition missing_end_example : string :=
  ("DEVICE_LIST: SWITCH sw1 OFF;" ++ nl ++
   "CONNECTION_LIST: END" ++ nl ++ "MONITOR_LIST: sw1; END" ++ nl)%string.

(** A pin on the output of a switch, and a D_TYPE wired by its pins. *)
Definition pin_on_switch_example : string :=
  ("DEVICE_LIST: SWITCH sw1 OFF; DTYPE d1; END" ++ nl ++
   "CONNECTION_LIST: sw1.Q -> d1.DATA; d1.Q -> d1 ; END" ++ nl ++
   "MONITOR_LIST: d1.Q; END" ++ nl)%string.

(** The parser on a text, after the given operations. *)
Definition state_after (ops : list operation) (txt : string)
    : Parser.t Model.world :=
  run_all Model.env ops (Model.parser_on txt).

(** At the first item of the connection list, the device list built. *)
Definition at_connections (txt : string) : Parser.t Model.world :=
  state_after
    [OpGetSymbol; OpDevicelist; OpCheckKeyword Scanner.CONNECTION_LIST] txt.

(** Block comments before END: closed by [*/], and by [**/]. *)
Definition plain_comment_example : list ascii :=
  list_ascii_of_string "/* a */ END".

Definition double_star_comment_example : list ascii :=
  list_ascii_of_string "/* a **/ END".

(** Comments of both kinds, one after the other, before END. *)
Definition adjacent_comments_example : list ascii :=
  list_ascii_of_string
    ("// one" ++ nl ++ "/* two *//* three */// four" ++ nl ++
     "/**/END")%string.

(** The first symbol that a new scanner gives on a text. *)
Definition first_symbol (txt : list ascii) : Symbol :=
  fst (Scanner.get_symbol (Scanner.init txt)).

(** A monitor list that lacks its END. *)
Definition missing_end_in_monitors_example : string :=
  ("DEVICE_LIST: SWITCH sw1 OFF; END" ++ nl ++
   "CONNECTION_LIST: END" ++ nl ++
   "MONITOR_LIST: sw1;" ++ nl ++ "DEVICE_LIST" ++ nl)%string.

(** ** Further properties: definitions *)

(** The symbol that the scanner gives at its [k]-th call from [s] on,
    counting from zero, and the scanner after [k] calls. *)
Fixpoint scanner_after (k : nat) (s : Scanner.t) : Scanner.t :=
  match k with
  | O => s
  | S j => scanner_after j (snd (Scanner.get_symbol s))
  end.

Definition nth_symbol (k : nat) (s : Scanner.t) : Symbol :=
  fst (Scanner.get_symbol (scanner_after k s)).

(** A symbol with a type has an identifier, as all symbols of the scanner
    do. *)
Definition symbol_ok {World : Type} (p : Parser.t World) : Prop :=
  sym_type (Parser.symbol p) = None \/
  exists i, sym_id (Parser.symbol p) = Some i.

(** [calm p q]: from [p] to [q] errors are only added, [reached_eof]
    changes only with a new error, and the symbol stays one of the
    scanner. *)
Definition calm {World : Type} (p q : Parser.t World) : Prop :=
  grows p q /\
  (Parser.error_count q = Parser.error_count p ->
   Parser.reached_eof q = Parser.reached_eof p) /\
  (symbol_ok p -> symbol_ok q).

(** The parser after the three sections of [parse_network], before the
    answer is worked out and printed. *)
Definition after_sections {World : Type} (E : Env World)
    (p : Parser.t World) : Parser.t World :=
  let '(r, p1) := Parser.devicelist E (Parser.next p) in
  if negb (Parser.truthy r) then
    Parser.monitorlist E false
      (snd (Parser.connectionlist E false
              (Parser.print
                 ("Errors encountered in device list. " ++
                  "Will now check for syntax errors in rest of file.")
                 p1)))
  else
    let '(r2, p2) := Parser.connectionlist E true p1 in
    if negb (Parser.truthy r2) then
      Parser.monitorlist E false
        (Parser.print
           ("Errors encountered in connection list. " ++
            "Will now check for syntax errors in monitor list.")
           p2)
    else Parser.monitorlist E true p2.

(** The characters that the scanner still has to turn into symbols: the
    current character and what is not read of the file. *)
Definition pending (s : Scanner.t) : list ascii :=
  match Scanner.current_char s with
  | Some c => c :: Scanner.defi_file s
  | None => []
  end.

Fixpoint take_while (f : ascii -> bool) (l : list ascii) : list ascii :=
  match l with
  | [] => []
  | c :: r => if f c then c :: take_while f r else []
  end.

Fixpoint drop_while (f : ascii -> bool) (l : list ascii) : list ascii :=
  match l with
  | [] => []
  | c :: r => if f c then drop_while f r else l
  end.

(** The characters of a word after its first letter. *)
Definition word_char (c : ascii) : bool := isalnum c || Ascii.eqb c "_".

(** The type of a word by its text, as the lists of reserved words of
    [Scanner.__init__] give it. *)
Definition LIST_KEYWORD : list string :=
  ["DEVICE_LIST"; "CONNECTION_LIST"; "MONITOR_LIST"; "END"].

Definition DEVICE_KEYWORD : list string :=
  ["AND"; "NAND"; "OR"; "NOR"; "XOR"; "DTYPE"; "CLOCK"; "SWITCH"; "SIGGEN"].

Definition INITIAL_STATE : list string := ["OFF"; "ON"].

Definition is_one_of (l : list string) (w : string) : bool :=
  existsb (fun x => String.eqb x w) l.

Definition word_type (w : string) : nat :=
  if is_one_of LIST_KEYWORD w then Scanner.KEYWORDS
  else if is_one_of DEVICE_KEYWORD w then Scanner.DEVICETYPE
  else if is_one_of INITIAL_STATE w then Scanner.PROPERTY
  else Scanner.NAMES.

(** The table of names still begins with the reserved words, at the
    places where the scanner put them. *)
Definition reserved_prefix (tbl : Names.t) : Prop :=
  exists rest, tbl = Scanner.init_names ++ rest.

(** The line and the column, both counted from one, of the last character
    of [pre], a text that does not end with a newline. *)
Definition step_position (lc : nat * nat) (ch : ascii) : nat * nat :=
  if Ascii.eqb ch newline then (S (fst lc), 0) else (fst lc, S (snd lc)).

Definition position_after (pre : list ascii) : nat * nat :=
  fold_left step_position pre (1, 0).

(** The scanner in the middle of the text [txt]: [pre] is what it has
    read, its counters are those of the last character read, [extra]
    counts the reads at the end of the file, and a current character that
    is not white space is the last character read. *)
Definition counts (txt : list ascii) (s : Scanner.t) (pre : list ascii)
    (extra : nat) : Prop :=
  txt = pre ++ Scanner.defi_file s /\
  (Scanner.defi_file s <> [] -> extra = 0) /\
  Scanner.line_counter s = fst (position_after pre) /\
  Scanner.col_counter s = snd (position_after pre) + extra.

Definition tracks (txt : list ascii) (s : Scanner.t) : Prop :=
  exists pre extra,
    counts txt s pre extra /\
    forall c, Scanner.current_char s = Some c -> isspace c = false ->
              extra = 0 /\ exists pre', pre = pre' ++ [c].

(** The current character is not white space. *)
Definition at_token (s : Scanner.t) : Prop :=
  forall c, Scanner.current_char s = Some c -> isspace c = false.

(** The scanner right after a read: its current character is the last
    character read. *)
Definition just_read (txt : list ascii) (s : Scanner.t) : Prop :=
  exists pre extra,
    counts txt s pre extra /\
    forall c, Scanner.current_char s = Some c ->
              extra = 0 /\ exists pre', pre = pre' ++ [c].


(** What the first character of a symbol says of its type, in the order
    of the tests of [get_symbol]. *)
Definition first_char_fits (c : ascii) (ty : option nat) : Prop :=
  if isdigit c then ty = Some Scanner.NUMBER
  else if isalpha c then
    ty = Some Scanner.KEYWORDS \/ ty = Some Scanner.DEVICETYPE \/
    ty = Some Scanner.PROPERTY \/ ty = Some Scanner.NAMES
  else if Ascii.eqb c ":" then ty = Some Scanner.CL
  else if Ascii.eqb c ";" then ty = Some Scanner.SCL
  else if Ascii.eqb c "." then ty = Some Scanner.PE
  else if Ascii.eqb c "-" then ty = Some Scanner.AR \/ ty = None
  else ty = None.

(** A symbol that begins at the character [c] of the text [txt], with the
    line and the column of that character; [c] is neither white space nor
    a slash. *)
Definition begins_at (txt : list ascii) (sym : Symbol) : Prop :=
  exists pre c rest,
    txt = pre ++ c :: rest /\ isspace c = false /\
    Ascii.eqb c "/" = false /\
    (linenum sym, colnum sym) = position_after (pre ++ [c]) /\
    first_char_fits c (sym_type sym).

(** A character that is not the newline. *)
Definition not_newline (a : ascii) : bool := negb (Ascii.eqb a newline).

(** The mark of a part of a line that is left out. *)
Definition dots : list ascii := ["."; "."; "."]%char.

(** The report [out] points at the column [colnum], counted from one, of
    the line [line], which holds no newline.  It is two lines.  The first
    shows the [len] characters of [line] after its first [start], the
    column [colnum] among them, between the marks [lead] and [trail],
    each of them nothing or three dots.  The second is a caret after as
    many blanks as there are characters before the one of column [colnum]
    on the first: the [lead], and the [colnum - 1 - start] characters that
    are shown before it. *)
Definition caret_under (out : string) (line : list ascii) (colnum : nat)
    : Prop :=
  exists (lead trail : list ascii) (start len : nat),
    (lead = [] \/ lead = dots) /\
    (trail = [] \/ trail = dots) /\
    forallb not_newline line = true /\
    start < colnum /\ colnum <= start + len /\ start + len <= length line /\
    out =
      (string_of_list_ascii (lead ++ firstn len (skipn start line) ++ trail) ++
       nl ++ repeat_char " " (length lead + (colnum - 1 - start)) ++
       "^")%string.

Definition NO_EOF_message : string :=
  plain_message "End of file not reached.".

(** The entries that [monitorlist] adds when its list lacks END, all at
    the symbol [sym]: the error of the list, the error of an empty
    dictionary of monitors if there is one, the error of [check_end], and
    the error of a file that goes on. *)
Definition missing_end_entries (no_monitor : bool) (sym : Symbol)
    : list (string * nat * nat) :=
  let entry := fun m : string => (m, linenum sym, colnum sym) in
  [entry END_ERROR_message] ++
  (if no_monitor then [entry NO_MONITOR_message] else []) ++
  [entry END_ERROR_message; entry NO_EOF_message].

(** The list that was left for a missing END: the flag is set and the
    last error is the one of the list, at a symbol that is neither END
    nor the end of the file. *)
Definition abandoned {World : Type} (q : Parser.t World) : Prop :=
  exists p' : Parser.t World,
    q = Parser.set_missing_end true (with_error END_ERROR_message p') /\
    Parser.list_goes_on p' = true.

(** The heading of the report of [parse_network], with the number of
    errors between two rows of dashes. *)
Definition report_heading (n : nat) : string :=
  let error_string :=
    ("Parsing complete. Unable to build network. " ++ str n ++
     " error(s) found:")%string in
  let dashes := repeat_char "-" (String.length error_string) in
  (dashes ++ nl ++ error_string ++ nl ++ dashes)%string.

(** The parser at the top of the [k]-th further round of the [while] loop
    of [build_list] or [check_syntax] that starts at [p], if the loop gets
    that far: [step] is the item method, and a symbol of another type that
    is neither a keyword nor a colon is skipped with its error. *)
Fixpoint after_rounds {World : Type} (E : Env World) (expected_type : nat)
    (step : Parser.t World -> Parser.t World) (k : nat) (p : Parser.t World)
    : option (Parser.t World) :=
  match k with
  | O => Some p
  | S j =>
      if Parser.list_goes_on p then
        if Parser.type_is p expected_type then
          after_rounds E expected_type step j (step p)
        else if Parser.type_is p Scanner.KEYWORDS ||
                Parser.type_is p Scanner.CL then None
        else
          after_rounds E expected_type step j
            (Parser.error_ E SYMBOL_TYPE_ERROR true
               (VStr (Parser.expected_name expected_type)) p)
      else None
  end.

(** ** Programs of the definition language *)

(** What [get_symbol] reads of the text before it looks anything up in
    the table of names: the end of the file, a run of digits, a word, a
    punctuation mark, a dash that begins no arrow, or another
    character. *)
Inductive lexeme : Type :=
| LEof
| LNumber (digits : string)
| LWord (w : string)
| LColon
| LSemi
| LPeriod
| LArrow
| LDash
| LOther (c : ascii).

Definition lexeme_eqb (a b : lexeme) : bool :=
  match a, b with
  | LEof, LEof | LColon, LColon | LSemi, LSemi | LPeriod, LPeriod
  | LArrow, LArrow | LDash, LDash => true
  | LNumber x, LNumber y | LWord x, LWord y => String.eqb x y
  | LOther x, LOther y => Ascii.eqb x y
  | _, _ => false
  end.

(** [get_symbol] up to its lookups: the lexeme, the line and the column
    it starts at, and the scanner after it, the table of names
    untouched. *)
Definition scan_core (s : Scanner.t) : lexeme * (nat * nat) * Scanner.t :=
  match Scanner.current_char s with
  | None => (LEof, (Scanner.line_counter s, Scanner.col_counter s), s)
  | Some c0 =>
      let s1 := if isspace c0 then Scanner.advance_non_whitespace s else s in
      let s2 := Scanner.comment_check s1 in
      let pos := (Scanner.line_counter s2, Scanner.col_counter s2) in
      match Scanner.current_char s2 with
      | None => (LEof, pos, s2)
      | Some c =>
          if isdigit c then
            let '(w, s3) :=
              Scanner.read_number (S (Scanner.measure s2)) "" s2 in
            (LNumber w, pos, s3)
          else if isalpha c then
            let '(w, s3) :=
              Scanner.read_word (S (Scanner.measure s2)) "" s2 in
            (LWord w, pos, s3)
          else if Ascii.eqb c ":" then (LColon, pos, Scanner.advance s2)
          else if Ascii.eqb c ";" then (LSemi, pos, Scanner.advance s2)
          else if Ascii.eqb c "." then (LPeriod, pos, Scanner.advance s2)
          else if Ascii.eqb c "-" then
            let s3 := Scanner.advance s2 in
            if char_is (Scanner.current_char s3) ">"
            then (LArrow, pos, Scanner.advance s3)
            else (LDash, pos, Scanner.advance s3)
          else (LOther c, pos, Scanner.advance s2)
      end
  end.


(** The text that the scanner [s] has before it is the list of lexemes
    [toks], then the end of the file; separators and comments are as the
    scanner takes them. *)
Fixpoint spells (s : Scanner.t) (toks : list lexeme) : bool :=
  match toks with
  | [] => lexeme_eqb (fst (fst (scan_core s))) LEof
  | t :: r =>
      lexeme_eqb (fst (fst (scan_core s))) t && spells (snd (scan_core s)) r
  end.


Record port := mkPort {
  port_device : string;
  port_pin : option string
}.












(** *** What a program asks of the Device Model, the Connection Graph and
    the Recorder *)





Definition is_some {A : Type} (x : option A) : bool :=
  match x with
  | Some _ => true
  | None => false
  end.

(** An output is written with a pin exactly when its device is a
    D_TYPE. *)
Definition is_output {World : Type} (E : Env World) (w : World)
    (dev : nat) (pin : option nat) : bool :=
  match get_device E w (Some dev) with
  | Some kind => Bool.eqb (is_some pin) (Nat.eqb kind (dev_D_TYPE E))
  | None => false
  end.

(** An input is always written with its pin. *)
Definition is_input {World : Type} (E : Env World) (w : World)
    (dev : nat) (pin : option nat) : bool :=
  is_some (get_device E w (Some dev)) && is_some pin.








(** [q] is [p] but for the symbol, the scanner and what was printed. *)
Definition steady {World : Type} (p q : Parser.t World) : Prop :=
  Parser.world q = Parser.world p /\
  Parser.error_count q = Parser.error_count p /\
  Parser.error_messages q = Parser.error_messages p /\
  Parser.reached_eof q = Parser.reached_eof p.

(** The parser [p] in the middle of a text, with no error so far: its
    current symbol has the type [ty] and the identifier [id], the table of
    its scanner is [tbl] and still begins with the reserved words, the
    text goes on with the lexemes [toks], and the network is [w]. *)
Definition parsing {World : Type} (p : Parser.t World) (ty id : option nat)
    (tbl : Names.t) (toks : list lexeme) (w : World) : Prop :=
  sym_type (Parser.symbol p) = ty /\
  sym_id (Parser.symbol p) = id /\
  Scanner.names (Parser.scanner p) = tbl /\
  spells (Parser.scanner p) toks = true /\
  Parser.world p = w /\
  Parser.error_count p = 0 /\
  Parser.error_messages p = [] /\
  Parser.reached_eof p = false /\
  reserved_prefix tbl.





(** ** Tactics *)

(** Case analysis on the next test of a method body, in the goal or in a
    hypothesis. *)
Ltac break_body :=
  cbv beta iota zeta;
  match goal with
  | |- context [let '(_, _) := (if ?c then _ else _) in _] => destruct c eqn:?
  | |- context [let '(_, _) := ?x in _] => destruct x eqn:?
  | |- context [if ?c then _ else _] => destruct c eqn:?
  | |- context [match ?x with _ => _ end] => destruct x eqn:?
  end.

Ltac break_in H :=
  cbv beta iota zeta in H;
  match type of H with
  | context [let '(_, _) := (if ?c then _ else _) in _] => destruct c eqn:?
  | context [let '(_, _) := ?x in _] => destruct x eqn:?
  | context [if ?c then _ else _] => destruct c eqn:?
  | context [match ?x with _ => _ end] => destruct x eqn:?
  end.

Create HintDb grows.
Create Rewrite HintDb world.

(** ** The scanner reads forward *)

Section ScannerProgress.

Lemma measure_eq s :
  Scanner.measure s =
  length (Scanner.defi_file s) + opt_size (Scanner.current_char s).
Proof. reflexivity. Qed.

Lemma get_next_character_size s :
  length (Scanner.defi_file (snd (Scanner.get_next_character s))) +
  opt_size (fst (Scanner.get_next_character s)) =
  length (Scanner.defi_file s).
Proof.
  unfold Scanner.get_next_character.
  destruct (Scanner.defi_file s); simpl; lia.
Qed.

Lemma advance_size s :
  Scanner.measure (Scanner.advance s) = length (Scanner.defi_file s).
Proof.
  unfold Scanner.advance. pose proof (get_next_character_size s) as H.
  destruct (Scanner.get_next_character s) as [c s1]. simpl in *.
  rewrite measure_eq. simpl. exact H.
Qed.

Lemma non_whitespace_loop_size n s :
  length (Scanner.defi_file (snd (Scanner.non_whitespace_loop n s))) +
  opt_size (fst (Scanner.non_whitespace_loop n s)) <=
  length (Scanner.defi_file s).
Proof.
  revert s. induction n as [|k IH]; intros s; simpl.
  - lia.
  - pose proof (get_next_character_size s) as H.
    destruct (Scanner.get_next_character s) as [c s1]. simpl in H.
    destruct c as [c|]; simpl in *.
    + destruct (isspace c); simpl.
      * specialize (IH s1). lia.
      * lia.
    + lia.
Qed.

Lemma advance_non_whitespace_size s :
  Scanner.measure (Scanner.advance_non_whitespace s) <=
  length (Scanner.defi_file s).
Proof.
  unfold Scanner.advance_non_whitespace,
    Scanner.get_next_non_whitespace_character.
  pose proof (non_whitespace_loop_size
                (Scanner.filesize s - Scanner.current_position s) s) as H.
  destruct (Scanner.non_whitespace_loop _ s) as [c s1]. simpl in *.
  rewrite measure_eq. simpl. exact H.
Qed.

Lemma advance_le s : Scanner.measure (Scanner.advance s) <= Scanner.measure s.
Proof. rewrite advance_size, measure_eq. lia. Qed.

Lemma advance_lt s c :
  Scanner.current_char s = Some c ->
  Scanner.measure (Scanner.advance s) < Scanner.measure s.
Proof. intros H. rewrite advance_size, measure_eq, H. simpl. lia. Qed.

Lemma advance_non_whitespace_le s :
  Scanner.measure (Scanner.advance_non_whitespace s) <= Scanner.measure s.
Proof.
  pose proof (advance_non_whitespace_size s). rewrite (measure_eq s). lia.
Qed.

Lemma advance_non_whitespace_lt s c :
  Scanner.current_char s = Some c ->
  Scanner.measure (Scanner.advance_non_whitespace s) < Scanner.measure s.
Proof.
  intros H. pose proof (advance_non_whitespace_size s).
  rewrite (measure_eq s), H. simpl. lia.
Qed.

Lemma measure_set_comment_switch n s :
  Scanner.measure (Scanner.set_comment_switch n s) = Scanner.measure s.
Proof. reflexivity. Qed.

Lemma measure_set_names tbl s :
  Scanner.measure (Scanner.set_names tbl s) = Scanner.measure s.
Proof. reflexivity. Qed.

(** One round of the comment loop, from a state with a current character. *)
Lemma comment_round_lt s c (b d : bool) :
  Scanner.current_char s = Some c ->
  Scanner.measure
    (Scanner.advance_non_whitespace
       (if b then
          let s2 := Scanner.advance s in
          if d then Scanner.set_comment_switch 0 s2 else s2
        else s)) < Scanner.measure s.
Proof.
  intros H. destruct b.
  - eapply Nat.le_lt_trans; [apply advance_non_whitespace_le|].
    cbv zeta. destruct d; [rewrite measure_set_comment_switch|];
      apply (advance_lt _ H).
  - apply (advance_non_whitespace_lt _ H).
Qed.

Lemma comment_loop_le fuel s :
  Scanner.measure (Scanner.comment_loop fuel s) <= Scanner.measure s.
Proof.
  revert s. induction fuel as [|k IH]; intros s; simpl.
  - destruct (Nat.eqb _ 0); [lia|]. destruct (Scanner.current_char s); lia.
  - destruct (Nat.eqb _ 0); [lia|].
    destruct (Scanner.current_char s) as [c|] eqn:Hc; [|lia].
    eapply Nat.le_trans; [apply IH|].
    apply Nat.lt_le_incl.
    apply (comment_round_lt s _
             (char_is (Scanner.current_char (Scanner.advance s)) "/") Hc).
Qed.

(** The loops are given enough rounds: more would change nothing. *)
Lemma comment_loop_fuel n m s :
  Scanner.measure s < n -> Scanner.measure s < m ->
  Scanner.comment_loop n s = Scanner.comment_loop m s.
Proof.
  revert m s. induction n as [|k IH]; intros m s Hn Hm; [lia|].
  destruct m as [|k']; [lia|]. simpl.
  destruct (Nat.eqb _ 0); [reflexivity|].
  destruct (Scanner.current_char s) as [c|] eqn:Hc; [|reflexivity].
  pose proof (comment_round_lt s
                (Nat.eqb (Scanner.comment_switch s) 2 && Ascii.eqb c "*")
                (char_is (Scanner.current_char (Scanner.advance s)) "/") Hc)
    as Hlt.
  cbv zeta in Hlt. apply IH; lia.
Qed.

(** What [comment_check] does between two of its calls. *)
Lemma comment_body_lt s c :
  Scanner.current_char s = Some c ->
  let s1 := Scanner.advance s in
  let s2 := if char_is (Scanner.current_char s1) "/"
            then Scanner.set_comment_switch 1 s1 else s1 in
  let s3 := if char_is (Scanner.current_char s2) "*"
            then Scanner.set_comment_switch 2 s2 else s2 in
  let s4 := Scanner.advance_non_whitespace s3 in
  Scanner.measure (Scanner.comment_loop (S (Scanner.measure s4)) s4) <
  Scanner.measure s.
Proof.
  intros H s1 s2 s3 s4.
  eapply Nat.le_lt_trans; [apply comment_loop_le|].
  eapply Nat.le_lt_trans; [apply advance_non_whitespace_le|].
  assert (Scanner.measure s3 = Scanner.measure s1) as ->.
  { subst s3 s2. repeat (destruct (char_is _ _)); reflexivity. }
  apply (advance_lt _ H).
Qed.

Lemma comment_check_rec_S k s :
  Scanner.comment_check_rec (S k) s =
  if char_is (Scanner.current_char s) "/" then
    let s1 := Scanner.advance s in
    let s2 := if char_is (Scanner.current_char s1) "/"
              then Scanner.set_comment_switch 1 s1 else s1 in
    let s3 := if char_is (Scanner.current_char s2) "*"
              then Scanner.set_comment_switch 2 s2 else s2 in
    let s4 := Scanner.advance_non_whitespace s3 in
    Scanner.comment_check_rec k
      (Scanner.comment_loop (S (Scanner.measure s4)) s4)
  else s.
Proof. reflexivity. Qed.

Lemma comment_check_rec_le fuel s :
  Scanner.measure (Scanner.comment_check_rec fuel s) <= Scanner.measure s.
Proof.
  revert s. induction fuel as [|k IH]; intros s.
  - simpl. destruct (char_is _ _); lia.
  - rewrite comment_check_rec_S.
    destruct (Scanner.current_char s) as [c|] eqn:Hc; cbn [char_is]; [|lia].
    destruct (Ascii.eqb c "/"); [|lia].
    cbv zeta. eapply Nat.le_trans; [apply IH|].
    apply Nat.lt_le_incl. apply (comment_body_lt s Hc).
Qed.

Lemma comment_check_rec_fuel n m s :
  Scanner.measure s < n -> Scanner.measure s < m ->
  Scanner.comment_check_rec n s = Scanner.comment_check_rec m s.
Proof.
  revert m s. induction n as [|k IH]; intros m s Hn Hm; [lia|].
  destruct m as [|k']; [lia|]. rewrite !comment_check_rec_S.
  destruct (Scanner.current_char s) as [c|] eqn:Hc; cbn [char_is];
    [|reflexivity].
  destruct (Ascii.eqb c "/"); [|reflexivity].
  pose proof (comment_body_lt s Hc) as Hlt. cbv zeta in *.
  apply IH; lia.
Qed.

Lemma comment_check_le s :
  Scanner.measure (Scanner.comment_check s) <= Scanner.measure s.
Proof. apply comment_check_rec_le. Qed.

Lemma read_number_le fuel acc s :
  Scanner.measure (snd (Scanner.read_number fuel acc s)) <= Scanner.measure s.
Proof.
  revert acc s. induction fuel as [|k IH]; intros acc s; simpl.
  - destruct (Scanner.current_char s) as [c|]; [destruct (isdigit c)|];
      simpl; lia.
  - destruct (Scanner.current_char s) as [c|] eqn:Hc; [|simpl; lia].
    destruct (isdigit c); [|simpl; lia].
    eapply Nat.le_trans; [apply IH|]. apply advance_le.
Qed.

Lemma read_number_lt fuel acc s c :
  Scanner.current_char s = Some c -> isdigit c = true ->
  Scanner.measure (snd (Scanner.read_number (S fuel) acc s)) <
  Scanner.measure s.
Proof.
  intros Hc Hd. simpl. rewrite Hc, Hd.
  eapply Nat.le_lt_trans; [apply read_number_le|]. apply (advance_lt _ Hc).
Qed.

Lemma read_number_fuel n m acc s :
  Scanner.measure s < n -> Scanner.measure s < m ->
  Scanner.read_number n acc s = Scanner.read_number m acc s.
Proof.
  revert m acc s. induction n as [|k IH]; intros m acc s Hn Hm; [lia|].
  destruct m as [|k']; [lia|]. simpl.
  destruct (Scanner.current_char s) as [c|] eqn:Hc; [|reflexivity].
  destruct (isdigit c); [|reflexivity].
  pose proof (advance_lt _ Hc). apply IH; lia.
Qed.

Lemma read_word_le fuel acc s :
  Scanner.measure (snd (Scanner.read_word fuel acc s)) <= Scanner.measure s.
Proof.
  revert acc s. induction fuel as [|k IH]; intros acc s; simpl.
  - destruct (Scanner.current_char s) as [c|]; [destruct (_ || _)|]; simpl; lia.
  - destruct (Scanner.current_char s) as [c|] eqn:Hc; [|simpl; lia].
    destruct (_ || _); [|simpl; lia].
    eapply Nat.le_trans; [apply IH|]. apply advance_le.
Qed.

Lemma read_word_lt fuel acc s c :
  Scanner.current_char s = Some c -> isalpha c = true ->
  Scanner.measure (snd (Scanner.read_word (S fuel) acc s)) <
  Scanner.measure s.
Proof.
  intros Hc Hd. simpl. rewrite Hc. unfold isalnum. rewrite Hd. simpl.
  eapply Nat.le_lt_trans; [apply read_word_le|]. apply (advance_lt _ Hc).
Qed.

Lemma read_word_fuel n m acc s :
  Scanner.measure s < n -> Scanner.measure s < m ->
  Scanner.read_word n acc s = Scanner.read_word m acc s.
Proof.
  revert m acc s. induction n as [|k IH]; intros m acc s Hn Hm; [lia|].
  destruct m as [|k']; [lia|]. simpl.
  destruct (Scanner.current_char s) as [c|] eqn:Hc; [|reflexivity].
  destruct (_ || _); [|reflexivity].
  pose proof (advance_lt _ Hc). apply IH; lia.
Qed.

(** [get_symbol] either reports the end of the file and reads no further,
    or has read at least one character. *)
Lemma get_symbol_progress s :
  (sym_id (fst (Scanner.get_symbol s)) = Some Scanner.EOF /\
   Scanner.current_char (snd (Scanner.get_symbol s)) = None /\
   Scanner.measure (snd (Scanner.get_symbol s)) <= Scanner.measure s) \/
  Scanner.measure (snd (Scanner.get_symbol s)) < Scanner.measure s.
Proof.
  unfold Scanner.get_symbol.
  destruct (Scanner.current_char s) as [c0|] eqn:Hc0;
    [|left; simpl; repeat split; [exact Hc0 | lia]].
  set (s1 := if isspace c0 then Scanner.advance_non_whitespace s else s).
  assert (Scanner.measure s1 <= Scanner.measure s) as H1.
  { subst s1. destruct (isspace c0); [apply advance_non_whitespace_le | lia]. }
  pose proof (comment_check_le s1) as H2.
  set (s2 := Scanner.comment_check s1) in *.
  destruct (Scanner.current_char s2) as [c|] eqn:Hc.
  2:{ left. simpl. repeat split; [exact Hc | lia]. }
  right.
  destruct (isdigit c) eqn:Hd.
  { pose proof (read_number_lt (Scanner.measure s2) "" s2 Hc Hd) as H3.
    destruct (Scanner.read_number _ _ s2) as [w s3]. cbn [snd] in H3.
    destruct (Names.lookup1 _ w). cbn [snd]. rewrite measure_set_names.
    lia. }
  destruct (isalpha c) eqn:Ha.
  { pose proof (read_word_lt (Scanner.measure s2) "" s2 Hc Ha) as H3.
    destruct (Scanner.read_word _ _ s2) as [w s3]. cbn [snd] in H3.
    destruct (Names.lookup1 _ w). cbn [snd]. rewrite measure_set_names.
    lia. }
  pose proof (advance_lt _ Hc) as H3.
  pose proof (advance_le (Scanner.advance s2)) as H4.
  destruct (Ascii.eqb c ":"); [cbn [snd]; lia|].
  destruct (Ascii.eqb c ";"); [cbn [snd]; lia|].
  destruct (Ascii.eqb c "."); [cbn [snd]; lia|].
  destruct (Ascii.eqb c "-").
  - destruct (char_is _ _); cbn [snd]; lia.
  - destruct (Names.lookup1 _ _) as [id tbl]. cbn [snd].
    assert (Scanner.current_char (Scanner.set_names tbl s2) = Some c) as Hc'
      by exact Hc.
    pose proof (advance_lt _ Hc') as H5.
    rewrite measure_set_names in H5. lia.
Qed.

(** Once the end of the file is reported, it is reported again, from the
    same state. *)
Lemma get_symbol_at_end s :
  Scanner.current_char s = None ->
  Scanner.get_symbol s =
  (mkSymbol None (Some Scanner.EOF) (Scanner.line_counter s)
     (Scanner.col_counter s), s).
Proof. intros H. unfold Scanner.get_symbol. rewrite H. reflexivity. Qed.

(** The loops of the scanner end as their [while] does. *)
Lemma comment_loop_exit n s :
  Scanner.measure s < n ->
  Scanner.comment_switch (Scanner.comment_loop n s) = 0 \/
  Scanner.current_char (Scanner.comment_loop n s) = None.
Proof.
  revert s. induction n as [|k IH]; intros s Hn; [lia|]. simpl.
  destruct (Nat.eqb (Scanner.comment_switch s) 0) eqn:H0;
    [left; now apply Nat.eqb_eq|].
  destruct (Scanner.current_char s) as [c|] eqn:Hc; [|right; exact Hc].
  pose proof (comment_round_lt s
                (Nat.eqb (Scanner.comment_switch s) 2 && Ascii.eqb c "*")
                (char_is (Scanner.current_char (Scanner.advance s)) "/") Hc)
    as Hlt.
  cbv zeta in Hlt. apply IH. lia.
Qed.

Lemma comment_check_rec_exit n s :
  Scanner.measure s < n ->
  char_is (Scanner.current_char (Scanner.comment_check_rec n s)) "/" = false.
Proof.
  revert s. induction n as [|k IH]; intros s Hn; [lia|].
  rewrite comment_check_rec_S.
  destruct (char_is (Scanner.current_char s) "/") eqn:H; [|exact H].
  destruct (Scanner.current_char s) as [c|] eqn:Hc; [|discriminate H].
  pose proof (comment_body_lt s Hc) as Hlt. cbv zeta in *.
  apply IH. lia.
Qed.

Lemma read_number_exit n acc s :
  Scanner.measure s < n ->
  match Scanner.current_char (snd (Scanner.read_number n acc s)) with
  | Some c => isdigit c = false
  | None => True
  end.
Proof.
  revert acc s. induction n as [|k IH]; intros acc s Hn; [lia|]. simpl.
  destruct (Scanner.current_char s) as [c|] eqn:Hc;
    [|cbn [snd]; now rewrite Hc].
  destruct (isdigit c) eqn:Hd; [|cbn [snd]; now rewrite Hc].
  pose proof (advance_lt _ Hc). apply IH. lia.
Qed.

Lemma read_word_exit n acc s :
  Scanner.measure s < n ->
  match Scanner.current_char (snd (Scanner.read_word n acc s)) with
  | Some c => isalnum c || Ascii.eqb c "_" = false
  | None => True
  end.
Proof.
  revert acc s. induction n as [|k IH]; intros acc s Hn; [lia|]. simpl.
  destruct (Scanner.current_char s) as [c|] eqn:Hc;
    [|cbn [snd]; now rewrite Hc].
  destruct (isalnum c || Ascii.eqb c "_") eqn:Hd;
    [|cbn [snd]; now rewrite Hc].
  pose proof (advance_lt _ Hc). apply IH. lia.
Qed.

End ScannerProgress.

(** ** What the parser does to its error list *)

Section ErrorAccounting.

Variable World : Type.
Variable E : Env World.

Let pstate := Parser.t World.

Lemma grows_same (p q : pstate) :
  Parser.error_messages q = Parser.error_messages p ->
  Parser.error_count q = Parser.error_count p -> grows p q.
Proof.
  intros H1 H2. exists []. rewrite app_nil_r. split; [exact H1 | simpl; lia].
Qed.

Lemma grows_refl (p : pstate) : grows p p.
Proof. apply grows_same; reflexivity. Qed.

Lemma grows_trans (p q r : pstate) : grows p q -> grows q r -> grows p r.
Proof.
  intros [e1 [H1 H2]] [e2 [H3 H4]]. exists (e1 ++ e2).
  rewrite H3, H1, H4, H2, length_app, app_assoc. split; [reflexivity | lia].
Qed.

Lemma grows_consistent (p q : pstate) :
  grows p q -> consistent p -> consistent q.
Proof.
  intros [es [H1 H2]] Hc. unfold consistent in *.
  rewrite H1, H2, length_app. lia.
Qed.

Lemma grows_next (p : pstate) : grows p (Parser.next p).
Proof.
  unfold Parser.next. destruct (Scanner.get_symbol _).
  apply grows_same; reflexivity.
Qed.

Lemma grows_print s (p : pstate) : grows p (Parser.print s p).
Proof. apply grows_same; reflexivity. Qed.

Lemma grows_set_world w (p : pstate) : grows p (Parser.set_world w p).
Proof. apply grows_same; reflexivity. Qed.

Lemma grows_set_names tbl (p : pstate) : grows p (Parser.set_names tbl p).
Proof. apply grows_same; reflexivity. Qed.

Lemma grows_set_missing_end b (p : pstate) :
  grows p (Parser.set_missing_end b p).
Proof. apply grows_same; reflexivity. Qed.

Lemma grows_set_missing_end_l b (p q : pstate) :
  grows p q -> grows p (Parser.set_missing_end b q).
Proof.
  intros H. eapply grows_trans; [exact H | apply grows_set_missing_end].
Qed.

Lemma skip_to_errors stop fuel (p : pstate) :
  Parser.error_messages (Parser.skip_to stop fuel p) = Parser.error_messages p
  /\ Parser.error_count (Parser.skip_to stop fuel p) = Parser.error_count p.
Proof.
  revert p. induction fuel as [|k IH]; intros p; simpl.
  - destruct (py_in _ _); auto.
  - destruct (py_in _ _); auto.
    destruct (IH (Parser.next p)) as [H1 H2]. rewrite H1, H2.
    unfold Parser.next. destruct (Scanner.get_symbol _). auto.
Qed.

(** One call of [error]: one more error counted, one entry appended, at the
    position of the symbol that was current when [error] was entered. *)
Lemma error_appends et adv v (p : pstate) :
  exists msg,
    Parser.error_messages (snd (Parser.error E et adv v p)) =
      Parser.error_messages p ++
      [(msg, linenum (Parser.symbol p), colnum (Parser.symbol p))] /\
    Parser.error_count (snd (Parser.error E et adv v p)) =
      S (Parser.error_count p).
Proof.
  unfold Parser.error. destruct adv.
  - destruct (skip_to_errors (Parser.stopping_symbol et)
                (S (Scanner.measure
                      (Parser.scanner (Parser.incr_error_count p))))
                (Parser.incr_error_count p)) as [H1 H2].
    destruct (negb _).
    + unfold Parser.next. destruct (Scanner.get_symbol _).
      eexists. cbn [snd Parser.append_error Parser.error_messages
                    Parser.error_count].
      rewrite H1, H2. split; reflexivity.
    + eexists. cbn [snd Parser.append_error Parser.error_messages
                    Parser.error_count Parser.set_reached_eof].
      rewrite H1, H2. split; reflexivity.
  - eexists. split; reflexivity.
Qed.

Lemma grows_error et adv v (p : pstate) : grows p (Parser.error_ E et adv v p).
Proof.
  destruct (error_appends et adv v p) as [msg [H1 H2]].
  exists [(msg, linenum (Parser.symbol p), colnum (Parser.symbol p))].
  unfold Parser.error_. rewrite H1, H2. split; simpl; [reflexivity | lia].
Qed.

Lemma grows_step (f : pstate -> pstate) (p q : pstate) :
  (forall r, grows r (f r)) -> grows p q -> grows p (f q).
Proof. intros Hf H. eapply grows_trans; [exact H | apply Hf]. Qed.

Lemma grows_of_eq A (f : pstate -> A * pstate) (p : pstate) r (q : pstate) :
  grows p (snd (f p)) -> f p = (r, q) -> grows p q.
Proof. intros H Heq. rewrite Heq in H. exact H. Qed.

(** [grows p q] along the calls that lead from [p] to [q]. *)
Ltac grows_chain :=
  cbn [snd fst];
  lazymatch goal with
  | |- grows ?p ?p => apply grows_refl
  | H : grows ?p ?q |- grows ?p ?q => exact H
  | |- grows ?p (Parser.next ?q) =>
      apply (grows_step (@Parser.next _)); [apply grows_next | grows_chain]
  | |- grows ?p (Parser.error_ ?E ?et ?a ?v ?q) =>
      apply (grows_step (Parser.error_ E et a v));
      [apply grows_error | grows_chain]
  | |- grows ?p (Parser.print ?s ?q) =>
      apply (grows_step (Parser.print s)); [apply grows_print | grows_chain]
  | |- grows ?p (Parser.set_world ?w ?q) =>
      apply (grows_step (Parser.set_world w));
      [apply grows_set_world | grows_chain]
  | |- grows ?p (Parser.set_names ?tbl ?q) =>
      apply (grows_step (Parser.set_names tbl));
      [apply grows_set_names | grows_chain]
  | |- grows ?p (Parser.set_missing_end ?b ?q) =>
      apply (grows_step (Parser.set_missing_end b));
      [apply grows_set_missing_end | grows_chain]
  | |- grows ?p (snd (?f ?q)) =>
      apply grows_trans with q; [grows_chain | solve [auto with grows]]
  | |- grows ?p (?f ?q) =>
      apply (grows_step f); [solve [auto with grows] | grows_chain]
  | H : ?f ?r = (_, ?q) |- grows ?p ?q =>
      apply grows_trans with r;
      [grows_chain
      | eapply (@grows_of_eq _ f r _ q); [solve [auto with grows] | exact H]]
  end.

Ltac grows_body := repeat break_body; cbv beta iota zeta; grows_chain.

Lemma grows_check_keyword k (p : pstate) :
  grows p (snd (Parser.check_keyword E k p)).
Proof. unfold Parser.check_keyword. grows_body. Qed.

Lemma grows_check_end b (p : pstate) : grows p (Parser.check_end E b p).
Proof. unfold Parser.check_end. grows_body. Qed.

Lemma grows_get_io io (p : pstate) : grows p (snd (Parser.get_io E io p)).
Proof. unfold Parser.get_io. grows_body. Qed.

Lemma grows_check_io io (p : pstate) :
  grows p (snd (Parser.check_io E io p)).
Proof. unfold Parser.check_io. grows_body. Qed.

Hint Resolve grows_check_keyword grows_check_end grows_get_io
  grows_check_io : grows.

Lemma grows_device (p : pstate) : grows p (snd (Parser.device E p)).
Proof. unfold Parser.device. grows_body. Qed.

Lemma grows_connect (p : pstate) : grows p (snd (Parser.connect E p)).
Proof. unfold Parser.connect. grows_body. Qed.

Lemma grows_connect_syntax (p : pstate) : grows p (Parser.connect_syntax E p).
Proof. unfold Parser.connect_syntax. grows_body. Qed.

Lemma grows_monitor (p : pstate) : grows p (Parser.monitor E p).
Proof. unfold Parser.monitor. grows_body. Qed.

Lemma grows_monitor_syntax (p : pstate) : grows p (Parser.monitor_syntax E p).
Proof. unfold Parser.monitor_syntax. grows_body. Qed.

Lemma grows_monitor_method (p : pstate) :
  grows p (snd (Parser.monitor_method E p)).
Proof. apply grows_monitor. Qed.

Hint Resolve grows_device grows_connect grows_connect_syntax grows_monitor
  grows_monitor_syntax grows_monitor_method : grows.

Lemma grows_build_list_loop ty (m : pstate -> bool * pstate) fuel :
  (forall q, grows q (snd (m q))) ->
  forall ok (p : pstate),
    grows p (snd (Parser.build_list_loop E ty m fuel ok p)).
Proof.
  intros Hm. induction fuel as [|k IH]; intros ok p; simpl.
  - destruct (Parser.list_goes_on p); apply grows_refl.
  - destruct (Parser.list_goes_on p); [|apply grows_refl].
    destruct (Parser.type_is p ty).
    + destruct (m p) as [r q] eqn:Hq.
      apply grows_trans with q; [|apply IH].
      eapply (@grows_of_eq _ m p r q); [apply Hm | exact Hq].
    + destruct (_ || _); cbn [snd].
      * grows_chain.
      * eapply grows_trans; [|apply IH]. apply grows_error.
Qed.

Lemma grows_build_list ty (m : pstate -> bool * pstate) (p : pstate) :
  (forall q, grows q (snd (m q))) ->
  grows p (snd (Parser.build_list E ty m p)).
Proof. intros Hm. apply grows_build_list_loop, Hm. Qed.

Lemma grows_check_syntax_loop ty (m : pstate -> pstate) fuel :
  (forall q, grows q (m q)) ->
  forall p : pstate, grows p (Parser.check_syntax_loop E ty m fuel p).
Proof.
  intros Hm. induction fuel as [|k IH]; intros p; simpl.
  - destruct (Parser.list_goes_on p); apply grows_refl.
  - destruct (Parser.list_goes_on p); [|apply grows_refl].
    destruct (Parser.type_is p ty).
    + eapply grows_trans; [apply Hm | apply IH].
    + destruct (_ || _).
      * grows_chain.
      * eapply grows_trans; [|apply IH]. apply grows_error.
Qed.

Lemma grows_check_syntax ty (m : pstate -> pstate) (p : pstate) :
  (forall q, grows q (m q)) -> grows p (Parser.check_syntax E ty m p).
Proof. intros Hm. apply grows_check_syntax_loop, Hm. Qed.

Lemma grows_build_device (p : pstate) :
  grows p (snd (Parser.build_list E Scanner.DEVICETYPE (Parser.device E) p)).
Proof. apply grows_build_list, grows_device. Qed.

Lemma grows_build_connect (p : pstate) :
  grows p (snd (Parser.build_list E Scanner.NAMES (Parser.connect E) p)).
Proof. apply grows_build_list, grows_connect. Qed.

Lemma grows_build_monitor (p : pstate) :
  grows p
    (snd (Parser.build_list E Scanner.NAMES (Parser.monitor_method E) p)).
Proof. apply grows_build_list, grows_monitor_method. Qed.

Lemma grows_syntax_connect (p : pstate) :
  grows p
    (Parser.check_syntax E Scanner.NAMES (Parser.connect_syntax E) p).
Proof. apply grows_check_syntax, grows_connect_syntax. Qed.

Lemma grows_syntax_monitor (p : pstate) :
  grows p
    (Parser.check_syntax E Scanner.NAMES (Parser.monitor_syntax E) p).
Proof. apply grows_check_syntax, grows_monitor_syntax. Qed.

Hint Resolve grows_build_device grows_build_connect grows_build_monitor
  grows_syntax_connect grows_syntax_monitor : grows.

Lemma grows_devicelist (p : pstate) : grows p (snd (Parser.devicelist E p)).
Proof. unfold Parser.devicelist. grows_body. Qed.

Lemma grows_connectionlist b (p : pstate) :
  grows p (snd (Parser.connectionlist E b p)).
Proof. unfold Parser.connectionlist. grows_body. Qed.

Lemma grows_monitorlist b (p : pstate) : grows p (Parser.monitorlist E b p).
Proof. unfold Parser.monitorlist. grows_body. Qed.

Hint Resolve grows_devicelist grows_connectionlist grows_monitorlist : grows.

Lemma fold_print_errors (f : string * nat * nat -> string) l (q : pstate) :
  let r := fold_left (fun q e => Parser.print (f e) q) l q in
  Parser.error_messages r = Parser.error_messages q /\
  Parser.error_count r = Parser.error_count q.
Proof.
  revert q. induction l as [|e l IH]; intros q; simpl.
  - auto.
  - destruct (IH (Parser.print (f e) q)) as [H1 H2].
    simpl in H1, H2. rewrite H1, H2. auto.
Qed.

Lemma error_report_errors (p : pstate) :
  Parser.error_messages (Parser.error_report p) = Parser.error_messages p /\
  Parser.error_count (Parser.error_report p) = Parser.error_count p.
Proof. apply fold_print_errors. Qed.

Lemma grows_error_report (p : pstate) : grows p (Parser.error_report p).
Proof. apply grows_same; apply error_report_errors. Qed.

Hint Resolve grows_error_report : grows.

Lemma grows_parse_network (p : pstate) :
  grows p (snd (Parser.parse_network E p)).
Proof. unfold Parser.parse_network. grows_body. Qed.

Lemma grows_run op (p : pstate) : grows p (run E op p).
Proof.
  destruct op; simpl; auto with grows.
  - apply grows_next.
  - apply grows_parse_network.
  - destruct m; apply grows_build_list; auto with grows.
  - destruct m; apply grows_check_syntax; auto with grows.
  - apply grows_error.
Qed.

Lemma grows_run_all ops (p : pstate) : grows p (run_all E ops p).
Proof.
  revert p. induction ops as [|op ops IH]; intros p; simpl.
  - apply grows_refl.
  - eapply grows_trans; [apply grows_run | apply IH].
Qed.

(** Claim C10.  Every call of [Parser.error] counts one more error and
    appends one entry (message, line, column), whose line and column are
    those of the symbol that is current when [error] is entered, before any
    symbol is skipped; and after any sequence of parser operations on a
    new parser the error count is the length of the list of messages. *)
Theorem error_count_matches_messages :
  (forall et adv v (p : pstate),
     let q := snd (Parser.error E et adv v p) in
     Parser.error_count q = S (Parser.error_count p) /\
     length (Parser.error_messages q) = S (length (Parser.error_messages p)) /\
     exists msg,
       Parser.error_messages q =
       Parser.error_messages p ++
       [(msg, linenum (Parser.symbol p), colnum (Parser.symbol p))]) /\
  (forall sc w ops, consistent (run_all E ops (Parser.init sc w))).
Proof.
  split.
  - intros et adv v p q. subst q.
    destruct (error_appends et adv v p) as [msg [H1 H2]].
    split; [exact H2 | split].
    + rewrite H1, length_app. simpl. lia.
    + exists msg. exact H1.
  - intros sc w ops.
    apply grows_consistent with (Parser.init sc w).
    + apply grows_run_all.
    + reflexivity.
Qed.

End ErrorAccounting.

(** ** Recovery after an error *)

Section Recovery.

Variable World : Type.
Variable E : Env World.

Let pstate := Parser.t World.

Lemma next_ahead (p : pstate) : ahead p (Parser.next p).
Proof.
  unfold ahead, at_end, pmeasure, Parser.next.
  pose proof (get_symbol_progress (Parser.scanner p)) as H.
  destruct (Scanner.get_symbol (Parser.scanner p)) as [sym sc].
  cbn [fst snd Parser.scanner Parser.symbol] in *.
  destruct H as [[H1 [H2 H3]] | H]; [right | left]; auto.
Qed.

Lemma after_symbols_S k (p : pstate) :
  after_symbols (S k) p = after_symbols k (Parser.next p).
Proof. unfold after_symbols. apply Nat.iter_succ_r. Qed.

Lemma skip_to_after stop fuel (p : pstate) :
  exists k,
    Parser.skip_to stop fuel p = after_symbols k p /\ none_stops stop k p.
Proof.
  revert p. induction fuel as [|n IH]; intros p; simpl.
  - exists 0. split; [destruct (py_in _ _); reflexivity|].
    intros j Hj. lia.
  - destruct (py_in (sym_id (Parser.symbol p)) stop) eqn:Hin.
    + exists 0. split; [reflexivity|]. intros j Hj. lia.
    + destruct (IH (Parser.next p)) as [k [H1 H2]].
      exists (S k). rewrite after_symbols_S. split; [exact H1|].
      intros [|j] Hj; [exact Hin|].
      rewrite after_symbols_S. apply H2. lia.
Qed.

Lemma py_in_In (n : nat) l : In n l -> py_in (Some n) l = true.
Proof.
  intros H. simpl. apply existsb_exists. exists n.
  split; [exact H | apply Nat.eqb_refl].
Qed.

(** The loop of [error] is given enough rounds: it ends on a symbol of the
    stopping list. *)
Lemma skip_to_lands stop fuel (p : pstate) :
  In Scanner.EOF stop -> pmeasure p < fuel ->
  py_in (sym_id (Parser.symbol (Parser.skip_to stop fuel p))) stop = true.
Proof.
  intros Hstop. revert p. induction fuel as [|n IH]; intros p Hlt; [lia|].
  simpl. destruct (py_in (sym_id (Parser.symbol p)) stop) eqn:Hin;
    [exact Hin|].
  destruct (next_ahead p) as [H | [[_ H1] H2]].
  - apply IH. lia.
  - assert (py_in (sym_id (Parser.symbol (Parser.next p))) stop = true) as Hq
      by (rewrite H1; apply py_in_In, Hstop).
    destruct n; simpl; rewrite Hq; exact Hq.
Qed.

Lemma stopping_symbol_EOF et : In Scanner.EOF (Parser.stopping_symbol et).
Proof. left. reflexivity. Qed.

(** Claim C5.  The stopping list of every error holds the identifier of the
    end of the file.  An error that asks for recovery skips forward to the
    first symbol of its stopping list; when that symbol is not the end of
    the file it is taken and parsing resumes at the symbol after it, and
    when it is the end of the file [reached_eof] is set, with which the
    three list methods return at once and leave the parser as it is. *)
Theorem error_recovery_skips_to_stopping_symbol :
  forall et v (p : pstate),
    In Scanner.EOF (Parser.stopping_symbol et) /\
    (exists k msg,
       let landed := after_symbols k (Parser.incr_error_count p) in
       none_stops (Parser.stopping_symbol et) k (Parser.incr_error_count p) /\
       py_in (sym_id (Parser.symbol landed)) (Parser.stopping_symbol et)
         = true /\
       snd (Parser.error E et true v p) =
       Parser.append_error
         (msg, linenum (Parser.symbol p), colnum (Parser.symbol p))
         (if Parser.id_is landed Scanner.EOF
          then Parser.set_reached_eof true landed
          else Parser.next landed)) /\
    (forall b (q : pstate),
       let q1 := Parser.set_reached_eof true q in
       Parser.devicelist E q1 = (None, q1) /\
       Parser.connectionlist E b q1 = (Some true, q1) /\
       Parser.monitorlist E b q1 = q1).
Proof.
  intros et v p. split; [apply stopping_symbol_EOF | split].
  - set (p0 := Parser.incr_error_count p).
    destruct (skip_to_after (Parser.stopping_symbol et)
                (S (Scanner.measure (Parser.scanner p0))) p0)
      as [k [Hk Hnone]].
    pose proof (skip_to_lands (Parser.stopping_symbol et) p0
                  (stopping_symbol_EOF et)
                  (Nat.lt_succ_diag_r (pmeasure p0))) as Hland.
    unfold pmeasure in Hland. rewrite Hk in Hland.
    unfold Parser.error. fold p0. rewrite Hk.
    exists k. destruct (Parser.id_is (after_symbols k p0) Scanner.EOF);
      cbn [negb snd]; eexists; cbv zeta; repeat split; eauto.
  - intros b q. cbv zeta. repeat split.
Qed.

End Recovery.

(** ** The lists and their ends *)

Section Lists.

Variable World : Type.
Variable E : Env World.

Let pstate := Parser.t World.

Lemma string_append_assoc (a b c : string) :
  ((a ++ b) ++ c = a ++ (b ++ c))%string.
Proof. induction a as [|x a IH]; simpl; [reflexivity | now rewrite IH]. Qed.

Lemma error_no_advance et v (p : pstate) :
  Parser.error_ E et false v p =
  with_error ("***Error: " ++ Parser.error_text E p et v ++ "***" ++ nl) p.
Proof.
  unfold Parser.error_, Parser.error, with_error. cbn [snd].
  rewrite !string_append_assoc. reflexivity.
Qed.

Lemma error_END_ERROR_no_advance (p : pstate) :
  Parser.error_ E END_ERROR false VNone p = with_error END_ERROR_message p.
Proof. reflexivity. Qed.

(** One round of the loop of [build_list] and of [check_syntax]: a current
    symbol that is a keyword other than END or a colon, where an item of
    type DEVICETYPE or NAME or END is expected, gives one error "Expected
    either another item in list or the keyword END" and ends the loop at
    once with [missing_end] set, the symbol still the current one. *)
Lemma missing_end_round :
  forall ty (m : pstate -> bool * pstate) (ms : pstate -> pstate)
         rounds ok (p : pstate),
    ty = Scanner.DEVICETYPE \/ ty = Scanner.NAMES ->
    Parser.list_goes_on p = true ->
    Parser.type_is p Scanner.KEYWORDS || Parser.type_is p Scanner.CL = true ->
    let q := Parser.set_missing_end true (with_error END_ERROR_message p) in
    Parser.build_list_loop E ty m (S rounds) ok p = (false, q) /\
    Parser.check_syntax_loop E ty ms (S rounds) p = q /\
    Parser.build_list E ty m p = (false, q) /\
    Parser.check_syntax E ty ms p = q /\
    Parser.error_count q = S (Parser.error_count p) /\
    Parser.error_messages q =
      Parser.error_messages p ++
      [(END_ERROR_message, linenum (Parser.symbol p),
        colnum (Parser.symbol p))] /\
    Parser.missing_end q = true /\
    Parser.symbol q = Parser.symbol p /\
    Parser.scanner q = Parser.scanner p /\
    Parser.world q = Parser.world p.
Proof.
  intros ty m ms rounds ok p Hty Hgo Hkw q.
  assert (Parser.type_is p ty = false) as Hne.
  { unfold Parser.type_is in *.
    destruct (sym_type (Parser.symbol p)) as [n|]; [|reflexivity].
    simpl in *. apply orb_true_iff in Hkw.
    destruct Hkw as [H | H]; apply Nat.eqb_eq in H; subst n;
      destruct Hty; subst ty; reflexivity. }
  assert (forall k b, Parser.build_list_loop E ty m (S k) b p = (false, q))
    as Hb.
  { intros k b. simpl. rewrite Hgo, Hne, Hkw. reflexivity. }
  assert (forall k, Parser.check_syntax_loop E ty ms (S k) p = q) as Hs.
  { intros k. simpl. rewrite Hgo, Hne, Hkw. reflexivity. }
  split; [apply Hb|]. split; [apply Hs|].
  split; [apply Hb|]. split; [apply Hs|].
  split; [reflexivity|]. repeat split.
Qed.

(** *** A successful call reports no error *)

Lemma same_errors_refl (p : pstate) : same_errors p p.
Proof. split; reflexivity. Qed.

Lemma same_errors_trans (p q r : pstate) :
  same_errors p q -> same_errors q r -> same_errors p r.
Proof. intros [H1 H2] [H3 H4]. split; congruence. Qed.

Lemma same_errors_next (p : pstate) : same_errors p (Parser.next p).
Proof.
  unfold Parser.next. destruct (Scanner.get_symbol _). split; reflexivity.
Qed.

Lemma same_errors_step (f : pstate -> pstate) (p q : pstate) :
  (forall r, same_errors r (f r)) -> same_errors p q -> same_errors p (f q).
Proof. intros Hf H. eapply same_errors_trans; [exact H | apply Hf]. Qed.

Ltac same_chain :=
  lazymatch goal with
  | |- same_errors ?p ?p => apply same_errors_refl
  | H : same_errors ?p ?q |- same_errors ?p ?q => exact H
  | |- same_errors ?p (Parser.next ?q) =>
      apply (same_errors_step (@Parser.next _));
      [apply same_errors_next | same_chain]
  | |- same_errors ?p (Parser.print ?s ?q) =>
      apply (same_errors_step (Parser.print s));
      [intros; split; reflexivity | same_chain]
  | |- same_errors ?p (Parser.set_world ?w ?q) =>
      apply (same_errors_step (Parser.set_world w));
      [intros; split; reflexivity | same_chain]
  | |- same_errors ?p (Parser.set_names ?w ?q) =>
      apply (same_errors_step (Parser.set_names w));
      [intros; split; reflexivity | same_chain]
  | H : same_errors ?r ?q |- same_errors ?p ?q =>
      apply same_errors_trans with r; [same_chain | exact H]
  end.

(** A call that answered [True]: the failing branches are ruled out and
    the others are followed. *)
Ltac success_path H :=
  repeat break_in H; try discriminate H;
  injection H as <-; try subst; same_chain.

Lemma check_keyword_ok k (p q : pstate) :
  Parser.check_keyword E k p = (true, q) -> same_errors p q.
Proof. unfold Parser.check_keyword. intros H. success_path H. Qed.

Lemma get_io_ok io (p q : pstate) r :
  Parser.get_io E io p = (r, q) -> Parser.is_none_pair r = false ->
  same_errors p q.
Proof.
  unfold Parser.get_io. intros H Hr.
  repeat break_in H; injection H as <- <-; try discriminate Hr; same_chain.
Qed.

Lemma connect_ok (p q : pstate) :
  Parser.connect E p = (true, q) -> same_errors p q.
Proof.
  unfold Parser.connect. intros H.
  destruct (Parser.get_io E Parser.OUTPUT p) as [out p1] eqn:H1.
  destruct (Parser.is_none_pair out) eqn:Hout; [discriminate H|].
  pose proof (get_io_ok _ _ H1 Hout) as S1.
  destruct (Parser.type_is p1 Scanner.AR); [|discriminate H].
  cbv zeta in H.
  destruct (Parser.type_is (Parser.next p1) Scanner.NAMES); [|discriminate H].
  destruct (Parser.get_io E Parser.INPUT (Parser.next p1)) as [inp p3] eqn:H3.
  destruct (Parser.is_none_pair inp) eqn:Hinp; [discriminate H|].
  pose proof (get_io_ok _ _ H3 Hinp) as S3.
  success_path H.
Qed.

Lemma build_list_loop_ok ty (m : pstate -> bool * pstate) fuel :
  (forall p q, m p = (true, q) -> same_errors p q) ->
  forall ok (p q : pstate),
    Parser.build_list_loop E ty m fuel ok p = (true, q) ->
    ok = true /\ same_errors p q.
Proof.
  intros Hm. induction fuel as [|k IH]; intros ok p q H; simpl in H.
  - destruct (Parser.list_goes_on p); injection H as -> <-;
      split; auto using same_errors_refl.
  - destruct (Parser.list_goes_on p).
    2:{ injection H as -> <-. split; auto using same_errors_refl. }
    destruct (Parser.type_is p ty).
    + destruct (m p) as [r p1] eqn:Hmp.
      apply IH in H. destruct H as [Hok S1].
      apply andb_true_iff in Hok. destruct Hok as [-> ->].
      split; [reflexivity|].
      eapply same_errors_trans; [apply (Hm _ _ Hmp) | exact S1].
    + destruct (_ || _); [discriminate H|].
      apply IH in H. destruct H as [H _]. discriminate H.
Qed.

Lemma build_connect_ok (p q : pstate) :
  Parser.build_list E Scanner.NAMES (Parser.connect E) p = (true, q) ->
  same_errors p q.
Proof.
  intros H. unfold Parser.build_list in H.
  apply (@build_list_loop_ok _ _ _ connect_ok) in H. apply H.
Qed.

(** *** The entry that an error appends *)

Lemma skip_to_errors_same stop fuel (p : pstate) :
  same_errors p (Parser.skip_to stop fuel p).
Proof.
  revert p. induction fuel as [|k IH]; intros p; simpl.
  - destruct (py_in _ _); apply same_errors_refl.
  - destruct (py_in _ _); [apply same_errors_refl|].
    eapply same_errors_trans; [apply same_errors_next | apply IH].
Qed.

(** The message starts with the text of the error; what may follow is the
    line on which parsing resumes. *)
Lemma error_message_shape et adv v (p : pstate) :
  exists rest,
    Parser.error_messages (snd (Parser.error E et adv v p)) =
    Parser.error_messages p ++
    [(("***Error: " ++ Parser.error_text E p et v ++ rest)%string,
      linenum (Parser.symbol p), colnum (Parser.symbol p))].
Proof.
  unfold Parser.error. destruct adv.
  - destruct (skip_to_errors_same (Parser.stopping_symbol et)
                (S (Scanner.measure
                      (Parser.scanner (Parser.incr_error_count p))))
                (Parser.incr_error_count p)) as [H1 _].
    destruct (negb _).
    + pose proof (same_errors_next
                    (Parser.skip_to (Parser.stopping_symbol et)
                       (S (Scanner.measure
                             (Parser.scanner (Parser.incr_error_count p))))
                       (Parser.incr_error_count p))) as [H2 _].
      eexists. cbn [snd Parser.append_error Parser.error_messages].
      rewrite H2, H1. cbn [Parser.incr_error_count Parser.error_messages].
      rewrite !string_append_assoc. reflexivity.
    + eexists. cbn [snd Parser.append_error Parser.error_messages
                    Parser.set_reached_eof].
      rewrite H1. cbn [Parser.incr_error_count Parser.error_messages].
      rewrite !string_append_assoc. reflexivity.
  - eexists. cbn [snd Parser.append_error Parser.error_messages
                  Parser.incr_error_count].
    rewrite !string_append_assoc. reflexivity.
Qed.

Lemma count_message_app m l1 l2 :
  count_message m (l1 ++ l2) = count_message m l1 + count_message m l2.
Proof. unfold count_message. rewrite filter_app, length_app. reflexivity. Qed.

Lemma count_message_same m (p q : pstate) :
  same_errors p q ->
  count_message m (Parser.error_messages q) =
  count_message m (Parser.error_messages p).
Proof. intros [H _]. rewrite H. reflexivity. Qed.

(** [check_end] adds no entry that tells of unconnected inputs or of
    missing monitor points. *)
Lemma check_end_count b (p : pstate) m :
  m = UNCONNECTED_INPUTS_message \/ m = NO_MONITOR_message ->
  count_message m (Parser.error_messages (Parser.check_end E b p)) =
  count_message m (Parser.error_messages p).
Proof.
  intros Hm. unfold Parser.check_end.
  destruct (Parser.id_is p Scanner.END).
  - apply count_message_same, same_errors_next.
  - unfold Parser.error_.
    destruct (error_message_shape END_ERROR b VNone p) as [rest ->].
    rewrite count_message_app.
    destruct Hm as [-> | ->]; unfold count_message; simpl; lia.
Qed.

(** Claim C7.  When the connection list has been built without an error
    and the check of the whole network fails, [connectionlist] records
    one error "Not all inputs are connected", at the current symbol and
    without skipping any symbol, then looks for END and answers [False];
    its error list has exactly one more entry with that message than
    before. *)
Theorem unconnected_inputs_reported_once :
  forall (p p1 p2 : pstate),
    Parser.reached_eof p = false ->
    Parser.check_keyword E Scanner.CONNECTION_LIST
      (Parser.print "Parsing connection list..." p) = (true, p1) ->
    Parser.build_list E Scanner.NAMES (Parser.connect E) p1 = (true, p2) ->
    check_network E (Parser.world p2) = false ->
    let p3 := with_error UNCONNECTED_INPUTS_message p2 in
    Parser.connectionlist E true p =
      (Some false, Parser.check_end E true p3) /\
    Parser.error_messages p3 =
      Parser.error_messages p ++
      [(UNCONNECTED_INPUTS_message, linenum (Parser.symbol p2),
        colnum (Parser.symbol p2))] /\
    Parser.error_count p3 = S (Parser.error_count p) /\
    count_message UNCONNECTED_INPUTS_message
      (Parser.error_messages (snd (Parser.connectionlist E true p))) =
    S (count_message UNCONNECTED_INPUTS_message (Parser.error_messages p)).
Proof.
  intros p p1 p2 Heof Hkw Hbuild Hnet p3.
  assert (Parser.connectionlist E true p =
          (Some false, Parser.check_end E true p3)) as Hcl.
  { unfold Parser.connectionlist. rewrite Heof. cbv zeta.
    rewrite Hkw. cbn [negb]. rewrite Hbuild. cbn [negb]. rewrite Hnet.
    reflexivity. }
  pose proof (check_keyword_ok _ _ Hkw) as [K1 K2].
  pose proof (@build_connect_ok p1 p2 Hbuild) as [B1 B2].
  cbn [Parser.print Parser.error_messages Parser.error_count] in K1, K2.
  assert (Parser.error_messages p3 =
          Parser.error_messages p ++
          [(UNCONNECTED_INPUTS_message, linenum (Parser.symbol p2),
            colnum (Parser.symbol p2))]) as Hm.
  { subst p3. unfold with_error. cbn [Parser.append_error
      Parser.incr_error_count Parser.error_messages]. congruence. }
  split; [exact Hcl | split; [exact Hm | split]].
  - subst p3. cbn. congruence.
  - rewrite Hcl. cbn [snd].
    rewrite check_end_count by (left; reflexivity).
    rewrite Hm, count_message_app. unfold count_message at 2. simpl. lia.
Qed.

Lemma no_eof_count (p : pstate) m :
  m = UNCONNECTED_INPUTS_message \/ m = NO_MONITOR_message ->
  count_message m
    (Parser.error_messages (Parser.error_ E NO_EOF false VNone p)) =
  count_message m (Parser.error_messages p).
Proof.
  intros Hm. unfold Parser.error_.
  destruct (error_message_shape NO_EOF false VNone p) as [rest ->].
  rewrite count_message_app.
  destruct Hm as [-> | ->]; unfold count_message; simpl; lia.
Qed.

(** Claim C8.  When the monitor list has been gone through with the
    semantic checks on and the dictionary of monitors is empty,
    [monitorlist] records one error "No monitor points chosen", at the
    current symbol and without skipping any symbol, and goes on: it looks
    for END, then for the end of the file.  Its error list has exactly one
    more entry with that message than after the list. *)
Theorem empty_monitor_list_reported_once :
  forall (p p1 : pstate),
    Parser.reached_eof p = false ->
    Parser.check_keyword E Scanner.MONITOR_LIST
      (Parser.print "Parsing monitor list..." p) = (true, p1) ->
    let p2 :=
      snd (Parser.build_list E Scanner.NAMES (Parser.monitor_method E) p1) in
    monitors_dictionary E (Parser.world p2) = false ->
    let p3 := with_error NO_MONITOR_message p2 in
    let p4 := Parser.check_end E false p3 in
    Parser.monitorlist E true p =
      (if Parser.id_is p4 Scanner.EOF then p4
       else Parser.error_ E NO_EOF false VNone p4) /\
    Parser.symbol p3 = Parser.symbol p2 /\
    Parser.scanner p3 = Parser.scanner p2 /\
    Parser.reached_eof p3 = Parser.reached_eof p2 /\
    Parser.error_count p3 = S (Parser.error_count p2) /\
    Parser.error_messages p3 =
      Parser.error_messages p2 ++
      [(NO_MONITOR_message, linenum (Parser.symbol p2),
        colnum (Parser.symbol p2))] /\
    count_message NO_MONITOR_message
      (Parser.error_messages (Parser.monitorlist E true p)) =
    S (count_message NO_MONITOR_message (Parser.error_messages p2)).
Proof.
  intros p p1 Heof Hkw p2 Hmon p3 p4.
  assert (Parser.monitorlist E true p =
          (if Parser.id_is p4 Scanner.EOF then p4
           else Parser.error_ E NO_EOF false VNone p4)) as Hml.
  { unfold Parser.monitorlist. rewrite Heof. cbv zeta.
    rewrite Hkw. cbn [negb]. fold p2. rewrite Hmon. cbn [negb].
    change (Parser.error_ E NO_MONITOR false VNone p2) with p3. fold p4.
    destruct (Parser.id_is p4 Scanner.EOF); reflexivity. }
  split; [exact Hml|]. do 5 (split; [reflexivity|]).
  rewrite Hml.
  assert (count_message NO_MONITOR_message (Parser.error_messages p4) =
          S (count_message NO_MONITOR_message (Parser.error_messages p2)))
    as Hc.
  { subst p4. rewrite check_end_count by (right; reflexivity).
    subst p3. unfold with_error.
    cbn [Parser.append_error Parser.incr_error_count Parser.error_messages].
    rewrite count_message_app. unfold count_message at 2. simpl. lia. }
  destruct (Parser.id_is p4 Scanner.EOF); [exact Hc|].
  rewrite no_eof_count by (right; reflexivity). exact Hc.
Qed.

End Lists.

(** ** The passes that only check the syntax *)

Section SyntaxOnly.

Variable World : Type.
Variables E E' : Env World.

Let pstate := Parser.t World.

(** The text of an error does not depend on the objects the parser is
    built on, the error of a refused property apart. *)
Lemma error_independent et adv v (p : pstate) :
  et <> INVALID_QUALIFIER ->
  Parser.error E et adv v p = Parser.error E' et adv v p.
Proof.
  intros Het. unfold Parser.error.
  replace (Parser.error_text E' p et v) with (Parser.error_text E p et v)
    by (destruct et; try reflexivity; contradiction).
  reflexivity.
Qed.

Lemma error__independent et adv v (p : pstate) :
  et <> INVALID_QUALIFIER ->
  Parser.error_ E et adv v p = Parser.error_ E' et adv v p.
Proof. intros H. unfold Parser.error_. now rewrite error_independent. Qed.

Ltac independent :=
  repeat rewrite (@error__independent _ _ _ _) by discriminate;
  reflexivity.

Lemma check_keyword_independent k (p : pstate) :
  Parser.check_keyword E k p = Parser.check_keyword E' k p.
Proof. unfold Parser.check_keyword. independent. Qed.

Lemma check_end_independent b (p : pstate) :
  Parser.check_end E b p = Parser.check_end E' b p.
Proof. unfold Parser.check_end. independent. Qed.

Lemma check_io_independent io (p : pstate) :
  Parser.check_io E io p = Parser.check_io E' io p.
Proof. unfold Parser.check_io. independent. Qed.

Lemma connect_syntax_independent (p : pstate) :
  Parser.connect_syntax E p = Parser.connect_syntax E' p.
Proof.
  unfold Parser.connect_syntax. rewrite check_io_independent.
  destruct (Parser.check_io E' Parser.OUTPUT p) as [ok p1].
  destruct (negb ok); [reflexivity|].
  destruct (Parser.type_is p1 Scanner.AR); [|independent].
  cbv zeta. destruct (Parser.type_is (Parser.next p1) Scanner.NAMES);
    [|independent].
  rewrite check_io_independent.
  destruct (Parser.check_io E' Parser.INPUT (Parser.next p1)) as [ok2 p3].
  destruct (negb ok2); [reflexivity|]. independent.
Qed.

Lemma monitor_syntax_independent (p : pstate) :
  Parser.monitor_syntax E p = Parser.monitor_syntax E' p.
Proof.
  unfold Parser.monitor_syntax. rewrite check_io_independent.
  destruct (Parser.check_io E' Parser.OUTPUT p) as [ok p1].
  destruct (negb ok); [reflexivity|]. independent.
Qed.

Lemma check_syntax_independent ty (m m' : pstate -> pstate) (p : pstate) :
  (forall q, m q = m' q) ->
  Parser.check_syntax E ty m p = Parser.check_syntax E' ty m' p.
Proof.
  intros Hm. unfold Parser.check_syntax.
  generalize (S (Scanner.measure (Parser.scanner p))). intros fuel.
  revert p. induction fuel as [|k IH]; intros p; simpl; [reflexivity|].
  destruct (Parser.list_goes_on p); [|reflexivity].
  destruct (Parser.type_is p ty); [rewrite Hm; apply IH|].
  destruct (_ || _); [independent|].
  rewrite (@error__independent _ _ _ _) by discriminate. apply IH.
Qed.

Lemma connectionlist_independent (p : pstate) :
  Parser.connectionlist E false p = Parser.connectionlist E' false p.
Proof.
  unfold Parser.connectionlist. rewrite check_keyword_independent.
  destruct (Parser.reached_eof p); [reflexivity|]. cbv zeta.
  destruct (Parser.check_keyword E' _ _) as [ok p1].
  destruct (negb ok); [reflexivity|].
  rewrite (@check_syntax_independent _ _ _ _ connect_syntax_independent).
  destruct (Parser.missing_end _); [reflexivity|].
  now rewrite check_end_independent.
Qed.

Lemma monitorlist_independent (p : pstate) :
  Parser.monitorlist E false p = Parser.monitorlist E' false p.
Proof.
  unfold Parser.monitorlist. rewrite check_keyword_independent.
  destruct (Parser.reached_eof p); [reflexivity|]. cbv zeta.
  destruct (Parser.check_keyword E' _ _) as [ok p1].
  destruct (negb ok); [reflexivity|].
  rewrite (@check_syntax_independent _ _ _ _ monitor_syntax_independent).
  rewrite check_end_independent. independent.
Qed.

(** *** The network is left as it is *)

Lemma world_next (p : pstate) : Parser.world (Parser.next p) = Parser.world p.
Proof. unfold Parser.next. destruct (Scanner.get_symbol _). reflexivity. Qed.

Lemma world_skip_to stop fuel (p : pstate) :
  Parser.world (Parser.skip_to stop fuel p) = Parser.world p.
Proof.
  revert p. induction fuel as [|k IH]; intros p; simpl.
  - destruct (py_in _ _); reflexivity.
  - destruct (py_in _ _); [reflexivity|]. rewrite IH. apply world_next.
Qed.

Lemma world_error et adv v (p : pstate) :
  Parser.world (Parser.error_ E et adv v p) = Parser.world p.
Proof.
  unfold Parser.error_, Parser.error. destruct adv; [|reflexivity].
  destruct (negb _); cbn [snd Parser.append_error Parser.world
                          Parser.set_reached_eof];
    rewrite ?world_next, world_skip_to; reflexivity.
Qed.

Lemma world_print s (p : pstate) :
  Parser.world (Parser.print s p) = Parser.world p.
Proof. reflexivity. Qed.

Lemma world_set_missing_end b (p : pstate) :
  Parser.world (Parser.set_missing_end b p) = Parser.world p.
Proof. reflexivity. Qed.

Hint Rewrite world_next world_error world_print world_set_missing_end
  : world.

Ltac world_solve :=
  repeat break_body; cbn [snd fst] in *; autorewrite with world in *;
  congruence.

Lemma world_check_keyword k (p : pstate) :
  Parser.world (snd (Parser.check_keyword E k p)) = Parser.world p.
Proof. unfold Parser.check_keyword. world_solve. Qed.

Lemma world_check_end b (p : pstate) :
  Parser.world (Parser.check_end E b p) = Parser.world p.
Proof. unfold Parser.check_end. world_solve. Qed.

Lemma world_check_io io (p : pstate) :
  Parser.world (snd (Parser.check_io E io p)) = Parser.world p.
Proof. unfold Parser.check_io. world_solve. Qed.

Hint Rewrite world_check_keyword world_check_end world_check_io : world.

Lemma world_of_eq A (f : pstate -> A * pstate) (p q : pstate) r :
  Parser.world (snd (f p)) = Parser.world p -> f p = (r, q) ->
  Parser.world q = Parser.world p.
Proof. intros H Heq. rewrite Heq in H. exact H. Qed.

Lemma world_connect_syntax (p : pstate) :
  Parser.world (Parser.connect_syntax E p) = Parser.world p.
Proof.
  unfold Parser.connect_syntax.
  destruct (Parser.check_io E Parser.OUTPUT p) as [ok p1] eqn:H1.
  apply world_of_eq in H1; [|apply world_check_io].
  destruct (negb ok); [exact H1|].
  destruct (Parser.type_is p1 Scanner.AR); [|world_solve]. cbv zeta.
  destruct (Parser.type_is (Parser.next p1) Scanner.NAMES); [|world_solve].
  destruct (Parser.check_io E Parser.INPUT (Parser.next p1)) as [ok2 p3]
    eqn:H3.
  apply world_of_eq in H3; [|apply world_check_io].
  world_solve.
Qed.

Lemma world_monitor_syntax (p : pstate) :
  Parser.world (Parser.monitor_syntax E p) = Parser.world p.
Proof.
  unfold Parser.monitor_syntax.
  destruct (Parser.check_io E Parser.OUTPUT p) as [ok p1] eqn:H1.
  apply world_of_eq in H1; [|apply world_check_io].
  world_solve.
Qed.

Lemma world_check_syntax ty (m : pstate -> pstate) (p : pstate) :
  (forall q, Parser.world (m q) = Parser.world q) ->
  Parser.world (Parser.check_syntax E ty m p) = Parser.world p.
Proof.
  intros Hm. unfold Parser.check_syntax.
  generalize (S (Scanner.measure (Parser.scanner p))). intros fuel.
  revert p. induction fuel as [|k IH]; intros p; simpl.
  - destruct (Parser.list_goes_on p); reflexivity.
  - destruct (Parser.list_goes_on p); [|reflexivity].
    destruct (Parser.type_is p ty); [rewrite IH; apply Hm|].
    destruct (_ || _); [world_solve|]. rewrite IH. apply world_error.
Qed.

Lemma world_connectionlist_syntax (p : pstate) :
  Parser.world (snd (Parser.connectionlist E false p)) = Parser.world p.
Proof.
  unfold Parser.connectionlist.
  destruct (Parser.reached_eof p); [reflexivity|]. cbv zeta.
  destruct (Parser.check_keyword E _ _) as [ok p1] eqn:H1.
  apply world_of_eq in H1; [|apply world_check_keyword].
  pose proof (@world_check_syntax Scanner.NAMES _ p1 world_connect_syntax)
    as H2.
  destruct (negb ok); [exact H1|]. world_solve.
Qed.

Lemma world_monitorlist_syntax (p : pstate) :
  Parser.world (Parser.monitorlist E false p) = Parser.world p.
Proof.
  unfold Parser.monitorlist.
  destruct (Parser.reached_eof p); [reflexivity|]. cbv zeta.
  destruct (Parser.check_keyword E _ _) as [ok p1] eqn:H1.
  apply world_of_eq in H1; [|apply world_check_keyword].
  pose proof (@world_check_syntax Scanner.NAMES _ p1 world_monitor_syntax)
    as H2.
  destruct (negb ok); [exact H1|]. world_solve.
Qed.

Lemma world_fold_print (f : string * nat * nat -> string) l (q : pstate) :
  Parser.world (fold_left (fun q e => Parser.print (f e) q) l q) =
  Parser.world q.
Proof.
  revert q. induction l as [|e l IH]; intros q; simpl;
    [reflexivity | now rewrite IH].
Qed.

Lemma world_error_report (p : pstate) :
  Parser.world (Parser.error_report p) = Parser.world p.
Proof. apply world_fold_print. Qed.

Hint Rewrite world_connectionlist_syntax world_monitorlist_syntax
  world_error_report : world.

Lemma printed_more_refl (p : pstate) : printed_more p p.
Proof. repeat split. Qed.

Lemma printed_more_fold (f : string * nat * nat -> string) l (p q : pstate) :
  printed_more p q ->
  printed_more p (fold_left (fun q e => Parser.print (f e) q) l q).
Proof.
  revert q. induction l as [|e l IH]; intros q H; simpl; [exact H|].
  apply IH. exact H.
Qed.

(** After the three sections [parse_network] only prints. *)
Lemma parse_network_end (p5 : pstate) s1 s2 (b : bool) :
  printed_more p5
    (snd (if b then (true, Parser.print s1 p5)
          else (false, Parser.error_report (Parser.print s2 p5)))).
Proof.
  destruct b; cbn [snd]; [repeat split|].
  unfold Parser.error_report.
  apply printed_more_fold. repeat split.
Qed.

(** Claim C1.  The passes [connectionlist(False)] and [monitorlist(False)]
    construct nothing: they leave the network as it is and are the same
    whatever objects the parser is built on, so none of [make_device],
    [make_connection] and [make_monitor] is called.  [parse_network] runs
    both after a device list that failed, and [monitorlist(False)] alone
    after a connection list that failed: but for what it prints, it ends
    as these passes end, with the network that the failed list left. *)
Theorem no_construction_after_failed_section :
  (forall p : pstate,
     Parser.world (snd (Parser.connectionlist E false p)) = Parser.world p /\
     Parser.world (Parser.monitorlist E false p) = Parser.world p /\
     Parser.connectionlist E false p = Parser.connectionlist E' false p /\
     Parser.monitorlist E false p = Parser.monitorlist E' false p) /\
  (forall (p p1 : pstate) r,
     Parser.devicelist E (Parser.next p) = (r, p1) ->
     Parser.truthy r = false ->
     printed_more
       (Parser.monitorlist E false
          (snd (Parser.connectionlist E false
                  (Parser.print
                     ("Errors encountered in device list. " ++
                      "Will now check for syntax errors in rest of file.")
                     p1))))
       (snd (Parser.parse_network E p)) /\
     Parser.world (snd (Parser.parse_network E p)) = Parser.world p1) /\
  (forall (p p1 p2 : pstate) r2,
     Parser.devicelist E (Parser.next p) = (Some true, p1) ->
     Parser.connectionlist E true p1 = (r2, p2) ->
     Parser.truthy r2 = false ->
     printed_more
       (Parser.monitorlist E false
          (Parser.print
             ("Errors encountered in connection list. " ++
              "Will now check for syntax errors in monitor list.")
             p2))
       (snd (Parser.parse_network E p)) /\
     Parser.world (snd (Parser.parse_network E p)) = Parser.world p2).
Proof.
  split; [|split].
  - intros p. split; [apply world_connectionlist_syntax|].
    split; [apply world_monitorlist_syntax|].
    split; [apply connectionlist_independent | apply monitorlist_independent].
  - intros p p1 r Hd Hr.
    assert (printed_more
              (Parser.monitorlist E false
                 (snd (Parser.connectionlist E false
                         (Parser.print
                            ("Errors encountered in device list. " ++
                             "Will now check for syntax errors in rest of file.")
                            p1))))
              (snd (Parser.parse_network E p))) as H.
    { unfold Parser.parse_network. cbv zeta. rewrite Hd, Hr. cbn [negb].
      apply parse_network_end. }
    split; [exact H|]. destruct H as [_ [-> _]].
    rewrite world_monitorlist_syntax, world_connectionlist_syntax.
    reflexivity.
  - intros p p1 p2 r2 Hd Hc Hr.
    assert (printed_more
              (Parser.monitorlist E false
                 (Parser.print
                    ("Errors encountered in connection list. " ++
                     "Will now check for syntax errors in monitor list.")
                    p2))
              (snd (Parser.parse_network E p))) as H.
    { unfold Parser.parse_network. cbv zeta. rewrite Hd. cbn [negb
        Parser.truthy]. rewrite Hc, Hr. cbn [negb]. apply parse_network_end. }
    split; [exact H|]. destruct H as [_ [-> _]].
    rewrite world_monitorlist_syntax. reflexivity.
Qed.

End SyntaxOnly.

(** ** The answer of parse_network *)

Section Answer.

Variable World : Type.
Variable E : Env World.

Let pstate := Parser.t World.

Lemma printed_fold (f : string * nat * nat -> string) l (q : pstate) :
  Parser.printed (fold_left (fun q e => Parser.print (f e) q) l q) =
  Parser.printed q ++ map f l.
Proof.
  revert q. induction l as [|e l IH]; intros q; simpl.
  - now rewrite app_nil_r.
  - rewrite IH. simpl. now rewrite <- app_assoc.
Qed.

Lemma report_entry_scanner (p q : pstate) e :
  Parser.scanner q = Parser.scanner p ->
  Parser.report_entry q e = Parser.report_entry p e.
Proof. intros H. unfold Parser.report_entry. now rewrite H. Qed.

Lemma error_report_printed (p : pstate) :
  let q := Parser.error_report p in
  Parser.printed q =
  Parser.printed p ++ map (Parser.report_entry q) (Parser.error_messages q).
Proof.
  intros q.
  pose proof (printed_more_fold (Parser.report_entry p)
                (Parser.error_messages p) (printed_more_refl p))
    as [Hs [_ [_ [_ [Hm _]]]]].
  fold (Parser.error_report p) in Hs, Hm. fold q in Hs, Hm.
  rewrite Hm. subst q. unfold Parser.error_report at 1.
  rewrite printed_fold. f_equal. apply map_ext. intros e.
  symmetry. apply report_entry_scanner. exact Hs.
Qed.

(** Claim C3.  [parse_network] runs the three sections and then only
    prints: its answer is [True] exactly when, after the sections, the
    current symbol is the end of the file and no error has been counted,
    and the parser it leaves is the one after the sections but for what
    was printed.  On [True] that is one line.  On [False] it is a heading
    with the number of errors and then one report for each entry
    (message, line, column) of the error list that the sections have
    accumulated, in the order of the list; a report gives the line, then
    what [print_line] shows for this line and column, then the message.
    Errors are entries of the list and the answer is a boolean. *)
Theorem parse_network_answer :
  forall p : pstate,
    let s := after_sections E p in
    let b := fst (Parser.parse_network E p) in
    let q := snd (Parser.parse_network E p) in
    (b = true <->
     sym_id (Parser.symbol s) = Some Scanner.EOF /\
     Parser.error_count s = 0) /\
    printed_more s q /\
    Parser.printed q =
      Parser.printed s ++
      (if b then ["Parsing complete."%string]
       else report_heading (Parser.error_count s) ::
            map (Parser.report_entry s) (Parser.error_messages s)) /\
    (forall msg l c,
       Parser.report_entry s (msg, l, c) =
       ("---------" ++ nl ++ "In line " ++ str l ++ ":" ++ nl ++
        Scanner.print_line (Parser.scanner s) l c ++ nl ++
        msg ++ "---------" ++ nl)%string).
Proof.
  intros p s b q.
  assert (forall p5 : pstate,
            let r :=
              if Parser.id_is p5 Scanner.EOF &&
                 Nat.eqb (Parser.error_count p5) 0
              then (true, Parser.print "Parsing complete." p5)
              else (false,
                    Parser.error_report
                      (Parser.print
                         (report_heading (Parser.error_count p5)) p5)) in
            (fst r = true <->
             sym_id (Parser.symbol p5) = Some Scanner.EOF /\
             Parser.error_count p5 = 0) /\
            printed_more p5 (snd r) /\
            Parser.printed (snd r) =
              Parser.printed p5 ++
              (if fst r then ["Parsing complete."%string]
               else report_heading (Parser.error_count p5) ::
                    map (Parser.report_entry p5)
                      (Parser.error_messages p5))) as Hend.
  { intros p5.
    assert (Parser.id_is p5 Scanner.EOF &&
            Nat.eqb (Parser.error_count p5) 0 = true <->
            sym_id (Parser.symbol p5) = Some Scanner.EOF /\
            Parser.error_count p5 = 0) as Hiff.
    { rewrite andb_true_iff, Nat.eqb_eq. unfold Parser.id_is, py_eq.
      destruct (sym_id (Parser.symbol p5)) as [n|].
      - rewrite Nat.eqb_eq. split; intros [H1 H2]; split; congruence.
      - split; intros [H1 H2]; discriminate. }
    cbv zeta.
    destruct (Parser.id_is p5 Scanner.EOF &&
              Nat.eqb (Parser.error_count p5) 0) eqn:Hb; cbn [fst snd].
    - split; [|split; [repeat split | reflexivity]].
      split; [intros _; apply Hiff; reflexivity | reflexivity].
    - split; [|split].
      + split; [discriminate|]. intros H. apply Hiff in H. discriminate H.
      + unfold Parser.error_report. apply printed_more_fold. repeat split.
      + set (p6 := Parser.print (report_heading (Parser.error_count p5)) p5).
        rewrite (error_report_printed p6).
        pose proof (printed_more_fold (Parser.report_entry p6)
                      (Parser.error_messages p6) (printed_more_refl p6))
          as [Hs [_ [_ [_ [Hm _]]]]].
        fold (Parser.error_report p6) in Hs, Hm. rewrite Hm.
        subst p6. cbn [Parser.print Parser.printed Parser.error_messages].
        rewrite <- app_assoc. cbn [app]. f_equal. f_equal.
        apply map_ext. intros e. apply report_entry_scanner.
        rewrite Hs. reflexivity. }
  split; [|split; [|split]].
  4:{ intros msg l c. unfold Parser.report_entry.
      rewrite !string_append_assoc. reflexivity. }
  all: subst s b q; unfold Parser.parse_network, after_sections; cbv zeta;
    destruct (Parser.devicelist E (Parser.next p)) as [r p1];
    match goal with
    | |- context [Parser.id_is ?x Scanner.EOF] =>
        destruct (Hend x) as [H1 [H2 H3]]
    end.
  - destruct (negb (Parser.truthy r)).
    + exact H1.
    + destruct (Parser.connectionlist E true p1) as [r2 p2].
      destruct (negb (Parser.truthy r2)); exact H1.
  - destruct (negb (Parser.truthy r)).
    + exact H2.
    + destruct (Parser.connectionlist E true p1) as [r2 p2].
      destruct (negb (Parser.truthy r2)); exact H2.
  - destruct (negb (Parser.truthy r)).
    + exact H3.
    + destruct (Parser.connectionlist E true p1) as [r2 p2].
      destruct (negb (Parser.truthy r2)); exact H3.
Qed.

End Answer.

(** ** References to outputs and inputs *)

Section References.

Variable World : Type.
Variable E : Env World.

Let pstate := Parser.t World.

Lemma error_entry et v (p : pstate) :
  exists rest,
    Parser.error_messages (Parser.error_ E et true v p) =
    Parser.error_messages p ++
    [(("***Error: " ++ Parser.error_text E p et v ++ rest)%string,
      linenum (Parser.symbol p), colnum (Parser.symbol p))].
Proof. apply (error_message_shape E et true v p). Qed.

Lemma error_messages_next (p : pstate) :
  Parser.error_messages (Parser.next p) = Parser.error_messages p.
Proof. apply same_errors_next. Qed.

(** Claim C4.  [get_io] on the name of a known device.  For an output, a
    period after the name is taken only when the device is a D_TYPE, and
    then the name of a pin has to follow; for a device of any other kind
    the period gives the error "Not expecting an identifier", recorded at
    the line and column of the period, and the reference is refused.  For
    an input the period has to be there: any other symbol after the name
    gives the syntax error that expects a period, and the reference is
    refused. *)
Theorem pin_suffix_rules :
  forall (p : pstate) kind,
    get_device E (Parser.world p) (sym_id (Parser.symbol p)) = Some kind ->
    let id := sym_id (Parser.symbol p) in
    let p1 := Parser.next p in
    let p2 := Parser.next p1 in
    (Nat.eqb kind (dev_D_TYPE E) = false ->
     Parser.type_is p1 Scanner.PE = true ->
     Parser.get_io E Parser.OUTPUT p =
       ((None, None), Parser.error_ E IDENTIFIER_PRESENT true VNone p1) /\
     exists rest,
       Parser.error_messages (snd (Parser.get_io E Parser.OUTPUT p)) =
       Parser.error_messages p ++
       [(("***Error: Not expecting an identifier." ++ rest)%string,
         linenum (Parser.symbol p1), colnum (Parser.symbol p1))]) /\
    (Nat.eqb kind (dev_D_TYPE E) = false ->
     Parser.type_is p1 Scanner.PE = false ->
     Parser.get_io E Parser.OUTPUT p = ((id, None), p1)) /\
    (Nat.eqb kind (dev_D_TYPE E) = true ->
     Parser.type_is p1 Scanner.PE = true ->
     Parser.type_is p2 Scanner.NAMES = true ->
     Parser.get_io E Parser.OUTPUT p =
       ((id, sym_id (Parser.symbol p2)), Parser.next p2)) /\
    (Nat.eqb kind (dev_D_TYPE E) = true ->
     Parser.type_is p1 Scanner.PE = false ->
     Parser.get_io E Parser.OUTPUT p =
       ((None, None),
        Parser.error_ E SYNTAX true (VId (Some Scanner.PERIOD)) p1)) /\
    (Parser.type_is p1 Scanner.PE = false ->
     Parser.get_io E Parser.INPUT p =
       ((None, None),
        Parser.error_ E SYNTAX true (VId (Some Scanner.PERIOD)) p1) /\
     exists rest,
       Parser.error_messages (snd (Parser.get_io E Parser.INPUT p)) =
       Parser.error_messages p ++
       [(("***Error: Expected a '" ++
          Parser.name_string p1 (Some Scanner.PERIOD) ++ "'." ++ rest)%string,
         linenum (Parser.symbol p1), colnum (Parser.symbol p1))]) /\
    (Parser.type_is p1 Scanner.PE = true ->
     Parser.type_is p2 Scanner.NAMES = true ->
     Parser.get_io E Parser.INPUT p =
       ((id, sym_id (Parser.symbol p2)), Parser.next p2)).
Proof.
  intros p kind Hdev id p1 p2.
  assert (forall io,
            Parser.get_io E io p =
            (let expect_identifier :=
               Nat.eqb io Parser.INPUT || Nat.eqb kind (dev_D_TYPE E) in
             if Parser.type_is p1 Scanner.PE then
               if expect_identifier then
                 if Parser.type_is p2 Scanner.NAMES
                 then ((id, sym_id (Parser.symbol p2)), Parser.next p2)
                 else ((None, None),
                       Parser.error_ E NO_IDENTIFIER true VNone p2)
               else ((None, None),
                     Parser.error_ E IDENTIFIER_PRESENT true VNone p1)
             else if expect_identifier then
               ((None, None),
                Parser.error_ E SYNTAX true (VId (Some Scanner.PERIOD)) p1)
             else ((id, None), p1))) as Hio.
  { intros io. unfold Parser.get_io. rewrite Hdev. reflexivity. }
  split; [|split; [|split; [|split; [|split]]]].
  - intros Hk Hpe.
    assert (Parser.get_io E Parser.OUTPUT p =
            ((None, None), Parser.error_ E IDENTIFIER_PRESENT true VNone p1))
      as Heq by (rewrite Hio; cbv zeta; rewrite Hpe, Hk; reflexivity).
    split; [exact Heq|]. rewrite Heq. cbn [snd].
    destruct (error_entry IDENTIFIER_PRESENT VNone p1) as [rest Hr].
    exists rest. rewrite Hr. subst p1. rewrite error_messages_next.
    reflexivity.
  - intros Hk Hpe. rewrite Hio. cbv zeta. rewrite Hpe, Hk. reflexivity.
  - intros Hk Hpe Hn. rewrite Hio. cbv zeta. rewrite Hpe, Hk, Hn.
    reflexivity.
  - intros Hk Hpe. rewrite Hio. cbv zeta. rewrite Hpe, Hk. reflexivity.
  - intros Hpe.
    assert (Parser.get_io E Parser.INPUT p =
            ((None, None),
             Parser.error_ E SYNTAX true (VId (Some Scanner.PERIOD)) p1))
      as Heq by (rewrite Hio; cbv zeta; rewrite Hpe; reflexivity).
    split; [exact Heq|]. rewrite Heq. cbn [snd].
    destruct (error_entry SYNTAX (VId (Some Scanner.PERIOD)) p1)
      as [rest Hr].
    exists rest. rewrite Hr. subst p1. rewrite error_messages_next.
    cbn [Parser.error_text Parser.vararg_name].
    rewrite !string_append_assoc. reflexivity.
  - intros Hpe Hn. rewrite Hio. cbv zeta. rewrite Hpe, Hn. reflexivity.
Qed.

End References.

(** ** Comments *)

(** Claim C9, as the scanner has it.  A block comment that is closed by
    [*/] after a space is skipped and END is the next symbol, and so are
    comments that follow one another; but when the closing [*/] comes
    right after another star, as in [**/], the scanner reads the second
    star as the character after the first and does not see the end of the
    comment: the text up to the end of the file is taken as comment and
    END is never given. *)
Theorem double_star_does_not_close_comment :
  first_symbol plain_comment_example =
    mkSymbol (Some Scanner.KEYWORDS) (Some Scanner.END) 1 9 /\
  first_symbol adjacent_comments_example =
    mkSymbol (Some Scanner.KEYWORDS) (Some Scanner.END) 3 5 /\
  first_symbol double_star_comment_example =
    mkSymbol None (Some Scanner.EOF) 1 12.
Proof. repeat split; vm_compute; reflexivity. Qed.

(** ** Pins are names *)

Lemma digit_not_space c : isdigit c = true -> isspace c = false.
Proof.
  unfold isdigit, isspace. cbv zeta. intros H.
  apply andb_true_iff in H. destruct H as [H1 H2].
  apply Nat.leb_le in H1.
  destruct (nat_of_ascii c <=? 13) eqn:A; [apply Nat.leb_le in A; lia|].
  destruct (nat_of_ascii c <=? 32) eqn:B; [apply Nat.leb_le in B; lia|].
  now rewrite !andb_false_r.
Qed.

Lemma digit_not_slash c : isdigit c = true -> Ascii.eqb c "/" = false.
Proof.
  intros H. destruct (Ascii.eqb c "/") eqn:Heq; [|reflexivity].
  apply Ascii.eqb_eq in Heq. subst c. discriminate H.
Qed.

(** A symbol that begins with a digit is a NUMBER. *)
Lemma digit_starts_number s c :
  Scanner.current_char s = Some c -> isdigit c = true ->
  sym_type (fst (Scanner.get_symbol s)) = Some Scanner.NUMBER.
Proof.
  intros Hc Hd. unfold Scanner.get_symbol. rewrite Hc.
  rewrite (digit_not_space c Hd).
  assert (Scanner.comment_check s = s) as ->.
  { unfold Scanner.comment_check. rewrite comment_check_rec_S, Hc.
    cbn [char_is]. now rewrite (digit_not_slash c Hd). }
  rewrite Hc, Hd.
  destruct (Scanner.read_number _ _ s) as [w s3].
  destruct (Names.lookup1 _ w). reflexivity.
Qed.


(** ** The loops of the parser are given enough rounds *)

Create HintDb later.

Section Progress.

Variable World : Type.
Variable E : Env World.

Let pstate := Parser.t World.

Lemma later_refl (p : pstate) : later p p.
Proof. split; [lia | auto]. Qed.

Lemma later_trans (p q r : pstate) : later p q -> later q r -> later p r.
Proof. intros [H1 H2] [H3 H4]. split; [lia | auto]. Qed.

Lemma ahead_later (p q r : pstate) : ahead p q -> later q r -> ahead p r.
Proof.
  intros [H | [H1 H2]] [H3 H4]; [left; lia | right; split; [auto | lia]].
Qed.

Lemma later_ahead (p q r : pstate) : later p q -> ahead q r -> ahead p r.
Proof.
  intros [H1 H2] [H | [H3 H4]]; [left; lia | right; split; [auto | lia]].
Qed.

Lemma ahead_weaken (p q : pstate) :
  ahead p q -> pmeasure q <= pmeasure p.
Proof. intros [H | [_ H]]; lia. Qed.

Lemma later_next (p : pstate) : later p (Parser.next p).
Proof.
  split; [apply ahead_weaken, next_ahead|].
  intros [H1 H2]. unfold at_end, Parser.next.
  rewrite (get_symbol_at_end _ H1). split; [exact H1 | reflexivity].
Qed.

(** An update that leaves the symbol and the characters alone. *)
Lemma later_same (p q : pstate) :
  Parser.symbol q = Parser.symbol p ->
  Scanner.measure (Parser.scanner q) = Scanner.measure (Parser.scanner p) ->
  Scanner.current_char (Parser.scanner q) =
    Scanner.current_char (Parser.scanner p) ->
  later p q.
Proof.
  intros H1 H2 H3. unfold later, at_end, pmeasure.
  rewrite H1, H2, H3. split; [lia | auto].
Qed.

Lemma later_step (f : pstate -> pstate) (p q : pstate) :
  (forall r, later r (f r)) -> later p q -> later p (f q).
Proof. intros Hf H. eapply later_trans; [exact H | apply Hf]. Qed.

Lemma later_of_eq A (f : pstate -> A * pstate) (p : pstate) r (q : pstate) :
  later p (snd (f p)) -> f p = (r, q) -> later p q.
Proof. intros H Heq. rewrite Heq in H. exact H. Qed.

Lemma later_skip_to stop fuel (p : pstate) :
  later p (Parser.skip_to stop fuel p).
Proof.
  revert p. induction fuel as [|k IH]; intros p; simpl.
  - destruct (py_in _ _); apply later_refl.
  - destruct (py_in _ _); [apply later_refl|].
    eapply later_trans; [apply later_next | apply IH].
Qed.

Lemma skip_to_same_or_ahead stop fuel (p : pstate) :
  Parser.skip_to stop fuel p = p \/ ahead p (Parser.skip_to stop fuel p).
Proof.
  destruct fuel as [|k]; simpl.
  - left. destruct (py_in _ _); reflexivity.
  - destruct (py_in _ _); [left; reflexivity|]. right.
    eapply ahead_later; [apply next_ahead | apply later_skip_to].
Qed.

Lemma later_error et adv v (p : pstate) :
  later p (Parser.error_ E et adv v p).
Proof.
  unfold Parser.error_, Parser.error. destruct adv.
  - set (q := Parser.skip_to _ _ _).
    assert (later p q) as Hq.
    { eapply later_trans; [|apply later_skip_to].
      apply later_same; reflexivity. }
    destruct (negb _); cbn [snd].
    + eapply later_trans; [|apply later_same; reflexivity].
      eapply later_trans; [exact Hq | apply later_next].
    + eapply later_trans; [exact Hq | apply later_same; reflexivity].
  - apply later_same; reflexivity.
Qed.

(** An error that asks for recovery, on a symbol that is not the end of
    the file, takes at least that symbol. *)
Lemma ahead_error et v (p : pstate) :
  Parser.id_is p Scanner.EOF = false ->
  ahead p (Parser.error_ E et true v p).
Proof.
  intros Hid. unfold Parser.error_, Parser.error.
  set (p0 := Parser.incr_error_count p).
  assert (later p p0) as H0 by (apply later_same; reflexivity).
  set (q := Parser.skip_to _ _ p0).
  destruct (Parser.id_is q Scanner.EOF) eqn:Hq; cbn [negb snd].
  - destruct (skip_to_same_or_ahead (Parser.stopping_symbol et)
                (S (Scanner.measure (Parser.scanner p0))) p0) as [H | H];
      fold q in H.
    + rewrite H in Hq. unfold Parser.id_is in *. cbn in Hq. congruence.
    + eapply later_ahead; [exact H0|].
      eapply ahead_later; [exact H | apply later_same; reflexivity].
  - eapply later_ahead; [exact H0|].
    eapply later_ahead; [apply later_skip_to|]. fold q.
    eapply ahead_later; [apply next_ahead | apply later_same; reflexivity].
Qed.

Lemma later_field (f : pstate -> pstate) :
  (forall r, Parser.symbol (f r) = Parser.symbol r) ->
  (forall r, Scanner.measure (Parser.scanner (f r)) =
             Scanner.measure (Parser.scanner r)) ->
  (forall r, Scanner.current_char (Parser.scanner (f r)) =
             Scanner.current_char (Parser.scanner r)) ->
  forall r, later r (f r).
Proof. intros H1 H2 H3 r. apply later_same; auto. Qed.

(** [later p q] along the calls that lead from [p] to [q]. *)
Ltac later_chain :=
  cbn [snd fst];
  lazymatch goal with
  | |- later ?p ?p => apply later_refl
  | H : later ?p ?q |- later ?p ?q => exact H
  | |- later ?p (Parser.next ?q) =>
      apply (later_step (@Parser.next _)); [apply later_next | later_chain]
  | |- later ?p (Parser.error_ ?E ?et ?a ?v ?q) =>
      apply (later_step (Parser.error_ E et a v));
      [apply later_error | later_chain]
  | |- later ?p (Parser.print ?s ?q) =>
      apply (later_step (Parser.print s));
      [apply later_field; reflexivity | later_chain]
  | |- later ?p (Parser.set_world ?w ?q) =>
      apply (later_step (Parser.set_world w));
      [apply later_field; reflexivity | later_chain]
  | |- later ?p (Parser.set_names ?w ?q) =>
      apply (later_step (Parser.set_names w));
      [apply later_field; reflexivity | later_chain]
  | |- later ?p (Parser.set_missing_end ?b ?q) =>
      apply (later_step (Parser.set_missing_end b));
      [apply later_field; reflexivity | later_chain]
  | |- later ?p (snd (?f ?q)) =>
      apply later_trans with q; [later_chain | solve [auto with later]]
  | |- later ?p (?f ?q) =>
      apply (later_step f); [solve [auto with later] | later_chain]
  | H : ?f ?r = (_, ?q) |- later ?p ?q =>
      apply later_trans with r;
      [later_chain
      | eapply (@later_of_eq _ f r _ q); [solve [auto with later] | exact H]]
  end.

Ltac later_body := repeat break_body; cbv beta iota zeta; later_chain.

Lemma later_check_keyword k (p : pstate) :
  later p (snd (Parser.check_keyword E k p)).
Proof. unfold Parser.check_keyword. later_body. Qed.

Lemma later_check_end b (p : pstate) : later p (Parser.check_end E b p).
Proof. unfold Parser.check_end. later_body. Qed.

Lemma later_get_io io (p : pstate) : later p (snd (Parser.get_io E io p)).
Proof. unfold Parser.get_io. later_body. Qed.

Lemma later_check_io io (p : pstate) :
  later p (snd (Parser.check_io E io p)).
Proof. unfold Parser.check_io. later_body. Qed.

Hint Resolve later_check_keyword later_check_end later_get_io
  later_check_io : later.

Lemma later_device (p : pstate) : later p (snd (Parser.device E p)).
Proof. unfold Parser.device. later_body. Qed.

Lemma later_connect (p : pstate) : later p (snd (Parser.connect E p)).
Proof. unfold Parser.connect. later_body. Qed.

Lemma later_connect_syntax (p : pstate) : later p (Parser.connect_syntax E p).
Proof. unfold Parser.connect_syntax. later_body. Qed.

Lemma later_monitor (p : pstate) : later p (Parser.monitor E p).
Proof. unfold Parser.monitor. later_body. Qed.

Lemma later_monitor_syntax (p : pstate) : later p (Parser.monitor_syntax E p).
Proof. unfold Parser.monitor_syntax. later_body. Qed.

Hint Resolve later_device later_connect later_connect_syntax later_monitor
  later_monitor_syntax : later.

(** *** Every item takes a symbol *)

Ltac ahead_body :=
  repeat break_body; cbv beta iota zeta; cbn [snd fst];
  first
    [ apply ahead_error; assumption
    | eapply ahead_later; [apply next_ahead | later_chain] ].

Lemma ahead_of_eq A (f : pstate -> A * pstate) (p : pstate) r (q : pstate) :
  ahead p (snd (f p)) -> f p = (r, q) -> ahead p q.
Proof. intros H Heq. rewrite Heq in H. exact H. Qed.

Lemma ahead_get_io io (p : pstate) :
  Parser.id_is p Scanner.EOF = false ->
  ahead p (snd (Parser.get_io E io p)).
Proof. intros Hid. unfold Parser.get_io. ahead_body. Qed.

Lemma ahead_check_io io (p : pstate) :
  ahead p (snd (Parser.check_io E io p)).
Proof. unfold Parser.check_io. ahead_body. Qed.

Lemma ahead_device (p : pstate) :
  Parser.id_is p Scanner.EOF = false ->
  ahead p (snd (Parser.device E p)).
Proof. intros Hid. unfold Parser.device. ahead_body. Qed.

Lemma ahead_connect (p : pstate) :
  Parser.id_is p Scanner.EOF = false ->
  ahead p (snd (Parser.connect E p)).
Proof.
  intros Hid. unfold Parser.connect.
  destruct (Parser.get_io E Parser.OUTPUT p) as [out p1] eqn:H1.
  pose proof (@ahead_of_eq _ _ _ _ _ (@ahead_get_io Parser.OUTPUT p Hid) H1)
    as A.
  eapply ahead_later; [exact A | later_body].
Qed.

Lemma ahead_monitor (p : pstate) :
  Parser.id_is p Scanner.EOF = false ->
  ahead p (Parser.monitor E p).
Proof.
  intros Hid. unfold Parser.monitor.
  destruct (Parser.get_io E Parser.OUTPUT p) as [out p1] eqn:H1.
  pose proof (@ahead_of_eq _ _ _ _ _ (@ahead_get_io Parser.OUTPUT p Hid) H1)
    as A.
  eapply ahead_later; [exact A | later_body].
Qed.

Lemma ahead_connect_syntax (p : pstate) :
  ahead p (Parser.connect_syntax E p).
Proof.
  unfold Parser.connect_syntax.
  destruct (Parser.check_io E Parser.OUTPUT p) as [ok p1] eqn:H1.
  pose proof (@ahead_of_eq _ _ _ _ _ (@ahead_check_io Parser.OUTPUT p) H1) as A.
  eapply ahead_later; [exact A | later_body].
Qed.

Lemma ahead_monitor_syntax (p : pstate) :
  ahead p (Parser.monitor_syntax E p).
Proof.
  unfold Parser.monitor_syntax.
  destruct (Parser.check_io E Parser.OUTPUT p) as [ok p1] eqn:H1.
  pose proof (@ahead_of_eq _ _ _ _ _ (@ahead_check_io Parser.OUTPUT p) H1) as A.
  eapply ahead_later; [exact A | later_body].
Qed.

(** *** The loops of the lists *)

Lemma list_goes_on_not_eof (p : pstate) :
  Parser.list_goes_on p = true -> Parser.id_is p Scanner.EOF = false.
Proof.
  unfold Parser.list_goes_on. intros H. apply andb_true_iff in H.
  destruct H as [_ H]. now apply negb_true_iff in H.
Qed.

Lemma at_end_stops (p : pstate) : at_end p -> Parser.list_goes_on p = false.
Proof.
  intros [_ H]. unfold Parser.list_goes_on, Parser.id_is. rewrite H.
  reflexivity.
Qed.

Lemma build_list_loop_stop ty (m : pstate -> bool * pstate) n ok (p : pstate) :
  Parser.list_goes_on p = false ->
  Parser.build_list_loop E ty m n ok p = (ok, p).
Proof. intros H. destruct n; simpl; rewrite H; reflexivity. Qed.

Lemma check_syntax_loop_stop ty (m : pstate -> pstate) n (p : pstate) :
  Parser.list_goes_on p = false ->
  Parser.check_syntax_loop E ty m n p = p.
Proof. intros H. destruct n; simpl; rewrite H; reflexivity. Qed.

(** With more rounds than the scanner has characters left, the loop of
    [build_list] does not depend on the number of rounds, and it ends as
    the [while] does: on END, on the end of the file, or by the [break]
    that sets [missing_end]. *)
Lemma build_list_loop_fuel ty (m : pstate -> bool * pstate) :
  (forall q, Parser.id_is q Scanner.EOF = false -> ahead q (snd (m q))) ->
  forall n n' ok (p : pstate),
    pmeasure p < n -> pmeasure p < n' ->
    Parser.build_list_loop E ty m n ok p =
    Parser.build_list_loop E ty m n' ok p.
Proof.
  intros Hm. induction n as [|k IH]; intros n' ok p Hn Hn'; [lia|].
  destruct n' as [|k']; [lia|]. simpl.
  destruct (Parser.list_goes_on p) eqn:Hgo; [|reflexivity].
  pose proof (list_goes_on_not_eof p Hgo) as Hid.
  assert (forall b (q : pstate), ahead p q ->
            Parser.build_list_loop E ty m k b q =
            Parser.build_list_loop E ty m k' b q) as Hnext.
  { intros b q [Hlt | [Hend _]].
    - apply IH; lia.
    - rewrite !build_list_loop_stop by (apply at_end_stops, Hend).
      reflexivity. }
  destruct (Parser.type_is p ty).
  - pose proof (Hm p Hid) as A. destruct (m p) as [r q]. apply Hnext, A.
  - destruct (_ || _); [reflexivity|]. apply Hnext, ahead_error, Hid.
Qed.

Lemma build_list_loop_exit ty (m : pstate -> bool * pstate) :
  (forall q, Parser.id_is q Scanner.EOF = false -> ahead q (snd (m q))) ->
  forall n ok (p : pstate),
    pmeasure p < n ->
    let r := snd (Parser.build_list_loop E ty m n ok p) in
    Parser.list_goes_on r = false \/ Parser.missing_end r = true.
Proof.
  intros Hm. induction n as [|k IH]; intros ok p Hn; [lia|].
  simpl. destruct (Parser.list_goes_on p) eqn:Hgo; [|left; exact Hgo].
  pose proof (list_goes_on_not_eof p Hgo) as Hid.
  assert (forall b (q : pstate), ahead p q ->
            let r := snd (Parser.build_list_loop E ty m k b q) in
            Parser.list_goes_on r = false \/ Parser.missing_end r = true)
    as Hnext.
  { intros b q [Hlt | [Hend _]].
    - apply IH. lia.
    - rewrite build_list_loop_stop by (apply at_end_stops, Hend).
      left. apply at_end_stops, Hend. }
  destruct (Parser.type_is p ty).
  - pose proof (Hm p Hid) as A. destruct (m p) as [r q]. apply Hnext, A.
  - destruct (_ || _); [right; reflexivity|]. apply Hnext, ahead_error, Hid.
Qed.

Lemma check_syntax_loop_fuel ty (m : pstate -> pstate) :
  (forall q, ahead q (m q)) ->
  forall n n' (p : pstate),
    pmeasure p < n -> pmeasure p < n' ->
    Parser.check_syntax_loop E ty m n p =
    Parser.check_syntax_loop E ty m n' p.
Proof.
  intros Hm. induction n as [|k IH]; intros n' p Hn Hn'; [lia|].
  destruct n' as [|k']; [lia|]. simpl.
  destruct (Parser.list_goes_on p) eqn:Hgo; [|reflexivity].
  pose proof (list_goes_on_not_eof p Hgo) as Hid.
  assert (forall q : pstate, ahead p q ->
            Parser.check_syntax_loop E ty m k q =
            Parser.check_syntax_loop E ty m k' q) as Hnext.
  { intros q [Hlt | [Hend _]].
    - apply IH; lia.
    - rewrite !check_syntax_loop_stop by (apply at_end_stops, Hend).
      reflexivity. }
  destruct (Parser.type_is p ty); [apply Hnext, Hm|].
  destruct (_ || _); [reflexivity|]. apply Hnext, ahead_error, Hid.
Qed.

Lemma check_syntax_loop_exit ty (m : pstate -> pstate) :
  (forall q, ahead q (m q)) ->
  forall n (p : pstate),
    pmeasure p < n ->
    let r := Parser.check_syntax_loop E ty m n p in
    Parser.list_goes_on r = false \/ Parser.missing_end r = true.
Proof.
  intros Hm. induction n as [|k IH]; intros p Hn; [lia|].
  simpl. destruct (Parser.list_goes_on p) eqn:Hgo; [|left; exact Hgo].
  pose proof (list_goes_on_not_eof p Hgo) as Hid.
  assert (forall q : pstate, ahead p q ->
            let r := Parser.check_syntax_loop E ty m k q in
            Parser.list_goes_on r = false \/ Parser.missing_end r = true)
    as Hnext.
  { intros q [Hlt | [Hend _]].
    - apply IH. lia.
    - rewrite check_syntax_loop_stop by (apply at_end_stops, Hend).
      left. apply at_end_stops, Hend. }
  destruct (Parser.type_is p ty); [apply Hnext, Hm|].
  destruct (_ || _); [right; reflexivity|]. apply Hnext, ahead_error, Hid.
Qed.

Lemma ahead_build_method m (q : pstate) :
  Parser.id_is q Scanner.EOF = false ->
  ahead q (snd (build_method_of E m q)).
Proof.
  intros H. destruct m; simpl;
    [apply ahead_device | apply ahead_connect | apply ahead_monitor]; exact H.
Qed.

Lemma ahead_syntax_method m (q : pstate) : ahead q (syntax_method_of E m q).
Proof.
  destruct m; [apply ahead_connect_syntax | apply ahead_monitor_syntax].
Qed.

(** The bounds that [skip_to], [build_list] and [check_syntax] are given
    are enough for the methods of the parser: the loop of [error] ends on
    a stopping symbol, the two others end as their [while] does, and more
    rounds would give the same result. *)
Theorem parser_loops_are_bounded :
  forall (p : pstate) ty more,
    (forall et,
       py_in
         (sym_id (Parser.symbol
            (Parser.skip_to (Parser.stopping_symbol et)
               (S (pmeasure p)) p)))
         (Parser.stopping_symbol et) = true) /\
    (forall m,
       Parser.build_list_loop E ty (build_method_of E m)
         (S (pmeasure p) + more) true p =
       Parser.build_list E ty (build_method_of E m) p /\
       (Parser.list_goes_on
          (snd (Parser.build_list E ty (build_method_of E m) p)) = false \/
        Parser.missing_end
          (snd (Parser.build_list E ty (build_method_of E m) p)) = true)) /\
    (forall m,
       Parser.check_syntax_loop E ty (syntax_method_of E m)
         (S (pmeasure p) + more) p =
       Parser.check_syntax E ty (syntax_method_of E m) p /\
       (Parser.list_goes_on
          (Parser.check_syntax E ty (syntax_method_of E m) p) = false \/
        Parser.missing_end
          (Parser.check_syntax E ty (syntax_method_of E m) p) = true)).
Proof.
  intros p ty more. split; [|split].
  - intros et. apply skip_to_lands; [apply stopping_symbol_EOF | lia].
  - intros m. split.
    + apply build_list_loop_fuel; [apply ahead_build_method | lia | ].
      unfold pmeasure. lia.
    + apply (build_list_loop_exit ty (build_method_of E m)
               (ahead_build_method m)).
      unfold pmeasure. lia.
  - intros m. split.
    + apply check_syntax_loop_fuel; [apply ahead_syntax_method | lia | ].
      unfold pmeasure. lia.
    + apply (check_syntax_loop_exit ty (syntax_method_of E m)
               (ahead_syntax_method m)).
      unfold pmeasure. lia.
Qed.

End Progress.

(** ** The sections and a missing END *)

Section MissingEnd.

Variable World : Type.
Variable E : Env World.

Let pstate := Parser.t World.

(** What the list methods do once [build_list] or [check_syntax] has set
    [missing_end]: [devicelist] and [connectionlist] take the flag back and
    answer [False] (or nothing) without a look for END. *)
Lemma missing_end_ends_section (p p1 p2 : pstate) :
  Parser.reached_eof p = false ->
  Parser.missing_end p2 = true ->
  (Parser.check_keyword E Scanner.DEVICE_LIST
     (Parser.print "Parsing device list..." p) = (true, p1) ->
   Parser.build_list E Scanner.DEVICETYPE (Parser.device E) p1 = (false, p2) ->
   Parser.devicelist E p = (Some false, Parser.set_missing_end false p2)) /\
  (Parser.check_keyword E Scanner.CONNECTION_LIST
     (Parser.print "Parsing connection list..." p) = (true, p1) ->
   Parser.build_list E Scanner.NAMES (Parser.connect E) p1 = (false, p2) ->
   Parser.connectionlist E true p =
     (Some false, Parser.set_missing_end false p2)) /\
  (Parser.check_keyword E Scanner.CONNECTION_LIST
     (Parser.print "Parsing connection list..." p) = (true, p1) ->
   Parser.check_syntax E Scanner.NAMES (Parser.connect_syntax E) p1 = p2 ->
   Parser.connectionlist E false p =
     (None, Parser.set_missing_end false p2)).
Proof.
  intros Heof Hme. repeat split.
  - intros Hkw Hb. unfold Parser.devicelist. rewrite Heof. cbv zeta.
    rewrite Hkw. cbn [negb]. rewrite Hb. cbn [negb]. rewrite Hme.
    reflexivity.
  - intros Hkw Hb. unfold Parser.connectionlist. rewrite Heof. cbv zeta.
    rewrite Hkw. cbn [negb]. rewrite Hb. cbn [negb]. rewrite Hme.
    reflexivity.
  - intros Hkw Hb. unfold Parser.connectionlist. rewrite Heof. cbv zeta.
    rewrite Hkw. cbn [negb]. rewrite Hb, Hme. reflexivity.
Qed.

End MissingEnd.

(** [monitorlist] has no such test: after the error of the list it looks
    for END at the symbol that is still there and records the error a
    second time, then the error of the file that does not end. *)
Lemma missing_end_in_monitor_list :
  map fst
    (map fst
       (Parser.error_messages
          (snd (Model.parse missing_end_in_monitors_example)))) =
  [END_ERROR_message; END_ERROR_message;
   plain_message "End of file not reached."] /\
  map snd
    (Parser.error_messages
       (snd (Model.parse missing_end_in_monitors_example))) = [1; 1; 1] /\
  map (fun e => snd (fst e))
    (Parser.error_messages
       (snd (Model.parse missing_end_in_monitors_example))) = [4; 4; 4].
Proof. repeat split; vm_compute; reflexivity. Qed.

(** ** The claims on definition files *)

Lemma no_construction_after_failed_section_witness :
  Parser.world
    (snd (Parser.parse_network Model.env
            (Model.parser_on refused_device_example))) = Model.empty /\
  Parser.world
    (snd (Parser.parse_network Model.env (Model.parser_on minimal_example))) =
  Parser.world
    (snd (Parser.connectionlist Model.env true
            (state_after [OpGetSymbol; OpDevicelist] minimal_example))).
Proof.
  pose proof (@no_construction_after_failed_section
                Model.world Model.env Model.env) as [_ [H2 H3]].
  split.
  - refine (proj2 (H2 (Model.parser_on refused_device_example)
                      (snd (Parser.devicelist Model.env
                              (Parser.next
                                 (Model.parser_on refused_device_example))))
                      (Some false) _ _)).
    + vm_compute. reflexivity.
    + reflexivity.
  - refine (proj2 (H3 (Model.parser_on minimal_example)
                      (state_after [OpGetSymbol; OpDevicelist]
                         minimal_example)
                      (snd (Parser.connectionlist Model.env true
                              (state_after [OpGetSymbol; OpDevicelist]
                                 minimal_example)))
                      (Some false) _ _ _)).
    + vm_compute. reflexivity.
    + vm_compute. reflexivity.
    + reflexivity.
Defined.

Lemma pin_suffix_rules_witness :
  exists rest,
    Parser.error_messages
      (snd (Parser.get_io Model.env Parser.OUTPUT
              (at_connections pin_on_switch_example))) =
    [(("***Error: Not expecting an identifier." ++ rest)%string, 2, 21)].
Proof.
  pose proof (@pin_suffix_rules Model.world Model.env
                (at_connections pin_on_switch_example) Scanner.SWITCH)
    as H.
  destruct (H ltac:(vm_compute; reflexivity)) as [Ha _].
  destruct (Ha ltac:(reflexivity) ltac:(vm_compute; reflexivity))
    as [_ [rest Hr]].
  exists rest. exact Hr.
Defined.

Lemma unconnected_inputs_reported_once_witness :
  count_message UNCONNECTED_INPUTS_message
    (Parser.error_messages
       (snd (Parser.connectionlist Model.env true
               (state_after [OpGetSymbol; OpDevicelist]
                  unwired_input_example)))) = 1.
Proof.
  set (p := state_after [OpGetSymbol; OpDevicelist] unwired_input_example).
  pose (p1 := snd (Parser.check_keyword Model.env Scanner.CONNECTION_LIST
                     (Parser.print "Parsing connection list..." p))).
  pose (p2 := snd (Parser.build_list Model.env Scanner.NAMES
                     (Parser.connect Model.env) p1)).
  assert (Parser.reached_eof p = false) as H1 by (vm_compute; reflexivity).
  assert (Parser.check_keyword Model.env Scanner.CONNECTION_LIST
            (Parser.print "Parsing connection list..." p) = (true, p1))
    as H2 by (vm_compute; reflexivity).
  assert (Parser.build_list Model.env Scanner.NAMES
            (Parser.connect Model.env) p1 = (true, p2))
    as H3 by (vm_compute; reflexivity).
  assert (check_network Model.env (Parser.world p2) = false)
    as H4 by (vm_compute; reflexivity).
  destruct (@unconnected_inputs_reported_once Model.world Model.env
              p p1 p2 H1 H2 H3 H4) as [_ [_ [_ H]]].
  rewrite H. vm_compute. reflexivity.
Defined.

Lemma empty_monitor_list_reported_once_witness :
  count_message NO_MONITOR_message
    (Parser.error_messages
       (Parser.monitorlist Model.env true
          (state_after
             [OpGetSymbol; OpDevicelist; OpConnectionlist true]
             no_monitor_example))) = 1.
Proof.
  set (p := state_after [OpGetSymbol; OpDevicelist; OpConnectionlist true]
              no_monitor_example).
  pose (p1 := snd (Parser.check_keyword Model.env Scanner.MONITOR_LIST
                     (Parser.print "Parsing monitor list..." p))).
  assert (Parser.reached_eof p = false) as H1 by (vm_compute; reflexivity).
  assert (Parser.check_keyword Model.env Scanner.MONITOR_LIST
            (Parser.print "Parsing monitor list..." p) = (true, p1))
    as H2 by (vm_compute; reflexivity).
  assert (monitors_dictionary Model.env
            (Parser.world
               (snd (Parser.build_list Model.env Scanner.NAMES
                       (Parser.monitor_method Model.env) p1))) = false)
    as H3 by (vm_compute; reflexivity).
  destruct (@empty_monitor_list_reported_once Model.world Model.env
              p p1 H1 H2 H3) as [_ [_ [_ [_ [_ [_ H]]]]]].
  rewrite H. vm_compute. reflexivity.
Defined.


(** ** Further properties of the parser *)

Section MoreOnErrors.

Variable World : Type.
Variable E : Env World.

Let pstate := Parser.t World.

(** No operation of the parser drops, changes or reorders an error that
    is recorded: the error list after any sequence of operations is the
    list before it, followed by the new entries, each of them counted. *)
Theorem errors_are_only_appended :
  forall ops (p : pstate),
    exists es,
      Parser.error_messages (run_all E ops p) =
        Parser.error_messages p ++ es /\
      Parser.error_count (run_all E ops p) =
        Parser.error_count p + length es.
Proof. intros ops p. apply grows_run_all. Qed.

Lemma py_in_true_In x l :
  py_in x l = true -> exists n, x = Some n /\ In n l.
Proof.
  destruct x as [n|]; [|discriminate]. simpl. intros H.
  apply existsb_exists in H. destruct H as [m [Hin Heq]].
  apply Nat.eqb_eq in Heq. subst m. exists n. auto.
Qed.

Lemma reached_eof_next (p : pstate) :
  Parser.reached_eof (Parser.next p) = Parser.reached_eof p.
Proof. unfold Parser.next. destruct (Scanner.get_symbol _). reflexivity. Qed.

Lemma reached_eof_skip_to stop fuel (p : pstate) :
  Parser.reached_eof (Parser.skip_to stop fuel p) = Parser.reached_eof p.
Proof.
  revert p. induction fuel as [|k IH]; intros p; simpl.
  - destruct (py_in _ _); reflexivity.
  - destruct (py_in _ _); [reflexivity|]. rewrite IH.
    apply reached_eof_next.
Qed.

(** What [error] returns: nothing when it is not to skip symbols, else the
    identifier of the symbol the skipping stopped on.  That symbol is the
    first one, from the current symbol on, whose identifier is in the
    stopping list of the error; [reached_eof] is set when it is the end of
    the file and is left as it was otherwise. *)
Theorem error_returns_stopping_symbol :
  forall et v (p : pstate),
    fst (Parser.error E et false v p) = None /\
    exists k id,
      let landed := after_symbols k (Parser.incr_error_count p) in
      none_stops (Parser.stopping_symbol et) k (Parser.incr_error_count p) /\
      sym_id (Parser.symbol landed) = Some id /\
      In id (Parser.stopping_symbol et) /\
      fst (Parser.error E et true v p) = Some id /\
      (exists msg,
         snd (Parser.error E et true v p) =
         Parser.append_error
           (msg, linenum (Parser.symbol p), colnum (Parser.symbol p))
           (if Nat.eqb id Scanner.EOF
            then Parser.set_reached_eof true landed
            else Parser.next landed)) /\
      Parser.reached_eof (snd (Parser.error E et true v p)) =
      (if Nat.eqb id Scanner.EOF then true else Parser.reached_eof p).
Proof.
  intros et v p. split; [reflexivity|].
  unfold Parser.error.
  set (p0 := Parser.incr_error_count p).
  pose proof (@skip_to_lands World (Parser.stopping_symbol et)
                (S (Scanner.measure (Parser.scanner p0))) p0
                (stopping_symbol_EOF et)
                (Nat.lt_succ_diag_r (pmeasure p0))) as Hland.
  pose proof (reached_eof_skip_to (Parser.stopping_symbol et)
                (S (Scanner.measure (Parser.scanner p0))) p0) as Hr.
  destruct (skip_to_after (Parser.stopping_symbol et)
              (S (Scanner.measure (Parser.scanner p0))) p0)
    as [k [Hk Hnone]].
  rewrite Hk in *.
  destruct (py_in_true_In _ _ Hland) as [id [Hid Hin]].
  exists k, id. cbv zeta. split; [exact Hnone|]. split; [exact Hid|].
  split; [exact Hin|].
  unfold Parser.id_is. rewrite Hid. cbn [py_eq].
  destruct (Nat.eqb id Scanner.EOF) eqn:Heq; cbn [negb fst snd].
  - split; [reflexivity|]. split; [eexists; reflexivity | reflexivity].
  - split; [reflexivity|]. split; [eexists; reflexivity|].
    cbn [Parser.append_error Parser.reached_eof].
    rewrite reached_eof_next. exact Hr.
Qed.

End MoreOnErrors.

(** ** What the answers of the parser's methods mean *)

Lemma typed_symbol_has_id s :
  sym_type (fst (Scanner.get_symbol s)) = None \/
  exists i, sym_id (fst (Scanner.get_symbol s)) = Some i.
Proof.
  unfold Scanner.get_symbol.
  destruct (Scanner.current_char s) as [c0|]; [|left; reflexivity].
  destruct (Scanner.current_char (Scanner.comment_check _)) as [c|];
    [|left; reflexivity].
  repeat match goal with
         | |- context [let '(_, _) := ?x in _] => destruct x
         | |- context [if ?b then _ else _] => destruct b
         end; cbn [fst sym_type sym_id]; eauto.
Qed.

Section Answers.

Variable World : Type.
Variable E : Env World.

Let pstate := Parser.t World.

Lemma count_le (p q : pstate) :
  grows p q -> Parser.error_count p <= Parser.error_count q.
Proof. intros [es [_ H]]. lia. Qed.

Lemma error_count_error et adv v (p : pstate) :
  Parser.error_count (Parser.error_ E et adv v p) = S (Parser.error_count p).
Proof.
  destruct (error_appends E et adv v p) as [msg [_ H]]. exact H.
Qed.

Lemma symbol_ok_next (p : pstate) : symbol_ok (Parser.next p).
Proof.
  unfold symbol_ok, Parser.next.
  pose proof (typed_symbol_has_id (Parser.scanner p)) as H.
  destruct (Scanner.get_symbol (Parser.scanner p)). exact H.
Qed.

Lemma symbol_ok_skip_to stop fuel (p : pstate) :
  symbol_ok p -> symbol_ok (Parser.skip_to stop fuel p).
Proof.
  revert p. induction fuel as [|k IH]; intros p H; simpl.
  - destruct (py_in _ _); exact H.
  - destruct (py_in _ _); [exact H|]. apply IH, symbol_ok_next.
Qed.

Lemma calm_refl (p : pstate) : calm p p.
Proof. split; [apply grows_refl | auto]. Qed.

Lemma calm_trans (p q r : pstate) : calm p q -> calm q r -> calm p r.
Proof.
  intros [G1 [R1 S1]] [G2 [R2 S2]].
  split; [eapply grows_trans; eauto | split; [|auto]].
  intros H. pose proof (count_le G1). pose proof (count_le G2).
  rewrite R2, R1; auto; lia.
Qed.

Lemma calm_same (p q : pstate) :
  Parser.error_messages q = Parser.error_messages p ->
  Parser.error_count q = Parser.error_count p ->
  Parser.reached_eof q = Parser.reached_eof p ->
  Parser.symbol q = Parser.symbol p ->
  calm p q.
Proof.
  intros H1 H2 H3 H4. split; [apply grows_same; assumption|].
  split; [auto|]. unfold symbol_ok. now rewrite H4.
Qed.

Lemma calm_next (p : pstate) : calm p (Parser.next p).
Proof.
  split; [apply grows_next|]. split.
  - intros _. apply reached_eof_next.
  - intros _. apply symbol_ok_next.
Qed.

Lemma calm_error et adv v (p : pstate) : calm p (Parser.error_ E et adv v p).
Proof.
  split; [apply grows_error|]. split.
  - rewrite error_count_error. lia.
  - intros H. unfold Parser.error_, Parser.error. destruct adv; [|exact H].
    destruct (negb _); cbn [snd].
    + apply symbol_ok_next.
    + cbn [Parser.append_error Parser.set_reached_eof].
      apply (@symbol_ok_skip_to _ _ (Parser.incr_error_count p)). exact H.
Qed.

Lemma calm_step (f : pstate -> pstate) (p q : pstate) :
  (forall r, calm r (f r)) -> calm p q -> calm p (f q).
Proof. intros Hf H. eapply calm_trans; [exact H | apply Hf]. Qed.

Lemma calm_of_eq A (f : pstate -> A * pstate) (p : pstate) r (q : pstate) :
  calm p (snd (f p)) -> f p = (r, q) -> calm p q.
Proof. intros H Heq. rewrite Heq in H. exact H. Qed.

Lemma calm_field (f : pstate -> pstate) :
  (forall r, Parser.error_messages (f r) = Parser.error_messages r) ->
  (forall r, Parser.error_count (f r) = Parser.error_count r) ->
  (forall r, Parser.reached_eof (f r) = Parser.reached_eof r) ->
  (forall r, Parser.symbol (f r) = Parser.symbol r) ->
  forall r, calm r (f r).
Proof. intros H1 H2 H3 H4 r. apply calm_same; auto. Qed.

Create HintDb calm.

(** [calm p q] along the calls that lead from [p] to [q]. *)
Ltac calm_chain :=
  cbn [snd fst];
  lazymatch goal with
  | |- calm ?p ?p => apply calm_refl
  | H : calm ?p ?q |- calm ?p ?q => exact H
  | |- calm ?p (Parser.next ?q) =>
      apply (calm_step (@Parser.next _)); [apply calm_next | calm_chain]
  | |- calm ?p (Parser.error_ ?E ?et ?a ?v ?q) =>
      apply (calm_step (Parser.error_ E et a v));
      [apply calm_error | calm_chain]
  | |- calm ?p (Parser.print ?s ?q) =>
      apply (calm_step (Parser.print s));
      [apply calm_field; reflexivity | calm_chain]
  | |- calm ?p (Parser.set_world ?w ?q) =>
      apply (calm_step (Parser.set_world w));
      [apply calm_field; reflexivity | calm_chain]
  | |- calm ?p (Parser.set_names ?w ?q) =>
      apply (calm_step (Parser.set_names w));
      [apply calm_field; reflexivity | calm_chain]
  | |- calm ?p (Parser.set_missing_end ?b ?q) =>
      apply (calm_step (Parser.set_missing_end b));
      [apply calm_field; reflexivity | calm_chain]
  | |- calm ?p (snd (?f ?q)) =>
      apply calm_trans with q; [calm_chain | solve [auto with calm]]
  | |- calm ?p (?f ?q) =>
      apply (calm_step f); [solve [auto with calm] | calm_chain]
  | H : ?f ?r = (_, ?q) |- calm ?p ?q =>
      apply calm_trans with r;
      [calm_chain
      | eapply (@calm_of_eq _ f r _ q); [solve [auto with calm] | exact H]]
  end.

Ltac calm_body := repeat break_body; cbv beta iota zeta; calm_chain.

Lemma calm_check_keyword k (p : pstate) :
  calm p (snd (Parser.check_keyword E k p)).
Proof. unfold Parser.check_keyword. calm_body. Qed.

Lemma calm_check_end b (p : pstate) : calm p (Parser.check_end E b p).
Proof. unfold Parser.check_end. calm_body. Qed.

Lemma calm_get_io io (p : pstate) : calm p (snd (Parser.get_io E io p)).
Proof. unfold Parser.get_io. calm_body. Qed.

Hint Resolve calm_check_keyword calm_check_end calm_get_io : calm.

Lemma calm_device (p : pstate) : calm p (snd (Parser.device E p)).
Proof. unfold Parser.device. calm_body. Qed.

Lemma calm_connect (p : pstate) : calm p (snd (Parser.connect E p)).
Proof. unfold Parser.connect. calm_body. Qed.

Lemma calm_monitor (p : pstate) : calm p (Parser.monitor E p).
Proof. unfold Parser.monitor. calm_body. Qed.

Lemma calm_monitor_method (p : pstate) :
  calm p (snd (Parser.monitor_method E p)).
Proof. apply calm_monitor. Qed.

Hint Resolve calm_device calm_connect calm_monitor calm_monitor_method
  : calm.

Lemma calm_build_list_loop ty (m : pstate -> bool * pstate) fuel :
  (forall q, calm q (snd (m q))) ->
  forall ok (p : pstate),
    calm p (snd (Parser.build_list_loop E ty m fuel ok p)).
Proof.
  intros Hm. induction fuel as [|k IH]; intros ok p; simpl.
  - destruct (Parser.list_goes_on p); apply calm_refl.
  - destruct (Parser.list_goes_on p); [|apply calm_refl].
    destruct (Parser.type_is p ty).
    + destruct (m p) as [r q] eqn:Hq.
      apply calm_trans with q; [|apply IH].
      eapply (@calm_of_eq _ m p r q); [apply Hm | exact Hq].
    + destruct (_ || _); cbn [snd].
      * calm_chain.
      * eapply calm_trans; [|apply IH]. apply calm_error.
Qed.

Lemma calm_build_device (p : pstate) :
  calm p (snd (Parser.build_list E Scanner.DEVICETYPE (Parser.device E) p)).
Proof. apply calm_build_list_loop, calm_device. Qed.

Lemma calm_build_connect (p : pstate) :
  calm p (snd (Parser.build_list E Scanner.NAMES (Parser.connect E) p)).
Proof. apply calm_build_list_loop, calm_connect. Qed.

Lemma calm_build_monitor (p : pstate) :
  calm p
    (snd (Parser.build_list E Scanner.NAMES (Parser.monitor_method E) p)).
Proof. apply calm_build_list_loop, calm_monitor_method. Qed.

Hint Resolve calm_build_device calm_build_connect calm_build_monitor : calm.

Lemma calm_devicelist (p : pstate) : calm p (snd (Parser.devicelist E p)).
Proof. unfold Parser.devicelist. calm_body. Qed.

Lemma calm_connectionlist (p : pstate) :
  calm p (snd (Parser.connectionlist E true p)).
Proof.
  unfold Parser.connectionlist.
  destruct (Parser.reached_eof p); [apply calm_refl|]. cbv zeta.
  destruct (Parser.check_keyword E _ _) as [ok p1] eqn:H1.
  destruct (negb ok); [calm_chain|]. cbv iota.
  destruct (Parser.build_list E _ _ p1) as [b p2] eqn:H2. calm_body.
Qed.

(** *** An answer [False] comes with an error *)

Lemma calm_count_le (p q : pstate) :
  calm p q -> Parser.error_count p <= Parser.error_count q.
Proof. intros [G _]. apply count_le, G. Qed.

Lemma error_after (p q : pstate) et adv v :
  calm p q ->
  Parser.error_count p < Parser.error_count (Parser.error_ E et adv v q).
Proof.
  intros H. rewrite error_count_error. apply calm_count_le in H. lia.
Qed.

(** A call that answered [False]: every branch that is left ends with an
    error. *)
Ltac failure_path H :=
  repeat break_in H; try discriminate H;
  injection H as <-; try subst;
  first [ apply error_after; calm_chain
        | eapply Nat.lt_le_trans;
          [apply error_after; calm_chain | apply calm_count_le; calm_chain] ].

Lemma check_keyword_fails k (p q : pstate) :
  Parser.check_keyword E k p = (false, q) ->
  Parser.error_count p < Parser.error_count q.
Proof. unfold Parser.check_keyword. intros H. failure_path H. Qed.

Lemma device_fails (p q : pstate) :
  Parser.device E p = (false, q) ->
  Parser.error_count p < Parser.error_count q.
Proof. unfold Parser.device. intros H. failure_path H. Qed.

Lemma get_io_fails io (p q : pstate) r i :
  sym_id (Parser.symbol p) = Some i ->
  Parser.get_io E io p = (r, q) -> Parser.is_none_pair r = true ->
  Parser.error_count p < Parser.error_count q.
Proof.
  unfold Parser.get_io. intros Hid H Hr.
  repeat break_in H; injection H as <- <-;
    try (rewrite Hid in Hr; discriminate Hr);
    apply error_after; calm_chain.
Qed.

Lemma named_symbol_has_id (p : pstate) :
  symbol_ok p -> Parser.type_is p Scanner.NAMES = true ->
  exists i, sym_id (Parser.symbol p) = Some i.
Proof.
  intros [H | H] Hty; [|exact H].
  unfold Parser.type_is in Hty. rewrite H in Hty. discriminate Hty.
Qed.

Lemma connect_fails (p q : pstate) :
  symbol_ok p -> Parser.type_is p Scanner.NAMES = true ->
  Parser.connect E p = (false, q) ->
  Parser.error_count p < Parser.error_count q.
Proof.
  intros Hok Hty. unfold Parser.connect. intros H.
  destruct (named_symbol_has_id Hok Hty) as [i Hi].
  destruct (Parser.get_io E Parser.OUTPUT p) as [out p1] eqn:H1.
  assert (calm p p1) as C1
    by (eapply (@calm_of_eq _ _ p out p1); [apply calm_get_io | exact H1]).
  destruct (Parser.is_none_pair out) eqn:Hout.
  { injection H as <-.
    eapply get_io_fails; [exact Hi | exact H1 | exact Hout]. }
  destruct (Parser.type_is p1 Scanner.AR);
    [|injection H as <-; apply error_after; exact C1].
  cbv zeta in H.
  destruct (Parser.type_is (Parser.next p1) Scanner.NAMES) eqn:Hty2;
    [|injection H as <-; apply error_after; calm_chain].
  destruct (named_symbol_has_id (symbol_ok_next p1) Hty2) as [j Hj].
  destruct (Parser.get_io E Parser.INPUT (Parser.next p1)) as [inp p3] eqn:H3.
  assert (calm p p3) as C3.
  { apply calm_trans with (Parser.next p1); [calm_chain|].
    eapply (@calm_of_eq _ _ _ inp p3); [apply calm_get_io | exact H3]. }
  destruct (Parser.is_none_pair inp) eqn:Hinp.
  { injection H as <-.
    eapply Nat.le_lt_trans;
      [|eapply get_io_fails; [exact Hj | exact H3 | exact Hinp]].
    apply calm_count_le. calm_chain. }
  failure_path H.
Qed.

Lemma build_list_loop_fails ty (m : pstate -> bool * pstate) fuel :
  (forall q, calm q (snd (m q))) ->
  (forall p q, symbol_ok p -> Parser.type_is p ty = true ->
               m p = (false, q) ->
               Parser.error_count p < Parser.error_count q) ->
  forall ok (p q : pstate),
    symbol_ok p ->
    Parser.build_list_loop E ty m fuel ok p = (false, q) ->
    ok = false \/ Parser.error_count p < Parser.error_count q.
Proof.
  intros Hcalm Hfail. induction fuel as [|k IH]; intros ok p q Hok H;
    simpl in H.
  - destruct (Parser.list_goes_on p); injection H as -> _; auto.
  - destruct (Parser.list_goes_on p); [|injection H as -> _; auto].
    destruct (Parser.type_is p ty) eqn:Hty.
    + destruct (m p) as [r p1] eqn:Hm.
      assert (calm p p1) as C
        by (eapply (@calm_of_eq _ m p r p1); [apply Hcalm | exact Hm]).
      pose proof (calm_build_list_loop ty m k Hcalm (ok && r) p1) as C2.
      rewrite H in C2. cbn [snd] in C2.
      apply IH in H; [|apply C, Hok].
      destruct H as [H | H].
      * apply andb_false_iff in H. destruct H as [-> | ->]; [auto|].
        right. eapply Nat.lt_le_trans; [apply (Hfail _ _ Hok Hty Hm)|].
        apply calm_count_le, C2.
      * right. apply calm_count_le in C. lia.
    + destruct (_ || _).
      * injection H as <-. right. cbn [Parser.set_missing_end
          Parser.error_count]. apply error_after, calm_refl.
      * right.
        pose proof (calm_build_list_loop ty m k Hcalm false
                      (Parser.error_ E SYMBOL_TYPE_ERROR true
                         (VStr (Parser.expected_name ty)) p)) as C2.
        rewrite H in C2. cbn [snd] in C2.
        apply calm_count_le in C2. rewrite error_count_error in C2. lia.
Qed.

Lemma build_device_fails (p q : pstate) :
  symbol_ok p ->
  Parser.build_list E Scanner.DEVICETYPE (Parser.device E) p = (false, q) ->
  Parser.error_count p < Parser.error_count q.
Proof.
  intros Hok H. unfold Parser.build_list in H.
  apply build_list_loop_fails in H; auto using calm_device.
  - destruct H as [H | H]; [discriminate H | exact H].
  - intros p0 q0 _ _. apply device_fails.
Qed.

Lemma build_connect_fails (p q : pstate) :
  symbol_ok p ->
  Parser.build_list E Scanner.NAMES (Parser.connect E) p = (false, q) ->
  Parser.error_count p < Parser.error_count q.
Proof.
  intros Hok H. unfold Parser.build_list in H.
  apply build_list_loop_fails in H; auto using calm_connect.
  - destruct H as [H | H]; [discriminate H | exact H].
  - intros p0 q0. apply connect_fails.
Qed.

Lemma devicelist_fails (p q : pstate) r :
  Parser.reached_eof p = false -> symbol_ok p ->
  Parser.devicelist E p = (r, q) -> Parser.truthy r = false ->
  Parser.error_count p < Parser.error_count q.
Proof.
  intros Heof Hok. unfold Parser.devicelist. rewrite Heof. cbv zeta.
  destruct (Parser.check_keyword E _ _) as [ok p1] eqn:H1.
  assert (calm p p1) as C1.
  { apply calm_trans with (Parser.print "Parsing device list..." p);
      [apply calm_field; reflexivity|].
    eapply (@calm_of_eq _ _ _ ok p1); [apply calm_check_keyword | exact H1]. }
  destruct ok; cbn [negb].
  2:{ intros H _. injection H as _ <-.
      apply check_keyword_fails in H1. exact H1. }
  destruct (Parser.build_list E _ _ p1) as [b p2] eqn:H2.
  destruct b; cbn [negb].
  - intros H Hr. injection H as <- _. discriminate Hr.
  - apply build_device_fails in H2; [|apply C1, Hok].
    apply calm_count_le in C1.
    destruct (negb (Parser.missing_end p2)); intros H _;
      injection H as _ <-.
    + pose proof (calm_count_le (calm_check_end true p2)). lia.
    + cbn [Parser.set_missing_end Parser.error_count]. lia.
Qed.

Lemma connectionlist_fails (p q : pstate) r :
  Parser.reached_eof p = false -> symbol_ok p ->
  Parser.connectionlist E true p = (r, q) -> Parser.truthy r = false ->
  Parser.error_count p < Parser.error_count q.
Proof.
  intros Heof Hok. unfold Parser.connectionlist. rewrite Heof. cbv zeta.
  destruct (Parser.check_keyword E _ _) as [ok p1] eqn:H1.
  assert (calm p p1) as C1.
  { apply calm_trans with (Parser.print "Parsing connection list..." p);
      [apply calm_field; reflexivity|].
    eapply (@calm_of_eq _ _ _ ok p1); [apply calm_check_keyword | exact H1]. }
  destruct ok; cbn [negb].
  2:{ intros H _. injection H as _ <-.
      apply check_keyword_fails in H1. exact H1. }
  cbv iota.
  destruct (Parser.build_list E _ _ p1) as [b p2] eqn:H2.
  pose proof (calm_count_le C1) as L1.
  destruct b; cbn [negb].
  - pose proof (calm_build_connect p1) as C2. rewrite H2 in C2.
    cbn [snd] in C2. apply calm_count_le in C2.
    destruct (negb (check_network E (Parser.world p2))); intros H Hr.
    + injection H as _ <-.
      pose proof (calm_count_le
                    (calm_check_end true
                       (Parser.error_ E UNCONNECTED_INPUTS false VNone p2)))
        as L3.
      rewrite error_count_error in L3. lia.
    + injection H as <- _. discriminate Hr.
  - apply build_connect_fails in H2; [|apply C1, Hok].
    destruct (negb (Parser.missing_end p2)); intros H _;
      injection H as _ <-.
    + pose proof (calm_count_le (calm_check_end true p2)). lia.
    + cbn [Parser.set_missing_end Parser.error_count]. lia.
Qed.

Lemma connectionlist_passes (p q : pstate) :
  Parser.reached_eof p = false ->
  Parser.connectionlist E true p = (Some true, q) ->
  check_network E (Parser.world q) = true.
Proof.
  intros Heof. unfold Parser.connectionlist. rewrite Heof. cbv zeta.
  destruct (Parser.check_keyword E _ _) as [ok p1].
  destruct (negb ok); [discriminate|]. cbv iota.
  destruct (Parser.build_list E _ _ p1) as [b p2].
  destruct (negb b).
  - destruct (negb (Parser.missing_end p2)); discriminate.
  - destruct (check_network E (Parser.world p2)) eqn:Hn; cbn [negb];
      [|discriminate].
    intros H. injection H as <-. rewrite world_check_end. exact Hn.
Qed.

Lemma monitorlist_quiet (p : pstate) :
  Parser.reached_eof p = false ->
  Parser.error_count (Parser.monitorlist E true p) = Parser.error_count p ->
  monitors_dictionary E (Parser.world (Parser.monitorlist E true p)) = true.
Proof.
  intros Heof. unfold Parser.monitorlist. rewrite Heof. cbv zeta.
  destruct (Parser.check_keyword E _ _) as [ok p1] eqn:H1.
  destruct ok; cbn [negb].
  2:{ intros H. apply check_keyword_fails in H1.
      cbn [Parser.print Parser.error_count] in H1. lia. }
  assert (Parser.error_count p <= Parser.error_count p1) as L1.
  { pose proof (calm_count_le
                  (calm_check_keyword Scanner.MONITOR_LIST
                     (Parser.print "Parsing monitor list..." p))) as L.
    rewrite H1 in L. exact L. }
  set (p2 := snd (Parser.build_list E Scanner.NAMES
                    (Parser.monitor_method E) p1)).
  pose proof (calm_count_le (calm_build_monitor p1)) as L2. fold p2 in L2.
  destruct (monitors_dictionary E (Parser.world p2)) eqn:Hd; cbn [negb].
  - intros _.
    destruct (negb (Parser.id_is (Parser.check_end E false p2) Scanner.EOF));
      rewrite ?world_error, world_check_end; exact Hd.
  - intros H. exfalso.
    pose proof (calm_count_le
                  (calm_check_end false
                     (Parser.error_ E NO_MONITOR false VNone p2))) as L3.
    rewrite error_count_error in L3.
    destruct (negb (Parser.id_is _ Scanner.EOF));
      rewrite ?error_count_error in H; lia.
Qed.

(** *** The answer [True] *)

Lemma parse_network_sections (p : pstate) :
  fst (Parser.parse_network E p) =
    Parser.id_is (after_sections E p) Scanner.EOF &&
    Nat.eqb (Parser.error_count (after_sections E p)) 0 /\
  printed_more (after_sections E p) (snd (Parser.parse_network E p)).
Proof.
  unfold Parser.parse_network, after_sections. cbv zeta.
  destruct (Parser.devicelist E (Parser.next p)) as [r p1].
  destruct (negb (Parser.truthy r)).
  - split; [destruct (_ && _); reflexivity | apply parse_network_end].
  - destruct (Parser.connectionlist E true p1) as [r2 p2].
    destruct (negb (Parser.truthy r2));
      (split; [destruct (_ && _); reflexivity | apply parse_network_end]).
Qed.

Lemma truthy_true r : Parser.truthy r = true -> r = Some true.
Proof. destruct r as [[|]|]; simpl; congruence. Qed.

(** The answer [True] of [parse_network] on a parser that has not met the
    end of the file means that the network stands: [devicelist] and
    [connectionlist] answered [True], the check of the network passed
    after the connection list, the dictionary of monitors is not empty,
    and no error was recorded at all. *)
Theorem true_answer_means_checked_network :
  forall p : pstate,
    Parser.reached_eof p = false ->
    fst (Parser.parse_network E p) = true ->
    let d := Parser.devicelist E (Parser.next p) in
    let c := Parser.connectionlist E true (snd d) in
    let q := snd (Parser.parse_network E p) in
    fst d = Some true /\
    fst c = Some true /\
    check_network E (Parser.world (snd c)) = true /\
    monitors_dictionary E (Parser.world q) = true /\
    printed_more (Parser.monitorlist E true (snd c)) q /\
    Parser.error_count p = 0 /\
    Parser.error_messages q = Parser.error_messages p.
Proof.
  intros p Heof Hans. cbv zeta.
  destruct (parse_network_sections p) as [Hfst Hpm].
  rewrite Hans in Hfst. symmetry in Hfst.
  apply andb_true_iff in Hfst. destruct Hfst as [_ Hzero].
  apply Nat.eqb_eq in Hzero.
  pose proof (calm_next p) as C0.
  assert (Parser.reached_eof (Parser.next p) = false) as Heof0
    by (rewrite reached_eof_next; exact Heof).
  pose proof (symbol_ok_next p) as Hok0.
  pose proof (calm_devicelist (Parser.next p)) as Cd.
  pose proof (calm_count_le C0) as L0. pose proof (calm_count_le Cd) as Ld.
  unfold after_sections in Hzero, Hpm.
  destruct (Parser.devicelist E (Parser.next p)) as [r p1] eqn:Hd.
  cbn [snd fst] in *.
  destruct (Parser.truthy r) eqn:Hr; cbn [negb] in Hzero, Hpm.
  2:{ exfalso.
      assert (Parser.error_count (Parser.next p) < Parser.error_count p1)
        as Lf by (apply (@devicelist_fails _ p1 r Heof0 Hok0 Hd Hr)).
      pose proof (count_le (grows_monitorlist E false
                    (snd (Parser.connectionlist E false
                       (Parser.print
                          ("Errors encountered in device list. " ++
                           "Will now check for syntax errors in rest of file.")
                          p1))))) as L1.
      pose proof (count_le (grows_connectionlist E false
                    (Parser.print
                       ("Errors encountered in device list. " ++
                        "Will now check for syntax errors in rest of file.")
                       p1))) as L2.
      cbn [Parser.print Parser.error_count] in L2. lia. }
  apply truthy_true in Hr. subst r.
  pose proof (calm_connectionlist p1) as Cc.
  pose proof (calm_count_le Cc) as Lc.
  destruct (Parser.connectionlist E true p1) as [r2 p2] eqn:Hc.
  cbn [snd fst] in *.
  destruct (Parser.truthy r2) eqn:Hr2; cbn [negb] in Hzero, Hpm.
  2:{ exfalso.
      pose proof (count_le (grows_monitorlist E false
                    (Parser.print
                       ("Errors encountered in connection list. " ++
                        "Will now check for syntax errors in monitor list.")
                       p2))) as L1.
      cbn [Parser.print Parser.error_count] in L1.
      assert (Parser.reached_eof p1 = false) as Heof1.
      { destruct Cd as [_ [R _]]. rewrite R; [exact Heof0 | lia]. }
      assert (Parser.error_count p1 < Parser.error_count p2) as Lf.
      { apply (@connectionlist_fails p1 p2 r2 Heof1
                 (proj2 (proj2 Cd) Hok0) Hc Hr2). }
      lia. }
  apply truthy_true in Hr2. subst r2.
  pose proof (count_le (grows_monitorlist E true p2)) as Lm.
  assert (Parser.reached_eof p1 = false) as Heof1.
  { destruct Cd as [_ [R _]]. rewrite R; [exact Heof0 | lia]. }
  assert (Parser.reached_eof p2 = false) as Heof2.
  { destruct Cc as [_ [R _]]. rewrite R; [exact Heof1 | lia]. }
  split; [reflexivity|]. split; [reflexivity|].
  split; [apply (@connectionlist_passes p1 p2 Heof1 Hc)|].
  pose proof Hpm as [_ [Hw [_ [Hcount [Hmsg _]]]]].
  split; [rewrite Hw; apply monitorlist_quiet; [exact Heof2 | lia]|].
  split; [exact Hpm|].
  split; [lia|].
  assert (grows p (Parser.monitorlist E true p2)) as G.
  { eapply grows_trans; [apply C0|]. eapply grows_trans; [apply Cd|].
    eapply grows_trans; [apply Cc | apply grows_monitorlist]. }
  destruct G as [es [G1 G2]]. rewrite Hmsg, G1.
  assert (es = []) as -> by (destruct es; [reflexivity | simpl in G2; lia]).
  apply app_nil_r.
Qed.

(** *** The answer of build_list *)

Lemma calm_same_errors (p q : pstate) :
  calm p q -> Parser.error_count q = Parser.error_count p ->
  same_errors p q.
Proof.
  intros [[es [G1 G2]] _] H. split; [|exact H].
  assert (es = []) as -> by (destruct es; [reflexivity | simpl in G2; lia]).
  rewrite G1. apply app_nil_r.
Qed.

Lemma error_count_next (p : pstate) :
  Parser.error_count (Parser.next p) = Parser.error_count p.
Proof. unfold Parser.next. destruct (Scanner.get_symbol _). reflexivity. Qed.

Lemma device_ok (p q : pstate) :
  Parser.device E p = (true, q) -> same_errors p q.
Proof.
  intros H. apply calm_same_errors.
  - pose proof (calm_device p) as C. rewrite H in C. exact C.
  - unfold Parser.device in H.
    repeat break_in H; try discriminate H; injection H as <-;
      rewrite !error_count_next;
      cbn [Parser.set_names Parser.set_world Parser.error_count];
      rewrite ?error_count_next; reflexivity.
Qed.

(** [build_list] on the items of the device list and of the connection
    list answers [True] exactly when it has recorded no error. *)
Theorem build_list_true_iff_no_error :
  forall p : pstate,
    symbol_ok p ->
    (fst (Parser.build_list E Scanner.DEVICETYPE (Parser.device E) p) = true
     <->
     Parser.error_count
       (snd (Parser.build_list E Scanner.DEVICETYPE (Parser.device E) p)) =
     Parser.error_count p) /\
    (fst (Parser.build_list E Scanner.NAMES (Parser.connect E) p) = true
     <->
     Parser.error_count
       (snd (Parser.build_list E Scanner.NAMES (Parser.connect E) p)) =
     Parser.error_count p).
Proof.
  intros p Hok. split.
  - destruct (Parser.build_list E Scanner.DEVICETYPE (Parser.device E) p)
      as [b q] eqn:H. cbn [fst snd]. split.
    + intros ->. unfold Parser.build_list in H.
      apply (@build_list_loop_ok World E _ _ _ device_ok) in H.
      apply H.
    + intros Hc. destruct b; [reflexivity|].
      apply (build_device_fails Hok) in H. lia.
  - destruct (Parser.build_list E Scanner.NAMES (Parser.connect E) p)
      as [b q] eqn:H. cbn [fst snd]. split.
    + intros ->. apply build_connect_ok in H. apply H.
    + intros Hc. destruct b; [reflexivity|].
      apply (build_connect_fails Hok) in H. lia.
Qed.

(** [check_keyword] and [device] answer [True] exactly when they have
    recorded no error: every path that answers [False] goes through
    [error], and no path that answers [True] does. *)
Theorem answers_agree_with_errors :
  forall kw (p : pstate),
    (fst (Parser.check_keyword E kw p) = true <->
     Parser.error_count (snd (Parser.check_keyword E kw p)) =
     Parser.error_count p) /\
    (fst (Parser.device E p) = true <->
     Parser.error_count (snd (Parser.device E p)) = Parser.error_count p).
Proof.
  intros kw p. split.
  - destruct (Parser.check_keyword E kw p) as [b q] eqn:H. cbn [fst snd].
    split.
    + intros ->. apply check_keyword_ok in H. apply H.
    + intros Hc. destruct b; [reflexivity|].
      apply check_keyword_fails in H. lia.
  - destruct (Parser.device E p) as [b q] eqn:H. cbn [fst snd]. split.
    + intros ->. apply device_ok in H. apply H.
    + intros Hc. destruct b; [reflexivity|].
      apply device_fails in H. lia.
Qed.

End Answers.

(** ** Further properties of the scanner *)

Section ScannerSymbols.

Lemma get_symbol_cases s :
  (Scanner.current_char (snd (Scanner.get_symbol s)) = None /\
   fst (Scanner.get_symbol s) =
     mkSymbol None (Some Scanner.EOF)
       (Scanner.line_counter (snd (Scanner.get_symbol s)))
       (Scanner.col_counter (snd (Scanner.get_symbol s))) /\
   Scanner.measure (snd (Scanner.get_symbol s)) <= Scanner.measure s) \/
  Scanner.measure (snd (Scanner.get_symbol s)) < Scanner.measure s.
Proof.
  unfold Scanner.get_symbol.
  destruct (Scanner.current_char s) as [c0|] eqn:Hc0.
  2:{ left. cbn [fst snd]. repeat split; [exact Hc0 | lia]. }
  set (s1 := if isspace c0 then Scanner.advance_non_whitespace s else s).
  assert (Scanner.measure s1 <= Scanner.measure s) as H1.
  { subst s1. destruct (isspace c0); [apply advance_non_whitespace_le | lia]. }
  pose proof (comment_check_le s1) as H2.
  set (s2 := Scanner.comment_check s1) in *.
  destruct (Scanner.current_char s2) as [c|] eqn:Hc.
  2:{ left. cbn [fst snd]. repeat split; [exact Hc | lia]. }
  right.
  destruct (isdigit c) eqn:Hd.
  { pose proof (read_number_lt (Scanner.measure s2) "" s2 Hc Hd) as H3.
    destruct (Scanner.read_number _ _ s2) as [w s3]. cbn [snd] in H3.
    destruct (Names.lookup1 _ w). cbn [snd]. rewrite measure_set_names.
    lia. }
  destruct (isalpha c) eqn:Ha.
  { pose proof (read_word_lt (Scanner.measure s2) "" s2 Hc Ha) as H3.
    destruct (Scanner.read_word _ _ s2) as [w s3]. cbn [snd] in H3.
    destruct (Names.lookup1 _ w). cbn [snd]. rewrite measure_set_names.
    lia. }
  pose proof (advance_lt _ Hc) as H3.
  pose proof (advance_le (Scanner.advance s2)) as H4.
  destruct (Ascii.eqb c ":"); [cbn [snd]; lia|].
  destruct (Ascii.eqb c ";"); [cbn [snd]; lia|].
  destruct (Ascii.eqb c "."); [cbn [snd]; lia|].
  destruct (Ascii.eqb c "-").
  - destruct (char_is _ _); cbn [snd]; lia.
  - destruct (Names.lookup1 _ _) as [id tbl]. cbn [snd].
    assert (Scanner.current_char (Scanner.set_names tbl s2) = Some c) as Hc'
      by exact Hc.
    pose proof (advance_lt _ Hc') as H5.
    rewrite measure_set_names in H5. lia.
Qed.

Lemma scanner_after_S k s :
  scanner_after (S k) s = scanner_after k (snd (Scanner.get_symbol s)).
Proof. reflexivity. Qed.

Lemma nth_symbol_S k s :
  nth_symbol (S k) s = nth_symbol k (snd (Scanner.get_symbol s)).
Proof. reflexivity. Qed.

Lemma nth_symbol_at_end s :
  Scanner.current_char s = None ->
  forall j,
    nth_symbol j s =
    mkSymbol None (Some Scanner.EOF) (Scanner.line_counter s)
      (Scanner.col_counter s).
Proof.
  intros H j. induction j as [|j IH].
  - unfold nth_symbol. simpl. now rewrite (get_symbol_at_end s H).
  - rewrite nth_symbol_S, (get_symbol_at_end s H). exact IH.
Qed.

(** The scanner comes to the end of the file and stays there: after at
    most as many symbols as there are characters left, every call of
    [get_symbol] gives the same symbol, which has the identifier EOF and no
    type. *)
Theorem scanner_reaches_eof :
  forall s,
    exists k,
      k <= Scanner.measure s /\
      forall j, k <= j ->
        nth_symbol j s = nth_symbol k s /\
        sym_id (nth_symbol j s) = Some Scanner.EOF /\
        sym_type (nth_symbol j s) = None.
Proof.
  intros s. remember (Scanner.measure s) as n eqn:Hn.
  assert (Scanner.measure s <= n) as Hle by lia. clear Hn.
  revert s Hle. induction n as [|n IH]; intros s Hle.
  - destruct (get_symbol_cases s) as [[Hc [Hs _]] | H]; [|lia].
    exists 0. split; [lia|]. intros j _.
    assert (forall i, nth_symbol i s = nth_symbol 0 s) as Hsame.
    { intros [|i]; [reflexivity|].
      rewrite nth_symbol_S, (nth_symbol_at_end _ Hc).
      unfold nth_symbol. simpl. now rewrite Hs. }
    rewrite Hsame. unfold nth_symbol. simpl. rewrite Hs. auto.
  - destruct (get_symbol_cases s) as [[Hc [Hs _]] | H].
    + exists 0. split; [lia|]. intros j _.
      assert (forall i, nth_symbol i s = nth_symbol 0 s) as Hsame.
      { intros [|i]; [reflexivity|].
        rewrite nth_symbol_S, (nth_symbol_at_end _ Hc).
        unfold nth_symbol. simpl. now rewrite Hs. }
      rewrite Hsame. unfold nth_symbol. simpl. rewrite Hs. auto.
    + destruct (IH (snd (Scanner.get_symbol s))) as [k [Hk Hall]]; [lia|].
      exists (S k). split; [lia|]. intros [|j] Hj; [lia|].
      rewrite !nth_symbol_S. apply Hall. lia.
Qed.

(** *** Numbers and words *)

Lemma pending_advance s : pending (Scanner.advance s) = Scanner.defi_file s.
Proof.
  unfold pending, Scanner.advance, Scanner.get_next_character.
  destruct (Scanner.defi_file s); reflexivity.
Qed.

Lemma string_of_list_app l1 l2 :
  string_of_list_ascii (l1 ++ l2) =
  (string_of_list_ascii l1 ++ string_of_list_ascii l2)%string.
Proof. induction l1 as [|c l IH]; simpl; [reflexivity | now rewrite IH]. Qed.

Lemma append_empty_r (a : string) : (a ++ "")%string = a.
Proof. induction a as [|c a IH]; simpl; [reflexivity | now rewrite IH]. Qed.

Lemma names_advance s : Scanner.names (Scanner.advance s) = Scanner.names s.
Proof.
  unfold Scanner.advance, Scanner.get_next_character.
  destruct (Scanner.defi_file s); reflexivity.
Qed.

Lemma read_number_run fuel acc s :
  Scanner.measure s < fuel ->
  fst (Scanner.read_number fuel acc s) =
    (acc ++ string_of_list_ascii (take_while isdigit (pending s)))%string /\
  pending (snd (Scanner.read_number fuel acc s)) =
    drop_while isdigit (pending s) /\
  Scanner.names (snd (Scanner.read_number fuel acc s)) = Scanner.names s.
Proof.
  revert acc s. induction fuel as [|k IH]; intros acc s Hlt; [lia|].
  cbn [Scanner.read_number].
  destruct (Scanner.current_char s) as [c|] eqn:Hc.
  2:{ cbn [fst snd]. unfold pending. rewrite Hc. simpl.
      rewrite append_empty_r. auto. }
  assert (pending s = c :: Scanner.defi_file s) as Hp
    by (unfold pending; now rewrite Hc).
  destruct (isdigit c) eqn:Hd.
  - pose proof (advance_lt _ Hc) as Hm.
    destruct (IH (acc ++ String c "")%string (Scanner.advance s)) as
      [H1 [H2 H3]]; [lia|].
    rewrite H1, H2, H3, pending_advance, names_advance, Hp. simpl.
    rewrite Hd. simpl. rewrite string_append_assoc. auto.
  - cbn [fst snd]. rewrite Hp. simpl. rewrite Hd. simpl.
    rewrite append_empty_r. auto.
Qed.

Lemma read_word_run fuel acc s :
  Scanner.measure s < fuel ->
  fst (Scanner.read_word fuel acc s) =
    (acc ++ string_of_list_ascii (take_while word_char (pending s)))%string /\
  pending (snd (Scanner.read_word fuel acc s)) =
    drop_while word_char (pending s) /\
  Scanner.names (snd (Scanner.read_word fuel acc s)) = Scanner.names s.
Proof.
  revert acc s. induction fuel as [|k IH]; intros acc s Hlt; [lia|].
  cbn [Scanner.read_word].
  destruct (Scanner.current_char s) as [c|] eqn:Hc.
  2:{ cbn [fst snd]. unfold pending. rewrite Hc. simpl.
      rewrite append_empty_r. auto. }
  assert (pending s = c :: Scanner.defi_file s) as Hp
    by (unfold pending; now rewrite Hc).
  fold (word_char c).
  destruct (word_char c) eqn:Hd.
  - pose proof (advance_lt _ Hc) as Hm.
    destruct (IH (acc ++ String c "")%string (Scanner.advance s)) as
      [H1 [H2 H3]]; [lia|].
    rewrite H1, H2, H3, pending_advance, names_advance, Hp. simpl.
    rewrite Hd. simpl. rewrite string_append_assoc. auto.
  - cbn [fst snd]. rewrite Hp. simpl. rewrite Hd. simpl.
    rewrite append_empty_r. auto.
Qed.

(** *** The table of names *)

Lemma query_from_found tbl w i j :
  Names.query_from tbl w i = Some j ->
  i <= j /\ nth_error tbl (j - i) = Some w.
Proof.
  revert i. induction tbl as [|x r IH]; intros i H; simpl in H;
    [discriminate|].
  destruct (String.eqb x w) eqn:He.
  - injection H as <-. apply String.eqb_eq in He. subst x.
    rewrite Nat.sub_diag. auto with arith.
  - apply IH in H. destruct H as [Hle Hn]. split; [lia|].
    replace (j - i) with (S (j - S i)) by lia. exact Hn.
Qed.

(** [lookup] gives an identifier that [get_name_string] resolves back to
    the string, and leaves the identifiers given before as they are. *)
Lemma lookup1_resolves tbl w :
  Names.get_name_string (snd (Names.lookup1 tbl w)) (fst (Names.lookup1 tbl w))
  = Some w.
Proof.
  unfold Names.lookup1, Names.get_name_string, Names.query.
  destruct (Names.query_from tbl w 0) as [j|] eqn:H; cbn [fst snd].
  - apply query_from_found in H. destruct H as [_ H].
    now rewrite Nat.sub_0_r in H.
  - rewrite nth_error_app2 by lia. now rewrite Nat.sub_diag.
Qed.

Lemma lookup1_extends tbl w :
  exists rest, snd (Names.lookup1 tbl w) = tbl ++ rest.
Proof.
  unfold Names.lookup1. destruct (Names.query tbl w).
  - exists []. now rewrite app_nil_r.
  - exists [w]. reflexivity.
Qed.

Lemma alpha_not_space c : isalpha c = true -> isspace c = false.
Proof.
  unfold isalpha, isspace. cbv zeta. intros H.
  destruct (nat_of_ascii c <=? 13) eqn:A;
    [apply Nat.leb_le in A|]; destruct (nat_of_ascii c <=? 32) eqn:B;
    try apply Nat.leb_le in B; try apply Nat.leb_gt in B;
    try apply Nat.leb_gt in A; try lia;
    rewrite ?andb_false_r; try reflexivity.
  all: apply orb_true_iff in H; destruct H as [H | H];
    apply andb_true_iff in H; destruct H as [H1 H2];
    apply Nat.leb_le in H1; lia.
Qed.

Lemma alpha_not_slash c : isalpha c = true -> Ascii.eqb c "/" = false.
Proof.
  intros H. destruct (Ascii.eqb c "/") eqn:Heq; [|reflexivity].
  apply Ascii.eqb_eq in Heq. subst c. discriminate H.
Qed.

Lemma alpha_not_digit c : isalpha c = true -> isdigit c = false.
Proof.
  unfold isalpha, isdigit. cbv zeta. intros H.
  destruct (nat_of_ascii c <=? 57) eqn:A; [|now rewrite andb_false_r].
  apply Nat.leb_le in A.
  apply orb_true_iff in H; destruct H as [H | H];
    apply andb_true_iff in H; destruct H as [H1 H2];
    apply Nat.leb_le in H1; lia.
Qed.

(** At a character that is neither white space nor a slash, nothing is
    skipped before the symbol. *)
Lemma comment_check_at_token s c :
  Scanner.current_char s = Some c -> Ascii.eqb c "/" = false ->
  Scanner.comment_check s = s.
Proof.
  intros Hc Hs. unfold Scanner.comment_check.
  rewrite comment_check_rec_S, Hc. cbn [char_is]. now rewrite Hs.
Qed.

(** A symbol that begins with a digit is the longest run of digits from
    there on: it is a NUMBER at the line and column of the scanner, its
    identifier resolves to the digits read, and the scanner is left at
    the first character that is not a digit. *)
Theorem number_symbol_is_longest_digit_run :
  forall s c,
    Scanner.current_char s = Some c -> isdigit c = true ->
    let sym := fst (Scanner.get_symbol s) in
    let s' := snd (Scanner.get_symbol s) in
    sym_type sym = Some Scanner.NUMBER /\
    linenum sym = Scanner.line_counter s /\
    colnum sym = Scanner.col_counter s /\
    (exists id,
       sym_id sym = Some id /\
       Names.get_name_string (Scanner.names s') id =
       Some (string_of_list_ascii (take_while isdigit (pending s)))) /\
    pending s' = drop_while isdigit (pending s).
Proof.
  intros s c Hc Hd. cbv zeta. unfold Scanner.get_symbol. rewrite Hc.
  rewrite (digit_not_space c Hd).
  rewrite (comment_check_at_token s Hc (digit_not_slash c Hd)).
  rewrite Hc, Hd.
  destruct (@read_number_run (S (Scanner.measure s)) "" s
              (Nat.lt_succ_diag_r _)) as [H1 [H2 H3]].
  destruct (Scanner.read_number _ _ s) as [w s3]. cbn [fst snd] in *.
  pose proof (lookup1_resolves (Scanner.names s3) w) as Hl.
  destruct (Names.lookup1 (Scanner.names s3) w) as [id tbl].
  cbn [fst snd sym_type sym_id linenum colnum Scanner.set_names
       Scanner.names] in *.
  repeat split.
  - exists id. split; [reflexivity|]. rewrite Hl, H1. reflexivity.
  - exact H2.
Qed.

(** A symbol that begins with a letter is the longest run of letters,
    digits and underscores from there on: its identifier resolves to the
    word read, its type is the one of that identifier, and the scanner
    is left at the first character that cannot go on the word. *)
Theorem word_symbol_is_longest_word_run :
  forall s c,
    Scanner.current_char s = Some c -> isalpha c = true ->
    let sym := fst (Scanner.get_symbol s) in
    let s' := snd (Scanner.get_symbol s) in
    linenum sym = Scanner.line_counter s /\
    colnum sym = Scanner.col_counter s /\
    (exists id,
       sym_id sym = Some id /\
       sym_type sym = Some (Scanner.classify id) /\
       Names.get_name_string (Scanner.names s') id =
       Some (string_of_list_ascii (take_while word_char (pending s)))) /\
    pending s' = drop_while word_char (pending s).
Proof.
  intros s c Hc Ha. cbv zeta. unfold Scanner.get_symbol. rewrite Hc.
  rewrite (alpha_not_space c Ha).
  rewrite (comment_check_at_token s Hc (alpha_not_slash c Ha)).
  rewrite Hc, (alpha_not_digit c Ha), Ha.
  destruct (@read_word_run (S (Scanner.measure s)) "" s
              (Nat.lt_succ_diag_r _)) as [H1 [H2 H3]].
  destruct (Scanner.read_word _ _ s) as [w s3]. cbn [fst snd] in *.
  pose proof (lookup1_resolves (Scanner.names s3) w) as Hl.
  destruct (Names.lookup1 (Scanner.names s3) w) as [id tbl].
  cbn [fst snd sym_type sym_id linenum colnum Scanner.set_names
       Scanner.names] in *.
  repeat split.
  - exists id. repeat split. rewrite Hl, H1. reflexivity.
  - exact H2.
Qed.

(** *** Reserved words *)

Lemma classify_new id : 20 <= id -> Scanner.classify id = Scanner.NAMES.
Proof.
  intros H. do 20 (destruct id as [|id]; [lia|]). reflexivity.
Qed.

Lemma query_from_ge tbl w i j :
  Names.query_from tbl w i = Some j -> i <= j.
Proof. intros H. apply query_from_found in H. apply H. Qed.

Lemma length_init_names : length Scanner.init_names = 20.
Proof. reflexivity. Qed.

(** With the reserved words at their places in the table, the type that
    the scanner gives to the identifier of a word is the type of the word
    as a text. *)
Lemma classify_lookup tbl w :
  reserved_prefix tbl ->
  Scanner.classify (fst (Names.lookup1 tbl w)) = word_type w.
Proof.
  intros [rest ->]. unfold Names.lookup1, Names.query.
  change Scanner.init_names with
    ["";  ":"; ";"; "->"; "."; "OFF"; "ON"; "DEVICE_LIST";
     "CONNECTION_LIST"; "MONITOR_LIST"; "END"; "AND"; "NAND"; "OR"; "NOR";
     "XOR"; "DTYPE"; "CLOCK"; "SWITCH"; "SIGGEN"]%string.
  cbn [app Names.query_from].
  repeat match goal with
         | |- context [String.eqb ?x w] =>
             let He := fresh "He" in
             destruct (String.eqb x w) eqn:He;
             [apply String.eqb_eq in He; subst w; reflexivity|]
         end.
  assert (word_type w = Scanner.NAMES) as ->.
  { unfold word_type, is_one_of, LIST_KEYWORD, DEVICE_KEYWORD,
      INITIAL_STATE. cbn [existsb].
    repeat match goal with
           | H : String.eqb _ w = false |- _ => rewrite H; clear H
           end.
    reflexivity. }
  apply classify_new.
  destruct (Names.query_from rest w 20) as [j|] eqn:Hq; cbn [fst].
  - apply (query_from_ge _ _ _ Hq).
  - cbn [length]. lia.
Qed.

Lemma reserved_prefix_lookup1 tbl w :
  reserved_prefix tbl -> reserved_prefix (snd (Names.lookup1 tbl w)).
Proof.
  intros [rest ->]. destruct (lookup1_extends (Scanner.init_names ++ rest) w)
    as [more ->].
  exists (rest ++ more). now rewrite app_assoc.
Qed.

(** The reserved words are recognised by their text: a word is a
    KEYWORD, a DEVICE TYPE or an INITIAL STATE exactly when it is one of
    the words of the matching list, letter for letter, and a NAME
    otherwise; and the reserved words stay at their places in the table of
    names. *)
Theorem reserved_words_are_recognised :
  forall s c,
    reserved_prefix (Scanner.names s) ->
    Scanner.current_char s = Some c -> isalpha c = true ->
    sym_type (fst (Scanner.get_symbol s)) =
      Some (word_type
              (string_of_list_ascii (take_while word_char (pending s)))) /\
    reserved_prefix (Scanner.names (snd (Scanner.get_symbol s))).
Proof.
  intros s c Hres Hc Ha. unfold Scanner.get_symbol. rewrite Hc.
  rewrite (alpha_not_space c Ha).
  rewrite (comment_check_at_token s Hc (alpha_not_slash c Ha)).
  rewrite Hc, (alpha_not_digit c Ha), Ha.
  destruct (@read_word_run (S (Scanner.measure s)) "" s
              (Nat.lt_succ_diag_r _)) as [H1 [H2 H3]].
  destruct (Scanner.read_word _ _ s) as [w s3]. cbn [fst snd] in *.
  rewrite <- H3 in Hres.
  pose proof (classify_lookup w Hres) as Hcl.
  pose proof (reserved_prefix_lookup1 w Hres) as Hpre.
  destruct (Names.lookup1 (Scanner.names s3) w) as [id tbl].
  cbn [fst snd sym_type Scanner.set_names Scanner.names] in *.
  rewrite Hcl, H1. auto.
Qed.

(** *** Identifiers are kept *)

Lemma names_non_whitespace_loop n s :
  Scanner.names (snd (Scanner.non_whitespace_loop n s)) = Scanner.names s.
Proof.
  revert s. induction n as [|k IH]; intros s; simpl; [reflexivity|].
  unfold Scanner.get_next_character.
  destruct (Scanner.defi_file s) as [|c r]; [reflexivity|].
  destruct (isspace c); [now rewrite IH | reflexivity].
Qed.

Lemma names_advance_non_whitespace s :
  Scanner.names (Scanner.advance_non_whitespace s) = Scanner.names s.
Proof.
  unfold Scanner.advance_non_whitespace,
    Scanner.get_next_non_whitespace_character.
  pose proof (names_non_whitespace_loop
                (Scanner.filesize s - Scanner.current_position s) s) as H.
  destruct (Scanner.non_whitespace_loop _ s). exact H.
Qed.

Lemma names_comment_loop fuel s :
  Scanner.names (Scanner.comment_loop fuel s) = Scanner.names s.
Proof.
  revert s. induction fuel as [|k IH]; intros s; simpl.
  - destruct (Nat.eqb _ 0); [reflexivity|].
    destruct (Scanner.current_char s); reflexivity.
  - destruct (Nat.eqb _ 0); [reflexivity|].
    destruct (Scanner.current_char s) as [c|]; [|reflexivity].
    rewrite IH, names_advance_non_whitespace.
    destruct (_ && _); [|reflexivity].
    cbv zeta. destruct (char_is _ _); cbn [Scanner.set_comment_switch
      Scanner.names]; apply names_advance.
Qed.

Lemma names_comment_check_rec fuel s :
  Scanner.names (Scanner.comment_check_rec fuel s) = Scanner.names s.
Proof.
  revert s. induction fuel as [|k IH]; intros s.
  - simpl. destruct (char_is _ _); reflexivity.
  - rewrite comment_check_rec_S.
    destruct (char_is (Scanner.current_char s) "/"); [|reflexivity].
    cbv zeta. rewrite IH, names_comment_loop, names_advance_non_whitespace.
    repeat (destruct (char_is _ _);
            cbn [Scanner.set_comment_switch Scanner.names]);
      apply names_advance.
Qed.

Lemma get_symbol_extends_names s :
  exists rest,
    Scanner.names (snd (Scanner.get_symbol s)) = Scanner.names s ++ rest.
Proof.
  unfold Scanner.get_symbol.
  destruct (Scanner.current_char s) as [c0|];
    [|exists []; now rewrite app_nil_r].
  set (s1 := if isspace c0 then Scanner.advance_non_whitespace s else s).
  assert (Scanner.names s1 = Scanner.names s) as H1
    by (subst s1; destruct (isspace c0);
        [apply names_advance_non_whitespace | reflexivity]).
  assert (Scanner.names (Scanner.comment_check s1) = Scanner.names s) as H2
    by (unfold Scanner.comment_check; now rewrite names_comment_check_rec).
  set (s2 := Scanner.comment_check s1) in *.
  destruct (Scanner.current_char s2) as [c|];
    [|exists []; cbn [snd]; now rewrite app_nil_r].
  destruct (isdigit c).
  { destruct (@read_number_run (S (Scanner.measure s2)) "" s2
                (Nat.lt_succ_diag_r _)) as [_ [_ H3]].
    destruct (Scanner.read_number _ _ s2) as [w s3]. cbn [snd] in H3.
    destruct (lookup1_extends (Scanner.names s3) w) as [rest Hr].
    destruct (Names.lookup1 _ w) as [id tbl]. cbn [snd] in *.
    exists rest. cbn [Scanner.set_names Scanner.names]. congruence. }
  destruct (isalpha c).
  { destruct (@read_word_run (S (Scanner.measure s2)) "" s2
                (Nat.lt_succ_diag_r _)) as [_ [_ H3]].
    destruct (Scanner.read_word _ _ s2) as [w s3]. cbn [snd] in H3.
    destruct (lookup1_extends (Scanner.names s3) w) as [rest Hr].
    destruct (Names.lookup1 _ w) as [id tbl]. cbn [snd] in *.
    exists rest. cbn [Scanner.set_names Scanner.names]. congruence. }
  destruct (Ascii.eqb c ":");
    [exists []; cbn [snd]; now rewrite names_advance, app_nil_r|].
  destruct (Ascii.eqb c ";");
    [exists []; cbn [snd]; now rewrite names_advance, app_nil_r|].
  destruct (Ascii.eqb c ".");
    [exists []; cbn [snd]; now rewrite names_advance, app_nil_r|].
  destruct (Ascii.eqb c "-").
  - exists []. destruct (char_is _ _); cbn [snd];
      now rewrite !names_advance, app_nil_r.
  - destruct (lookup1_extends (Scanner.names s2) (String c "")) as [rest Hr].
    destruct (Names.lookup1 _ _) as [id tbl]. cbn [snd] in *.
    exists rest. rewrite names_advance.
    cbn [Scanner.set_names Scanner.names]. congruence.
Qed.

(** The scanner only adds to the table of names: an identifier that
    resolves to a string still resolves to it after any number of calls of
    [get_symbol]. *)
Theorem identifiers_are_kept :
  forall k s i w,
    Names.get_name_string (Scanner.names s) i = Some w ->
    Names.get_name_string (Scanner.names (scanner_after k s)) i = Some w.
Proof.
  induction k as [|k IH]; intros s i w H; [exact H|].
  rewrite scanner_after_S. apply IH.
  destruct (get_symbol_extends_names s) as [rest ->].
  unfold Names.get_name_string in *.
  rewrite nth_error_app1; [exact H|].
  apply nth_error_Some. congruence.
Qed.

End ScannerSymbols.

(** ** Lines and columns *)



Lemma string_of_line (body : list ascii) :
  string_of_list_ascii (body ++ [newline]) =
  (string_of_list_ascii body ++ nl)%string.
Proof. apply string_of_list_app. Qed.

Lemma skipn_line n (body : list ascii) :
  n <= length body ->
  skipn n (body ++ [newline]) = skipn n body ++ [newline].
Proof.
  intros H. rewrite skipn_app.
  replace (n - length body) with 0 by lia. reflexivity.
Qed.

(** The three layouts of [print_line] on a line that ends with its
    newline. *)
Lemma format_line_caret (body : list ascii) (colnum : nat) :
  forallb not_newline body = true ->
  1 <= colnum -> colnum <= length body ->
  colnum < 37 \/ colnum + 36 <> length body ->
  caret_under (Scanner.format_line (body ++ [newline]) colnum) body colnum.
Proof.
  intros Hnl Hc1 Hc2 Hend.
  unfold Scanner.format_line, caret_under. cbv zeta.
  rewrite length_app. cbn [length].
  destruct ((colnum <? 37) || (length body + 1 <? 73)) eqn:H1.
  { exists [], [], 0, (length body).
    split; [left; reflexivity|]. split; [left; reflexivity|].
    split; [exact Hnl|]. repeat (split; [lia|]).
    cbn [skipn app length Nat.add]. rewrite firstn_all, app_nil_r.
    rewrite Nat.sub_0_r.
    rewrite string_of_line, !string_append_assoc. reflexivity. }
  apply orb_false_elim in H1. destruct H1 as [H1 H2].
  apply Nat.ltb_ge in H1. apply Nat.ltb_ge in H2.
  destruct (length body + 1 <? colnum + 37) eqn:H3.
  - apply Nat.ltb_lt in H3.
    exists dots, [], (length body + 1 - 73), 72.
    split; [right; reflexivity|]. split; [left; reflexivity|].
    split; [exact Hnl|]. repeat (split; [lia|]).
    rewrite firstn_all2 by (rewrite length_skipn; lia).
    rewrite app_nil_r.
    replace (length dots + (colnum - 1 - (length body + 1 - 73)))
      with (colnum + 75 - (length body + 1)) by (cbn [dots length]; lia).
    rewrite skipn_line by lia.
    rewrite !string_of_list_app, !string_append_assoc. reflexivity.
  - apply Nat.ltb_ge in H3.
    replace (colnum + 37 - (colnum - 36)) with 73 by lia.
    exists dots, dots, (colnum - 36), 73.
    split; [right; reflexivity|]. split; [right; reflexivity|].
    split; [exact Hnl|]. repeat (split; [lia|]).
    replace (length dots + (colnum - 1 - (colnum - 36))) with 38
      by (cbn [dots length]; lia).
    rewrite skipn_line by lia.
    rewrite firstn_app.
    replace (73 - length (skipn (colnum - 36) body)) with 0
      by (rewrite length_skipn; lia).
    cbn [firstn]. rewrite app_nil_r.
    rewrite !string_of_list_app, !string_append_assoc. reflexivity.
Qed.


Lemma forallb_rev (f : ascii -> bool) l :
  forallb f l = true -> forallb f (rev l) = true.
Proof.
  rewrite !forallb_forall. intros H y Hy. apply H, in_rev, Hy.
Qed.

(** A line of the file holds no newline before its end. *)
Lemma lines_from_lines cur l line :
  forallb not_newline cur = true ->
  In line (Scanner.lines_from cur l) ->
  forallb not_newline line = true \/
  exists body, line = body ++ [newline] /\ forallb not_newline body = true.
Proof.
  revert cur. induction l as [|a l IH]; intros cur Hcur Hin.
  - cbn [Scanner.lines_from] in Hin.
    destruct cur as [|x cur']; [destruct Hin|].
    destruct Hin as [<-|[]]. left. apply forallb_rev, Hcur.
  - cbn [Scanner.lines_from] in Hin.
    destruct (Ascii.eqb a newline) eqn:Ha.
    + destruct Hin as [<-|Hin].
      * right. exists (rev cur). apply Ascii.eqb_eq in Ha. subst a.
        split; [reflexivity | apply forallb_rev, Hcur].
      * apply (IH [] eq_refl Hin).
    + apply (IH (a :: cur)); [|exact Hin].
      simpl. unfold not_newline at 1. rewrite Ha. exact Hcur.
Qed.

Lemma file_line_body s k body :
  nth_error (Scanner.file_lines s) k = Some (body ++ [newline]) ->
  forallb not_newline body = true.
Proof.
  intros H. apply nth_error_In in H.
  apply (@lines_from_lines [] _ _ eq_refl) in H.
  destruct H as [H | [b [Hb Hn]]].
  - rewrite forallb_app in H. apply andb_true_iff in H.
    destruct H as [_ H]. discriminate H.
  - apply app_inj_tail in Hb. destruct Hb as [-> _]. exact Hn.
Qed.

Lemma caret_stands_at_column (s : Scanner.t) (linnum colnum : nat)
    (body : list ascii) :
  1 <= linnum -> 1 <= colnum -> colnum <= length body ->
  nth_error (Scanner.file_lines s) (linnum - 1) = Some (body ++ [newline]) ->
  colnum < 37 \/ colnum + 36 <> length body ->
  caret_under (Scanner.print_line s linnum colnum) body colnum.
Proof.
  intros Hl Hc1 Hc2 Hline Hend. unfold Scanner.print_line.
  destruct linnum as [|k]; [lia|].
  replace (S k - 1) with k in Hline by lia. rewrite Hline.
  apply format_line_caret; [|exact Hc1 | exact Hc2 | exact Hend].
  apply (@file_line_body s k body Hline).
Qed.


Lemma space_newline c : isspace c = false -> Ascii.eqb c newline = false.
Proof.
  intros H. destruct (Ascii.eqb_spec c newline) as [E|E]; [|reflexivity].
  subst c. discriminate H.
Qed.

Lemma lines_from_head cur r :
  cur <> [] ->
  exists tail rest, Scanner.lines_from cur r = (rev cur ++ tail) :: rest.
Proof.
  revert cur. induction r as [|c r IH]; intros cur Hcur; simpl.
  - destruct cur; [congruence|]. exists [], []. rewrite app_nil_r.
    reflexivity.
  - destruct (Ascii.eqb c newline).
    + exists [c], (Scanner.lines_from [] r). reflexivity.
    + destruct (IH (c :: cur)) as [tail [rest H]]; [congruence|].
      exists (c :: tail), rest. rewrite H. simpl. rewrite <- app_assoc.
      reflexivity.
Qed.

Lemma position_line c rest :
  Ascii.eqb c newline = false ->
  forall pre cur ln,
    ln <= fst (fold_left step_position (pre ++ [c]) (ln, length cur)) /\
    1 <= snd (fold_left step_position (pre ++ [c]) (ln, length cur)) /\
    exists line,
      nth_error (Scanner.lines_from cur (pre ++ c :: rest))
        (fst (fold_left step_position (pre ++ [c]) (ln, length cur)) - ln)
      = Some line /\
      nth_error line
        (snd (fold_left step_position (pre ++ [c]) (ln, length cur)) - 1)
      = Some c.
Proof.
  intros Hc. induction pre as [|a pre IH]; intros cur ln.
  - simpl. unfold step_position. rewrite Hc. cbn [fst snd].
    split; [lia|]. split; [lia|].
    destruct (@lines_from_head (c :: cur) rest) as [tail [more H]];
      [congruence|].
    rewrite H, Nat.sub_diag. eexists. split; [reflexivity|].
    simpl. rewrite Nat.sub_0_r, <- app_assoc.
    rewrite nth_error_app2; rewrite length_rev; [|lia].
    rewrite Nat.sub_diag. reflexivity.
  - cbn [app fold_left Scanner.lines_from]. unfold step_position at 2 4 6 8.
    cbn [fst snd]. destruct (Ascii.eqb a newline).
    + destruct (IH [] (S ln)) as [H1 [H2 [line [H3 H4]]]].
      cbn [length] in *. split; [lia|]. split; [exact H2|].
      exists line. split; [|exact H4].
      match goal with
      | |- nth_error _ (?l - ln) = _ =>
          replace (l - ln) with (S (l - S ln)) by lia
      end.
      exact H3.
    + destruct (IH (a :: cur) ln) as [H1 [H2 [line [H3 H4]]]].
      cbn [length] in *. split; [exact H1|]. split; [exact H2|].
      exists line. split; [exact H3|exact H4].
Qed.

Section Positions.

Variable txt : list ascii.

Lemma position_after_snoc pre ch :
  position_after (pre ++ [ch]) = step_position (position_after pre) ch.
Proof. unfold position_after. now rewrite fold_left_app. Qed.

Lemma get_next_character_counts s pre extra :
  counts txt s pre extra ->
  match fst (Scanner.get_next_character s) with
  | Some ch => counts txt (snd (Scanner.get_next_character s)) (pre ++ [ch]) 0
  | None => counts txt (snd (Scanner.get_next_character s)) pre (S extra)
  end.
Proof.
  intros [H1 [H2 [H3 H4]]]. unfold Scanner.get_next_character.
  destruct (Scanner.defi_file s) as [|ch r] eqn:Hd; cbn [fst snd].
  - unfold counts. cbn [Scanner.defi_file Scanner.line_counter
      Scanner.col_counter char_is andb].
    repeat split; [exact H1 | intros H; contradiction | exact H3 | lia].
  - assert (extra = 0) as -> by (apply H2; discriminate).
    unfold counts. cbn [Scanner.defi_file Scanner.line_counter
      Scanner.col_counter char_is].
    rewrite position_after_snoc. unfold step_position.
    destruct (Ascii.eqb ch newline); cbn [fst snd andb];
      (split; [rewrite <- app_assoc; exact H1|]; split; [reflexivity|];
       split; [rewrite ?H3; reflexivity | rewrite ?H4; lia]).
Qed.

Lemma just_read_tracks s : just_read txt s -> tracks txt s.
Proof.
  intros [pre [extra [H1 H2]]]. exists pre, extra. split; [exact H1|].
  intros c Hc _. apply H2, Hc.
Qed.

Lemma tracks_counts s : tracks txt s -> exists pre extra, counts txt s pre extra.
Proof. intros [pre [extra [H _]]]. eauto. Qed.

Lemma advance_just_read s pre extra :
  counts txt s pre extra -> just_read txt (Scanner.advance s).
Proof.
  intros H. apply get_next_character_counts in H.
  unfold Scanner.advance.
  destruct (Scanner.get_next_character s) as [c s1]. cbn [fst snd] in H.
  destruct c as [ch|].
  - exists (pre ++ [ch]), 0. split; [exact H|].
    intros c Hc. injection Hc as <-. eauto.
  - exists pre, (S extra). split; [exact H|]. intros c Hc. discriminate Hc.
Qed.

Lemma non_whitespace_loop_read n s pre extra :
  counts txt s pre extra ->
  exists pre1 extra1,
    counts txt (snd (Scanner.non_whitespace_loop n s)) pre1 extra1 /\
    forall c, fst (Scanner.non_whitespace_loop n s) = Some c ->
              isspace c = false /\ extra1 = 0 /\
              exists pre', pre1 = pre' ++ [c].
Proof.
  revert s pre extra. induction n as [|k IH]; intros s pre extra H; simpl.
  - exists pre, extra. split; [exact H|]. intros c Hc. discriminate Hc.
  - pose proof (get_next_character_counts H) as G.
    destruct (Scanner.get_next_character s) as [c s1]. cbn [fst snd] in G.
    destruct c as [ch|].
    + destruct (isspace ch) eqn:Hs.
      * apply (IH _ _ _ G).
      * exists (pre ++ [ch]), 0. split; [exact G|].
        intros c Hc. injection Hc as <-. eauto.
    + exists pre, (S extra). split; [exact G|].
      intros c Hc. discriminate Hc.
Qed.

Lemma advance_non_whitespace_just_read s pre extra :
  counts txt s pre extra ->
  just_read txt (Scanner.advance_non_whitespace s) /\
  at_token (Scanner.advance_non_whitespace s).
Proof.
  intros H. unfold Scanner.advance_non_whitespace,
    Scanner.get_next_non_whitespace_character.
  destruct (non_whitespace_loop_read
              (Scanner.filesize s - Scanner.current_position s) H)
    as [pre1 [extra1 [H1 H2]]].
  destruct (Scanner.non_whitespace_loop _ s) as [c s1]. cbn [fst snd] in *.
  split.
  - exists pre1, extra1. split; [exact H1|].
    intros ch Hc. apply H2, Hc.
  - intros ch Hc. apply H2, Hc.
Qed.

Lemma tracks_advance s : tracks txt s -> tracks txt (Scanner.advance s).
Proof.
  intros H. destruct (tracks_counts H) as [pre [extra Hc]].
  apply just_read_tracks, (advance_just_read Hc).
Qed.

Lemma tracks_advance_non_whitespace s :
  tracks txt s ->
  tracks txt (Scanner.advance_non_whitespace s) /\
  at_token (Scanner.advance_non_whitespace s).
Proof.
  intros H. destruct (tracks_counts H) as [pre [extra Hc]].
  destruct (advance_non_whitespace_just_read Hc) as [H1 H2].
  split; [apply just_read_tracks, H1 | exact H2].
Qed.

Lemma tracks_set_comment_switch n s :
  tracks txt s -> tracks txt (Scanner.set_comment_switch n s).
Proof. intros H. exact H. Qed.

Lemma tracks_set_names tbl s :
  tracks txt s -> tracks txt (Scanner.set_names tbl s).
Proof. intros H. exact H. Qed.

Lemma tracks_comment_round s (b d : bool) :
  tracks txt s ->
  tracks txt
    (if b then
       let s2 := Scanner.advance s in
       if d then Scanner.set_comment_switch 0 s2 else s2
     else s).
Proof.
  intros H. destruct b; [|exact H]. cbv zeta.
  destruct d; [apply tracks_set_comment_switch|]; apply tracks_advance, H.
Qed.

Lemma comment_loop_tracks fuel s :
  tracks txt s -> at_token s ->
  tracks txt (Scanner.comment_loop fuel s) /\
  at_token (Scanner.comment_loop fuel s).
Proof.
  revert s. induction fuel as [|k IH]; intros s H A; simpl.
  - destruct (Nat.eqb _ 0); [auto|].
    destruct (Scanner.current_char s); auto.
  - destruct (Nat.eqb _ 0); [auto|].
    destruct (Scanner.current_char s) as [c|]; [|auto].
    match goal with
    | |- context [Scanner.advance_non_whitespace ?x] =>
        destruct (@tracks_advance_non_whitespace x) as [H1 H2]
    end.
    { apply (tracks_comment_round _
               (char_is (Scanner.current_char (Scanner.advance s)) "/") H). }
    apply IH; assumption.
Qed.

Lemma comment_check_rec_tracks fuel s :
  tracks txt s -> at_token s ->
  tracks txt (Scanner.comment_check_rec fuel s) /\
  at_token (Scanner.comment_check_rec fuel s).
Proof.
  revert s. induction fuel as [|k IH]; intros s H A.
  - simpl. destruct (char_is _ _); auto.
  - rewrite comment_check_rec_S.
    destruct (char_is (Scanner.current_char s) "/"); [|auto]. cbv zeta.
    match goal with
    | |- context [Scanner.advance_non_whitespace ?x] =>
        destruct (@tracks_advance_non_whitespace x) as [H1 H2]
    end.
    { repeat (destruct (char_is _ _);
              [apply tracks_set_comment_switch|]);
        apply tracks_advance, H. }
    match goal with
    | |- context [Scanner.comment_loop ?n ?x] =>
        destruct (@comment_loop_tracks n x H1 H2) as [H3 H4]
    end.
    apply IH; assumption.
Qed.

Lemma read_number_tracks fuel acc s :
  tracks txt s -> tracks txt (snd (Scanner.read_number fuel acc s)).
Proof.
  revert acc s. induction fuel as [|k IH]; intros acc s H; simpl.
  - destruct (Scanner.current_char s) as [c|]; [destruct (isdigit c)|];
      exact H.
  - destruct (Scanner.current_char s) as [c|]; [|exact H].
    destruct (isdigit c); [|exact H]. apply IH, tracks_advance, H.
Qed.

Lemma read_word_tracks fuel acc s :
  tracks txt s -> tracks txt (snd (Scanner.read_word fuel acc s)).
Proof.
  revert acc s. induction fuel as [|k IH]; intros acc s H; simpl.
  - destruct (Scanner.current_char s) as [c|]; [destruct (_ || _)|];
      exact H.
  - destruct (Scanner.current_char s) as [c|]; [|exact H].
    destruct (_ || _); [|exact H]. apply IH, tracks_advance, H.
Qed.

Lemma classify_cases id :
  Scanner.classify id = Scanner.KEYWORDS \/
  Scanner.classify id = Scanner.DEVICETYPE \/
  Scanner.classify id = Scanner.PROPERTY \/
  Scanner.classify id = Scanner.NAMES.
Proof.
  unfold Scanner.classify.
  repeat (destruct (existsb _ _); [tauto|]). tauto.
Qed.

Lemma tracks_init : tracks txt (Scanner.init txt).
Proof.
  exists [], 0. split.
  - repeat split; simpl; auto.
  - simpl. intros c Hc Hs. inversion Hc; subst c. discriminate Hs.
Qed.

Lemma get_symbol_position s :
  tracks txt s ->
  tracks txt (snd (Scanner.get_symbol s)) /\
  ((Scanner.current_char (snd (Scanner.get_symbol s)) = None /\
    sym_type (fst (Scanner.get_symbol s)) = None /\
    sym_id (fst (Scanner.get_symbol s)) = Some Scanner.EOF) \/
   begins_at txt (fst (Scanner.get_symbol s))).
Proof.
  intros H. unfold Scanner.get_symbol.
  destruct (Scanner.current_char s) as [c0|] eqn:Hc0.
  2:{ cbn [fst snd]. split; [exact H|]. left. auto. }
  set (s1 := if isspace c0 then Scanner.advance_non_whitespace s else s).
  assert (tracks txt s1 /\ at_token s1) as [H1 A1].
  { subst s1. destruct (isspace c0) eqn:Hs.
    - apply tracks_advance_non_whitespace, H.
    - split; [exact H|]. intros c Hc. congruence. }
  destruct (@comment_check_rec_tracks (S (Scanner.measure s1)) s1 H1 A1)
    as [H2 A2].
  assert (char_is (Scanner.current_char (Scanner.comment_check s1)) "/"
          = false) as X2
    by (apply comment_check_rec_exit; apply Nat.lt_succ_diag_r).
  fold (Scanner.comment_check s1) in H2, A2.
  set (s2 := Scanner.comment_check s1) in *.
  destruct (Scanner.current_char s2) as [c|] eqn:Hc.
  2:{ cbn [fst snd]. split; [exact H2|]. left. auto. }
  cbn [char_is] in X2.
  assert (forall ty id,
            first_char_fits c ty ->
            begins_at txt
              (mkSymbol ty id (Scanner.line_counter s2)
                 (Scanner.col_counter s2))) as Hb.
  { intros ty id Hf.
    destruct H2 as [pre [extra [[Ht [_ [Hl Hcol]]] Hlast]]].
    destruct (Hlast c Hc (A2 c Hc)) as [He [pre' Hp]]. subst extra pre.
    exists pre', c, (Scanner.defi_file s2). cbn [linenum colnum sym_type].
    repeat split.
    - rewrite Ht, <- app_assoc. reflexivity.
    - apply (A2 c Hc).
    - exact X2.
    - rewrite Hl, Hcol, Nat.add_0_r. symmetry. apply surjective_pairing.
    - exact Hf. }
  unfold first_char_fits in Hb.
  destruct (isdigit c) eqn:Hd.
  { pose proof (@read_number_tracks (S (Scanner.measure s2)) "" s2 H2) as H3.
    destruct (Scanner.read_number _ _ s2) as [w s3]. cbn [snd] in H3.
    destruct (Names.lookup1 _ w). cbn [fst snd].
    split; [apply tracks_set_names, H3|]. right. apply Hb.
    reflexivity. }
  destruct (isalpha c) eqn:Ha.
  { pose proof (@read_word_tracks (S (Scanner.measure s2)) "" s2 H2) as H3.
    destruct (Scanner.read_word _ _ s2) as [w s3]. cbn [snd] in H3.
    destruct (Names.lookup1 _ w) as [id tbl]. cbn [fst snd].
    split; [apply tracks_set_names, H3|]. right. apply Hb.
    destruct (classify_cases id) as [E|[E|[E|E]]]; rewrite E; tauto. }
  destruct (Ascii.eqb c ":").
  { cbn [fst snd]. split; [apply tracks_advance, H2|]. right.
    apply Hb. reflexivity. }
  destruct (Ascii.eqb c ";").
  { cbn [fst snd]. split; [apply tracks_advance, H2|]. right.
    apply Hb. reflexivity. }
  destruct (Ascii.eqb c ".").
  { cbn [fst snd]. split; [apply tracks_advance, H2|]. right.
    apply Hb. reflexivity. }
  destruct (Ascii.eqb c "-").
  { cbv zeta. destruct (char_is _ _); cbn [fst snd];
      (split; [apply tracks_advance, tracks_advance, H2|]); right;
      apply Hb; tauto. }
  destruct (Names.lookup1 _ _) as [id tbl]. cbn [fst snd].
  split; [apply tracks_advance, tracks_set_names, H2|]. right.
  apply Hb. reflexivity.
Qed.

Lemma scanner_after_last k s :
  scanner_after (S k) s = snd (Scanner.get_symbol (scanner_after k s)).
Proof.
  revert s. induction k as [|k IH]; intros s; [reflexivity|].
  rewrite scanner_after_S, IH. reflexivity.
Qed.

Lemma scanner_after_tracks k s :
  tracks txt s -> tracks txt (scanner_after k s).
Proof.
  revert s. induction k as [|k IH]; intros s H; simpl; [exact H|].
  apply IH, get_symbol_position, H.
Qed.

(** Every symbol that the scanner gives for a text is either the end of
    the file, or carries the line and the column, both counted from one,
    of a character of the text that is neither white space nor a slash,
    and this character decides the type of the symbol: the counters of
    [get_next_character] are read after spaces and comments are skipped
    and before the symbol is read, and a slash is always taken by
    [comment_check], so that no symbol begins with one. *)
Theorem symbols_carry_their_position k :
  let sym := nth_symbol k (Scanner.init txt) in
  (sym_type sym = None /\ sym_id sym = Some Scanner.EOF /\
   pending (scanner_after (S k) (Scanner.init txt)) = []) \/
  begins_at txt sym.
Proof.
  cbv zeta. unfold nth_symbol.
  pose proof (@scanner_after_tracks k _ tracks_init) as H.
  destruct (get_symbol_position H) as [_ [[H1 [H2 H3]]|H1]].
  - left. repeat split; [exact H2 | exact H3 |].
    rewrite scanner_after_last. unfold pending. rewrite H1. reflexivity.
  - right. exact H1.
Qed.

(** The report of an error at a symbol points at the symbol: for every
    symbol of the text but the end of the file, on a line that ends with
    its newline, the character at the line and the column of the symbol
    is the first character of the symbol, and [print_line], called with
    this line and this column on any scanner of the text, shows that line
    with its caret exactly under that column.  A column 37 places before
    the newline of a long line is left out, as for [print_line]. *)
Theorem report_points_at_symbol k s body :
  Scanner.text s = txt ->
  let sym := nth_symbol k (Scanner.init txt) in
  nth_error (Scanner.file_lines s) (linenum sym - 1) =
    Some (body ++ [newline]) ->
  colnum sym < 37 \/ colnum sym + 36 <> length body ->
  (sym_type sym = None /\ sym_id sym = Some Scanner.EOF /\
   pending (scanner_after (S k) (Scanner.init txt)) = []) \/
  exists c,
    nth_error body (colnum sym - 1) = Some c /\
    isspace c = false /\ Ascii.eqb c "/" = false /\
    first_char_fits c (sym_type sym) /\
    caret_under (Scanner.print_line s (linenum sym) (colnum sym)) body
      (colnum sym).
Proof.
  intros Ht. cbv zeta. unfold nth_symbol. intros Hline Hend.
  pose proof (@scanner_after_tracks k _ tracks_init) as H.
  destruct (get_symbol_position H) as [_ [[H1 [H2 H3]]|H1]].
  - left. repeat split; [exact H2 | exact H3 |].
    rewrite scanner_after_last. unfold pending. rewrite H1. reflexivity.
  - right. destruct H1 as [pre [c [rest [Hs [Hc [Hx [Hp Hf]]]]]]].
    exists c.
    destruct (@position_line c rest (@space_newline c Hc) pre [] 1)
      as [P1 [P2 [line [P3 P4]]]].
    cbn [length] in *. fold (position_after (pre ++ [c])) in *.
    rewrite <- Hp in *. cbn [fst snd] in *.
    pose proof Hline as Hline0.
    unfold Scanner.file_lines in Hline. rewrite Ht in Hline.
    rewrite <- Hs in P3. rewrite Hline in P3. injection P3 as <-.
    assert (nth_error body
              (colnum (fst (Scanner.get_symbol
                              (scanner_after k (Scanner.init txt)))) - 1)
            = Some c) as Hb.
    { match type of P4 with
      | nth_error _ ?i = _ =>
          destruct (Nat.lt_ge_cases i (length body)) as [L|L]
      end.
      - rewrite nth_error_app1 in P4 by exact L. exact P4.
      - rewrite nth_error_app2 in P4 by exact L.
        match type of P4 with
        | nth_error _ ?j = _ => destruct j as [|[|j']]
        end; [|discriminate P4 | discriminate P4].
        injection P4 as <-. discriminate Hc. }
    split; [exact Hb|]. split; [exact Hc|]. split; [exact Hx|].
    split; [exact Hf|].
    assert (colnum (fst (Scanner.get_symbol
                           (scanner_after k (Scanner.init txt)))) - 1
            < length body) as Hlt
      by (apply nth_error_Some; congruence).
    apply (@caret_stands_at_column s _ _ body); try assumption; lia.
Qed.

End Positions.

(** ** The flag of a missing END *)

Section Flag.

Variable World : Type.
Variable E : Env World.

Let pstate := Parser.t World.

Lemma missing_end_next (p : pstate) :
  Parser.missing_end (Parser.next p) = Parser.missing_end p.
Proof. unfold Parser.next. destruct (Scanner.get_symbol _). reflexivity. Qed.

Lemma missing_end_skip_to stop fuel (p : pstate) :
  Parser.missing_end (Parser.skip_to stop fuel p) = Parser.missing_end p.
Proof.
  revert p. induction fuel as [|k IH]; intros p; simpl.
  - destruct (py_in _ _); reflexivity.
  - destruct (py_in _ _); [reflexivity|]. rewrite IH.
    apply missing_end_next.
Qed.

Lemma missing_end_error et adv v (p : pstate) :
  Parser.missing_end (Parser.error_ E et adv v p) = Parser.missing_end p.
Proof.
  unfold Parser.error_, Parser.error. destruct adv; [|reflexivity].
  destruct (negb _);
    cbn [snd Parser.append_error Parser.set_reached_eof Parser.missing_end];
    rewrite ?missing_end_next, missing_end_skip_to; reflexivity.
Qed.

Ltac flag_solve :=
  repeat break_body; cbn [fst snd];
  rewrite ?missing_end_error, ?missing_end_next;
  cbn [Parser.set_world Parser.set_names Parser.missing_end];
  rewrite ?missing_end_error, ?missing_end_next; try reflexivity.

Lemma missing_end_check_keyword kw (p : pstate) :
  Parser.missing_end (snd (Parser.check_keyword E kw p)) =
  Parser.missing_end p.
Proof. unfold Parser.check_keyword. flag_solve. Qed.

Lemma missing_end_check_end b (p : pstate) :
  Parser.missing_end (Parser.check_end E b p) = Parser.missing_end p.
Proof. unfold Parser.check_end. flag_solve. Qed.

Lemma missing_end_get_io io (p : pstate) :
  Parser.missing_end (snd (Parser.get_io E io p)) = Parser.missing_end p.
Proof. unfold Parser.get_io. flag_solve. Qed.

Lemma missing_end_check_io io (p : pstate) :
  Parser.missing_end (snd (Parser.check_io E io p)) = Parser.missing_end p.
Proof. unfold Parser.check_io. flag_solve. Qed.

Lemma missing_end_device (p : pstate) :
  Parser.missing_end (snd (Parser.device E p)) = Parser.missing_end p.
Proof. unfold Parser.device. flag_solve. Qed.

Lemma missing_end_connect (p : pstate) :
  Parser.missing_end (snd (Parser.connect E p)) = Parser.missing_end p.
Proof.
  unfold Parser.connect.
  pose proof (missing_end_get_io Parser.OUTPUT p) as H1.
  destruct (Parser.get_io E Parser.OUTPUT p) as [out p1]. cbn [snd] in H1.
  destruct (Parser.is_none_pair out); [exact H1|].
  destruct (Parser.type_is p1 Scanner.AR);
    [|cbn [snd]; now rewrite missing_end_error].
  cbv zeta. destruct (Parser.type_is (Parser.next p1) Scanner.NAMES);
    [|cbn [snd]; now rewrite missing_end_error, missing_end_next].
  pose proof (missing_end_get_io Parser.INPUT (Parser.next p1)) as H2.
  rewrite missing_end_next in H2.
  destruct (Parser.get_io E Parser.INPUT (Parser.next p1)) as [inp p3].
  cbn [snd] in H2. destruct (Parser.is_none_pair inp); [cbn [snd]; congruence|].
  destruct (make_connection E _ _ _ _ _) as [et w].
  destruct (negb _); [cbn [snd]; rewrite missing_end_error; simpl; congruence|].
  destruct (Parser.type_is _ Scanner.SCL); cbn [snd];
    rewrite ?missing_end_error, ?missing_end_next; simpl; congruence.
Qed.

Lemma missing_end_connect_syntax (p : pstate) :
  Parser.missing_end (Parser.connect_syntax E p) = Parser.missing_end p.
Proof.
  unfold Parser.connect_syntax.
  pose proof (missing_end_check_io Parser.OUTPUT p) as H1.
  destruct (Parser.check_io E Parser.OUTPUT p) as [ok p1]. cbn [snd] in H1.
  destruct (negb ok); [exact H1|].
  destruct (Parser.type_is p1 Scanner.AR);
    [|now rewrite missing_end_error].
  cbv zeta. destruct (Parser.type_is (Parser.next p1) Scanner.NAMES);
    [|now rewrite missing_end_error, missing_end_next].
  pose proof (missing_end_check_io Parser.INPUT (Parser.next p1)) as H2.
  rewrite missing_end_next in H2.
  destruct (Parser.check_io E Parser.INPUT (Parser.next p1)) as [ok2 p3].
  cbn [snd] in H2. destruct (negb ok2); [congruence|].
  destruct (Parser.type_is _ Scanner.SCL);
    rewrite ?missing_end_error, ?missing_end_next; congruence.
Qed.

Lemma missing_end_monitor (p : pstate) :
  Parser.missing_end (Parser.monitor E p) = Parser.missing_end p.
Proof.
  unfold Parser.monitor.
  pose proof (missing_end_get_io Parser.OUTPUT p) as H1.
  destruct (Parser.get_io E Parser.OUTPUT p) as [out p1]. cbn [snd] in H1.
  destruct (Parser.is_none_pair out); [exact H1|].
  destruct (make_monitor E _ _ _) as [et w].
  destruct (negb _); [rewrite missing_end_error; simpl; congruence|].
  destruct (Parser.type_is _ Scanner.SCL);
    rewrite ?missing_end_error, ?missing_end_next; simpl; congruence.
Qed.

Lemma missing_end_monitor_syntax (p : pstate) :
  Parser.missing_end (Parser.monitor_syntax E p) = Parser.missing_end p.
Proof.
  unfold Parser.monitor_syntax.
  pose proof (missing_end_check_io Parser.OUTPUT p) as H1.
  destruct (Parser.check_io E Parser.OUTPUT p) as [ok p1]. cbn [snd] in H1.
  destruct (negb ok); [exact H1|].
  destruct (Parser.type_is _ Scanner.SCL);
    rewrite ?missing_end_error, ?missing_end_next; congruence.
Qed.

Lemma abandoned_flag (q : pstate) :
  abandoned q -> Parser.missing_end q = true.
Proof. intros [p' [-> _]]. reflexivity. Qed.

Lemma build_list_loop_flag ty (m : pstate -> bool * pstate) :
  (forall q, Parser.missing_end (snd (m q)) = Parser.missing_end q) ->
  forall fuel ok (p : pstate),
    Parser.missing_end p = false ->
    Parser.missing_end (snd (Parser.build_list_loop E ty m fuel ok p))
      = false \/
    (fst (Parser.build_list_loop E ty m fuel ok p) = false /\
     abandoned (snd (Parser.build_list_loop E ty m fuel ok p))).
Proof.
  intros Hm. induction fuel as [|k IH]; intros ok p Hp; simpl.
  - destruct (Parser.list_goes_on p); left; exact Hp.
  - destruct (Parser.list_goes_on p) eqn:Hgo; [|left; exact Hp].
    destruct (Parser.type_is p ty).
    + pose proof (Hm p) as H. destruct (m p) as [r p1]. cbn [snd] in H.
      apply IH. congruence.
    + destruct (_ || _).
      * right. cbn [fst snd]. split; [reflexivity|].
        exists p. split; [reflexivity | exact Hgo].
      * apply IH. rewrite missing_end_error. exact Hp.
Qed.

Lemma check_syntax_loop_flag ty (m : pstate -> pstate) :
  (forall q, Parser.missing_end (m q) = Parser.missing_end q) ->
  forall fuel (p : pstate),
    Parser.missing_end p = false ->
    Parser.missing_end (Parser.check_syntax_loop E ty m fuel p) = false \/
    abandoned (Parser.check_syntax_loop E ty m fuel p).
Proof.
  intros Hm. induction fuel as [|k IH]; intros p Hp; simpl.
  - destruct (Parser.list_goes_on p); left; exact Hp.
  - destruct (Parser.list_goes_on p) eqn:Hgo; [|left; exact Hp].
    destruct (Parser.type_is p ty).
    + apply IH. rewrite Hm. exact Hp.
    + destruct (_ || _).
      * right. exists p. split; [reflexivity | exact Hgo].
      * apply IH. rewrite missing_end_error. exact Hp.
Qed.

(** [devicelist] and [connectionlist] never leave the flag of a missing
    END set: a list that was left for a missing END answers [False] (or
    nothing), and the flag is taken back before the method returns. *)
Theorem missing_end_flag_is_taken_back :
  forall b (p : pstate),
    Parser.missing_end p = false ->
    Parser.missing_end (snd (Parser.devicelist E p)) = false /\
    Parser.missing_end (snd (Parser.connectionlist E b p)) = false.
Proof.
  intros b p Hp. split.
  - unfold Parser.devicelist. destruct (Parser.reached_eof p); [exact Hp|].
    cbv zeta.
    pose proof (missing_end_check_keyword Scanner.DEVICE_LIST
                  (Parser.print "Parsing device list..." p)) as H1.
    destruct (Parser.check_keyword _ _ _) as [ok p1]. cbn [snd] in H1.
    destruct (negb ok); [cbn [snd]; rewrite H1; exact Hp|].
    assert (Parser.missing_end p1 = false) as Hp1 by (rewrite H1; exact Hp).
    unfold Parser.build_list.
    destruct (@build_list_loop_flag Scanner.DEVICETYPE (Parser.device E)
                missing_end_device (S (Scanner.measure (Parser.scanner p1)))
                true p1 Hp1) as [H | [Hf H]];
      destruct (Parser.build_list_loop _ _ _ _ _ _) as [built p2];
      cbn [fst snd] in *.
    + rewrite H. destruct (negb built); cbn [negb snd];
        rewrite missing_end_check_end; exact H.
    + subst built. rewrite (abandoned_flag H). reflexivity.
  - unfold Parser.connectionlist.
    destruct (Parser.reached_eof p); [exact Hp|]. cbv zeta.
    pose proof (missing_end_check_keyword Scanner.CONNECTION_LIST
                  (Parser.print "Parsing connection list..." p)) as H1.
    destruct (Parser.check_keyword _ _ _) as [ok p1]. cbn [snd] in H1.
    destruct (negb ok); [cbn [snd]; rewrite H1; exact Hp|].
    assert (Parser.missing_end p1 = false) as Hp1 by (rewrite H1; exact Hp).
    destruct b.
    + unfold Parser.build_list.
      destruct (@build_list_loop_flag Scanner.NAMES (Parser.connect E)
                  missing_end_connect (S (Scanner.measure (Parser.scanner p1)))
                  true p1 Hp1) as [H | [Hf H]];
        destruct (Parser.build_list_loop _ _ _ _ _ _) as [built p2];
        cbn [fst snd] in *.
      * rewrite H. destruct (negb built); cbn [negb snd];
          [rewrite missing_end_check_end; exact H|].
        destruct (negb _); cbn [snd];
          rewrite missing_end_check_end, ?missing_end_error; exact H.
      * subst built. rewrite (abandoned_flag H). reflexivity.
    + unfold Parser.check_syntax.
      destruct (@check_syntax_loop_flag Scanner.NAMES
                  (Parser.connect_syntax E) missing_end_connect_syntax
                  (S (Scanner.measure (Parser.scanner p1))) p1 Hp1)
        as [H | H].
      * rewrite H. cbn [snd]. rewrite missing_end_check_end. exact H.
      * rewrite (abandoned_flag H). reflexivity.
Qed.

Lemma missing_end_tail (b : bool) (q : pstate) :
  Parser.missing_end
    (let p3 := Parser.check_end E false
                 (if b then Parser.error_ E NO_MONITOR false VNone q else q) in
     if negb (Parser.id_is p3 Scanner.EOF)
     then Parser.error_ E NO_EOF false VNone p3 else p3) =
  Parser.missing_end q.
Proof.
  cbv zeta. destruct (negb _); rewrite ?missing_end_error;
    rewrite missing_end_check_end; destruct b;
    rewrite ?missing_end_error; reflexivity.
Qed.

Lemma abandoned_tail (b : bool) (p' : pstate) :
  Parser.list_goes_on p' = true ->
  let q := Parser.set_missing_end true (with_error END_ERROR_message p') in
  let p3 := Parser.check_end E false
              (if b then Parser.error_ E NO_MONITOR false VNone q else q) in
  let r := if negb (Parser.id_is p3 Scanner.EOF)
           then Parser.error_ E NO_EOF false VNone p3 else p3 in
  Parser.symbol r = Parser.symbol p' /\
  Parser.error_messages r =
    Parser.error_messages p' ++ missing_end_entries b (Parser.symbol p').
Proof.
  intros Hgo. apply andb_true_iff in Hgo. destruct Hgo as [G1 G2].
  apply negb_true_iff in G1. apply negb_true_iff in G2. cbv zeta.
  unfold Parser.check_end.
  destruct b.
  - change (Parser.id_is
              (Parser.error_ E NO_MONITOR false VNone
                 (Parser.set_missing_end true
                    (with_error END_ERROR_message p'))) Scanner.END)
      with (Parser.id_is p' Scanner.END).
    rewrite G1.
    change (Parser.id_is
              (Parser.error_ E END_ERROR false VNone
                 (Parser.error_ E NO_MONITOR false VNone
                    (Parser.set_missing_end true
                       (with_error END_ERROR_message p')))) Scanner.EOF)
      with (Parser.id_is p' Scanner.EOF).
    rewrite G2. cbn [negb]. split; [reflexivity|].
    unfold missing_end_entries. cbn. rewrite <- !app_assoc. reflexivity.
  - change (Parser.id_is
              (Parser.set_missing_end true
                 (with_error END_ERROR_message p')) Scanner.END)
      with (Parser.id_is p' Scanner.END).
    rewrite G1.
    change (Parser.id_is
              (Parser.error_ E END_ERROR false VNone
                 (Parser.set_missing_end true
                    (with_error END_ERROR_message p'))) Scanner.EOF)
      with (Parser.id_is p' Scanner.EOF).
    rewrite G2. cbn [negb]. split; [reflexivity|].
    unfold missing_end_entries. cbn. rewrite <- !app_assoc. reflexivity.
Qed.

(** [monitorlist] has no such step.  When its list is left for a missing
    END the flag stays set, and the same error is recorded twice at the
    same symbol, by the list and by [check_end], before the error of a
    file that does not end there; the parser is still on that symbol,
    which is neither END nor the end of the file. *)
Theorem monitor_list_reports_missing_end_twice :
  forall b (p : pstate),
    Parser.missing_end p = false ->
    Parser.missing_end (Parser.monitorlist E b p) = true ->
    exists p' : pstate,
      Parser.list_goes_on p' = true /\
      Parser.symbol (Parser.monitorlist E b p) = Parser.symbol p' /\
      Parser.error_messages (Parser.monitorlist E b p) =
        Parser.error_messages p' ++
        missing_end_entries
          (b && negb (monitors_dictionary E (Parser.world p')))
          (Parser.symbol p').
Proof.
  intros b p Hp. unfold Parser.monitorlist.
  destruct (Parser.reached_eof p); [congruence|]. cbv zeta.
  pose proof (missing_end_check_keyword Scanner.MONITOR_LIST
                (Parser.print "Parsing monitor list..." p)) as H1.
  destruct (Parser.check_keyword _ _ _) as [ok p1]. cbn [snd] in H1.
  assert (Parser.missing_end p1 = false) as Hp1 by (rewrite H1; exact Hp).
  destruct (negb ok); [congruence|].
  destruct b.
  - unfold Parser.build_list.
    destruct (@build_list_loop_flag Scanner.NAMES (Parser.monitor_method E)
                (fun q => missing_end_monitor q)
                (S (Scanner.measure (Parser.scanner p1))) true p1 Hp1)
      as [H | [_ H]];
      remember (snd (Parser.build_list_loop E Scanner.NAMES
                       (Parser.monitor_method E)
                       (S (Scanner.measure (Parser.scanner p1))) true p1))
        as p2 eqn:E2; clear E2.
    + intros Hq.
      pose proof (missing_end_tail
                    (negb (monitors_dictionary E (Parser.world p2))) p2) as T.
      cbv zeta in T. rewrite T in Hq. congruence.
    + intros _. destruct H as [p' [-> Hgo]]. exists p'.
      split; [exact Hgo|].
      change (Parser.world
                (Parser.set_missing_end true
                   (with_error END_ERROR_message p')))
        with (Parser.world p').
      cbn [andb].
      apply (@abandoned_tail
               (negb (monitors_dictionary E (Parser.world p'))) p' Hgo).
  - unfold Parser.check_syntax.
    destruct (@check_syntax_loop_flag Scanner.NAMES (Parser.monitor_syntax E)
                missing_end_monitor_syntax
                (S (Scanner.measure (Parser.scanner p1))) p1 Hp1)
      as [H | H];
      remember (Parser.check_syntax_loop E Scanner.NAMES
                  (Parser.monitor_syntax E)
                  (S (Scanner.measure (Parser.scanner p1))) p1)
        as p2 eqn:E2; clear E2.
    + intros Hq. pose proof (missing_end_tail false p2) as T.
      cbv zeta in T. cbv iota in T. rewrite T in Hq. congruence.
    + intros _. destruct H as [p' [-> Hgo]]. exists p'.
      split; [exact Hgo|]. cbn [andb].
      apply (@abandoned_tail false p' Hgo).
Qed.

Lemma keyword_is_no_item ty (p : pstate) :
  ty = Scanner.DEVICETYPE \/ ty = Scanner.NAMES ->
  Parser.type_is p Scanner.KEYWORDS || Parser.type_is p Scanner.CL = true ->
  Parser.type_is p ty = false.
Proof.
  intros Hty Hkw. unfold Parser.type_is in *.
  destruct (sym_type (Parser.symbol p)) as [n|]; [|reflexivity].
  simpl in *. apply orb_true_iff in Hkw.
  destruct Hkw as [H | H]; apply Nat.eqb_eq in H; subst n;
    destruct Hty; subst ty; reflexivity.
Qed.

Lemma build_list_loop_rounds ty (m : pstate -> bool * pstate) (p' : pstate) :
  Parser.list_goes_on p' = true ->
  Parser.type_is p' ty = false ->
  Parser.type_is p' Scanner.KEYWORDS || Parser.type_is p' Scanner.CL = true ->
  forall k fuel ok (p1 : pstate),
    after_rounds E ty (fun x => snd (m x)) k p1 = Some p' ->
    k < fuel ->
    Parser.build_list_loop E ty m fuel ok p1 =
    (false, Parser.set_missing_end true (with_error END_ERROR_message p')).
Proof.
  intros Hgo Hne Hkw. induction k as [|k IH]; intros fuel ok p1 Hr Hf;
    (destruct fuel as [|f]; [lia|]).
  - injection Hr as ->. simpl. rewrite Hgo, Hne, Hkw. reflexivity.
  - cbn [after_rounds] in Hr. cbn [Parser.build_list_loop Parser.check_syntax_loop].
    destruct (Parser.list_goes_on p1); [|discriminate Hr].
    destruct (Parser.type_is p1 ty).
    + destruct (m p1) as [b q]. cbn [snd] in Hr. apply IH; [exact Hr | lia].
    + destruct (Parser.type_is p1 Scanner.KEYWORDS ||
                Parser.type_is p1 Scanner.CL); [discriminate Hr|].
      apply IH; [exact Hr | lia].
Qed.

Lemma check_syntax_loop_rounds ty (m : pstate -> pstate) (p' : pstate) :
  Parser.list_goes_on p' = true ->
  Parser.type_is p' ty = false ->
  Parser.type_is p' Scanner.KEYWORDS || Parser.type_is p' Scanner.CL = true ->
  forall k fuel (p1 : pstate),
    after_rounds E ty m k p1 = Some p' ->
    k < fuel ->
    Parser.check_syntax_loop E ty m fuel p1 =
    Parser.set_missing_end true (with_error END_ERROR_message p').
Proof.
  intros Hgo Hne Hkw. induction k as [|k IH]; intros fuel p1 Hr Hf;
    (destruct fuel as [|f]; [lia|]).
  - injection Hr as ->. simpl. rewrite Hgo, Hne, Hkw. reflexivity.
  - cbn [after_rounds] in Hr. cbn [Parser.build_list_loop Parser.check_syntax_loop].
    destruct (Parser.list_goes_on p1); [|discriminate Hr].
    destruct (Parser.type_is p1 ty).
    + apply IH; [exact Hr | lia].
    + destruct (Parser.type_is p1 Scanner.KEYWORDS ||
                Parser.type_is p1 Scanner.CL); [discriminate Hr|].
      apply IH; [exact Hr | lia].
Qed.

Lemma build_list_rounds ty (m : pstate -> bool * pstate) k (p1 p' : pstate) :
  (forall q, Parser.id_is q Scanner.EOF = false -> ahead q (snd (m q))) ->
  ty = Scanner.DEVICETYPE \/ ty = Scanner.NAMES ->
  Parser.list_goes_on p' = true ->
  Parser.type_is p' Scanner.KEYWORDS || Parser.type_is p' Scanner.CL = true ->
  after_rounds E ty (fun x => snd (m x)) k p1 = Some p' ->
  Parser.build_list E ty m p1 =
  (false, Parser.set_missing_end true (with_error END_ERROR_message p')).
Proof.
  intros Hm Hty Hgo Hkw Hr. unfold Parser.build_list.
  rewrite (@build_list_loop_fuel World E ty m Hm
             (S (Scanner.measure (Parser.scanner p1)))
             (S (pmeasure p1) + S k) true p1)
    by (unfold pmeasure; lia).
  apply (@build_list_loop_rounds ty m p' Hgo
           (keyword_is_no_item p' Hty Hkw) Hkw k); [exact Hr | lia].
Qed.

Lemma check_syntax_rounds ty (m : pstate -> pstate) k (p1 p' : pstate) :
  (forall q, ahead q (m q)) ->
  ty = Scanner.DEVICETYPE \/ ty = Scanner.NAMES ->
  Parser.list_goes_on p' = true ->
  Parser.type_is p' Scanner.KEYWORDS || Parser.type_is p' Scanner.CL = true ->
  after_rounds E ty m k p1 = Some p' ->
  Parser.check_syntax E ty m p1 =
  Parser.set_missing_end true (with_error END_ERROR_message p').
Proof.
  intros Hm Hty Hgo Hkw Hr. unfold Parser.check_syntax.
  rewrite (@check_syntax_loop_fuel World E ty m Hm
             (S (Scanner.measure (Parser.scanner p1)))
             (S (pmeasure p1) + S k) p1)
    by (unfold pmeasure; lia).
  apply (@check_syntax_loop_rounds ty m p' Hgo
           (keyword_is_no_item p' Hty Hkw) Hkw k); [exact Hr | lia].
Qed.

(** Claim C6.  When the loop of a list, at any of its rounds, comes to a
    symbol that is a keyword other than END or a colon where an item or
    END is expected, [devicelist] and [connectionlist] (with and without
    the semantic checks) end at once: they answer [False] or nothing, and
    they leave the parser as it was at that symbol but for exactly one
    more error, "Expected either another item in list or the keyword
    END", recorded at the symbol, which is still the current one; the
    flag is taken back.  [monitorlist] has no such step: it goes on to
    [check_end] and to the test of the end of the file, so that the same
    error is recorded a second time at the same symbol, before the error
    of a file that does not end, and the flag stays set. *)
Theorem missing_end_abandons_section :
  forall k (p p1 p' : pstate),
    Parser.reached_eof p = false ->
    Parser.list_goes_on p' = true ->
    Parser.type_is p' Scanner.KEYWORDS || Parser.type_is p' Scanner.CL = true ->
    let q := with_error END_ERROR_message p' in
    (Parser.error_messages q =
       Parser.error_messages p' ++
       [(END_ERROR_message, linenum (Parser.symbol p'),
         colnum (Parser.symbol p'))] /\
     Parser.error_count q = S (Parser.error_count p') /\
     Parser.symbol q = Parser.symbol p' /\
     Parser.scanner q = Parser.scanner p' /\
     Parser.world q = Parser.world p') /\
    (Parser.check_keyword E Scanner.DEVICE_LIST
       (Parser.print "Parsing device list..." p) = (true, p1) ->
     after_rounds E Scanner.DEVICETYPE (fun x => snd (Parser.device E x))
       k p1 = Some p' ->
     Parser.devicelist E p = (Some false, Parser.set_missing_end false q)) /\
    (Parser.check_keyword E Scanner.CONNECTION_LIST
       (Parser.print "Parsing connection list..." p) = (true, p1) ->
     after_rounds E Scanner.NAMES (fun x => snd (Parser.connect E x))
       k p1 = Some p' ->
     Parser.connectionlist E true p =
       (Some false, Parser.set_missing_end false q)) /\
    (Parser.check_keyword E Scanner.CONNECTION_LIST
       (Parser.print "Parsing connection list..." p) = (true, p1) ->
     after_rounds E Scanner.NAMES (Parser.connect_syntax E) k p1 = Some p' ->
     Parser.connectionlist E false p =
       (None, Parser.set_missing_end false q)) /\
    (forall b : bool,
       Parser.check_keyword E Scanner.MONITOR_LIST
         (Parser.print "Parsing monitor list..." p) = (true, p1) ->
       after_rounds E Scanner.NAMES
         (if b : bool then Parser.monitor E else Parser.monitor_syntax E)
         k p1 = Some p' ->
       Parser.symbol (Parser.monitorlist E b p) = Parser.symbol p' /\
       Parser.missing_end (Parser.monitorlist E b p) = true /\
       Parser.error_messages (Parser.monitorlist E b p) =
         Parser.error_messages p' ++
         missing_end_entries
           (b && negb (monitors_dictionary E (Parser.world p')))
           (Parser.symbol p')).
Proof.
  intros k p p1 p' Heof Hgo Hkw q.
  split; [repeat split|]. split; [|split; [|split]].
  - intros H1 Hr.
    pose proof (@build_list_rounds Scanner.DEVICETYPE (Parser.device E) k
                  p1 p' (@ahead_device World E) (or_introl eq_refl)
                  Hgo Hkw Hr) as Hb.
    destruct (@missing_end_ends_section World E p p1
                (Parser.set_missing_end true q) Heof eq_refl) as [Hd _].
    apply (Hd H1 Hb).
  - intros H1 Hr.
    pose proof (@build_list_rounds Scanner.NAMES (Parser.connect E) k
                  p1 p' (@ahead_connect World E) (or_intror eq_refl)
                  Hgo Hkw Hr) as Hb.
    destruct (@missing_end_ends_section World E p p1
                (Parser.set_missing_end true q) Heof eq_refl)
      as [_ [Hc _]].
    apply (Hc H1 Hb).
  - intros H1 Hr.
    pose proof (@check_syntax_rounds Scanner.NAMES (Parser.connect_syntax E)
                  k p1 p' (@ahead_connect_syntax World E)
                  (or_intror eq_refl) Hgo Hkw Hr) as Hb.
    destruct (@missing_end_ends_section World E p p1
                (Parser.set_missing_end true q) Heof eq_refl)
      as [_ [_ Hc]].
    apply (Hc H1 Hb).
  - intros b H1 Hr. unfold Parser.monitorlist. rewrite Heof. cbv zeta.
    rewrite H1. cbn [negb]. destruct b.
    + assert (Parser.build_list E Scanner.NAMES (Parser.monitor_method E) p1
              = (false, Parser.set_missing_end true q)) as Hb.
      { apply (@build_list_rounds Scanner.NAMES (Parser.monitor_method E) k
                 p1 p'); try assumption; [|right; reflexivity].
        intros x Hx. apply (@ahead_monitor World E x Hx). }
      rewrite Hb. cbn [snd].
      change (Parser.world (Parser.set_missing_end true q))
        with (Parser.world p').
      cbn [andb].
      pose proof (@abandoned_tail
                    (negb (monitors_dictionary E (Parser.world p'))) p' Hgo)
        as [T1 T2].
      pose proof (missing_end_tail
                    (negb (monitors_dictionary E (Parser.world p')))
                    (Parser.set_missing_end true q)) as T3.
      cbv zeta in T1, T2, T3. fold q in T1, T2.
      split; [exact T1|]. split; [exact T3 | exact T2].
    + assert (Parser.check_syntax E Scanner.NAMES (Parser.monitor_syntax E) p1
              = Parser.set_missing_end true q) as Hb.
      { apply (@check_syntax_rounds Scanner.NAMES (Parser.monitor_syntax E) k
                 p1 p'); try assumption; [|right; reflexivity].
        intros x. apply (@ahead_monitor_syntax World E x). }
      rewrite Hb. cbn [andb].
      pose proof (@abandoned_tail false p' Hgo) as [T1 T2].
      pose proof (missing_end_tail false (Parser.set_missing_end true q))
        as T3.
      cbv zeta in T1, T2, T3. fold q in T1, T2.
      split; [exact T1|]. split; [exact T3 | exact T2].
Qed.

End Flag.

(** ** The further properties on definition files *)

Lemma true_answer_means_checked_network_witness :
  check_network Model.env
    (Parser.world
       (snd (Parser.connectionlist Model.env true
               (snd (Parser.devicelist Model.env
                       (Parser.next
                          (Model.parser_on minimal_example_named_pins)))))))
  = true.
Proof.
  set (p := Model.parser_on minimal_example_named_pins).
  assert (Parser.reached_eof p = false) as H1 by (vm_compute; reflexivity).
  assert (fst (Parser.parse_network Model.env p) = true) as H2
    by (vm_compute; reflexivity).
  pose proof (@true_answer_means_checked_network Model.world Model.env
                p H1 H2) as T.
  cbv zeta in T. destruct T as [_ [_ [H _]]]. exact H.
Defined.

Lemma build_list_true_iff_no_error_witness :
  fst (Parser.build_list Model.env Scanner.NAMES (Parser.connect Model.env)
         (at_connections minimal_example_named_pins)) = true.
Proof.
  set (p := at_connections minimal_example_named_pins).
  assert (symbol_ok p) as H1
    by (right; exists 20; vm_compute; reflexivity).
  destruct (@build_list_true_iff_no_error Model.world Model.env p H1)
    as [_ [_ H]].
  apply H. vm_compute. reflexivity.
Defined.

Lemma number_symbol_is_longest_digit_run_witness :
  pending
    (snd (Scanner.get_symbol
            (scanner_after 2
               (Scanner.init (list_ascii_of_string "g1.12;"))))) =
  [";"%char].
Proof.
  set (s := scanner_after 2 (Scanner.init (list_ascii_of_string "g1.12;"))).
  assert (Scanner.current_char s = Some "1"%char) as H1
    by (vm_compute; reflexivity).
  assert (isdigit "1" = true) as H2 by (vm_compute; reflexivity).
  pose proof (@number_symbol_is_longest_digit_run s "1"%char H1 H2) as T.
  cbv zeta in T. destruct T as [_ [_ [_ [_ H]]]].
  rewrite H. vm_compute. reflexivity.
Defined.

Lemma word_symbol_is_longest_word_run_witness :
  pending
    (snd (Scanner.get_symbol
            (scanner_after 1
               (Scanner.init (list_ascii_of_string ":END;"))))) =
  [";"%char].
Proof.
  set (s := scanner_after 1 (Scanner.init (list_ascii_of_string ":END;"))).
  assert (Scanner.current_char s = Some "E"%char) as H1
    by (vm_compute; reflexivity).
  assert (isalpha "E" = true) as H2 by (vm_compute; reflexivity).
  pose proof (@word_symbol_is_longest_word_run s "E"%char H1 H2) as T.
  cbv zeta in T. destruct T as [_ [_ [_ H]]].
  rewrite H. vm_compute. reflexivity.
Defined.

Lemma reserved_words_are_recognised_witness :
  sym_type
    (fst (Scanner.get_symbol
            (scanner_after 1
               (Scanner.init (list_ascii_of_string ":END;"))))) =
  Some Scanner.KEYWORDS.
Proof.
  set (s := scanner_after 1 (Scanner.init (list_ascii_of_string ":END;"))).
  assert (reserved_prefix (Scanner.names s)) as H0
    by (exists []; vm_compute; reflexivity).
  assert (Scanner.current_char s = Some "E"%char) as H1
    by (vm_compute; reflexivity).
  assert (isalpha "E" = true) as H2 by (vm_compute; reflexivity).
  destruct (@reserved_words_are_recognised s "E"%char H0 H1 H2) as [H _].
  rewrite H. vm_compute. reflexivity.
Defined.

Lemma identifiers_are_kept_witness :
  Names.get_name_string
    (Scanner.names
       (scanner_after 3 (Scanner.init (list_ascii_of_string "g1.12;"))))
    Scanner.AND = Some "AND"%string.
Proof.
  set (s := Scanner.init (list_ascii_of_string "g1.12;")).
  assert (Names.get_name_string (Scanner.names s) Scanner.AND =
          Some "AND"%string) as H by (vm_compute; reflexivity).
  exact (@identifiers_are_kept 3 s Scanner.AND "AND"%string H).
Defined.


Lemma report_points_at_symbol_witness :
  let txt := list_ascii_of_string minimal_example in
  let body := list_ascii_of_string "SWITCH sw1 OFF;" in
  let sym := nth_symbol 3 (Scanner.init txt) in
  (sym_type sym = None /\ sym_id sym = Some Scanner.EOF /\
   pending (scanner_after 4 (Scanner.init txt)) = []) \/
  exists c,
    nth_error body (colnum sym - 1) = Some c /\
    isspace c = false /\ Ascii.eqb c "/" = false /\
    first_char_fits c (sym_type sym) /\
    caret_under
      (Scanner.print_line (Scanner.init txt) (linenum sym) (colnum sym))
      body (colnum sym).
Proof.
  intros txt body.
  assert (Scanner.text (Scanner.init txt) = txt) as H1 by reflexivity.
  assert (nth_error (Scanner.file_lines (Scanner.init txt))
            (linenum (nth_symbol 3 (Scanner.init txt)) - 1) =
          Some (body ++ [newline])) as H2 by (vm_compute; reflexivity).
  assert (colnum (nth_symbol 3 (Scanner.init txt)) < 37 \/
          colnum (nth_symbol 3 (Scanner.init txt)) + 36 <> length body)
    as H3 by (left; vm_compute; lia).
  exact (@report_points_at_symbol txt 3 (Scanner.init txt) body H1 H2 H3).
Defined.

Lemma missing_end_abandons_section_witness :
  map (fun e => fst (fst e))
    (Parser.error_messages
       (Parser.monitorlist Model.env true
          (state_after [OpGetSymbol; OpDevicelist; OpConnectionlist true]
             missing_end_in_monitors_example))) =
  [END_ERROR_message; END_ERROR_message; NO_EOF_message].
Proof.
  set (p := state_after [OpGetSymbol; OpDevicelist; OpConnectionlist true]
              missing_end_in_monitors_example).
  pose (p1 := snd (Parser.check_keyword Model.env Scanner.MONITOR_LIST
                     (Parser.print "Parsing monitor list..." p))).
  pose (p' := Parser.monitor Model.env p1).
  assert (Parser.reached_eof p = false) as H1 by (vm_compute; reflexivity).
  assert (Parser.list_goes_on p' = true) as H2 by (vm_compute; reflexivity).
  assert (Parser.type_is p' Scanner.KEYWORDS ||
          Parser.type_is p' Scanner.CL = true) as H3
    by (vm_compute; reflexivity).
  assert (Parser.check_keyword Model.env Scanner.MONITOR_LIST
            (Parser.print "Parsing monitor list..." p) = (true, p1)) as H4
    by (vm_compute; reflexivity).
  assert (after_rounds Model.env Scanner.NAMES (Parser.monitor Model.env)
            1 p1 = Some p') as H5 by (vm_compute; reflexivity).
  pose proof (@missing_end_abandons_section Model.world Model.env
                1 p p1 p' H1 H2 H3) as T.
  cbv zeta in T. destruct T as [_ [_ [_ [_ Hm]]]].
  destruct (Hm true H4 H5) as [_ [_ Hmsg]].
  rewrite Hmsg. vm_compute. reflexivity.
Defined.

Lemma missing_end_flag_is_taken_back_witness :
  Parser.missing_end
    (snd (Parser.devicelist Model.env
            (Parser.next (Model.parser_on missing_end_example)))) = false.
Proof.
  set (p := Parser.next (Model.parser_on missing_end_example)).
  assert (Parser.missing_end p = false) as H by (vm_compute; reflexivity).
  destruct (@missing_end_flag_is_taken_back Model.world Model.env true p H)
    as [H1 _].
  exact H1.
Defined.

Lemma monitor_list_reports_missing_end_twice_witness :
  exists p' : Parser.t Model.world,
    Parser.list_goes_on p' = true /\
    Parser.symbol
      (Parser.monitorlist Model.env true
         (state_after [OpGetSymbol; OpDevicelist; OpConnectionlist true]
            missing_end_in_monitors_example)) = Parser.symbol p' /\
    Parser.error_messages
      (Parser.monitorlist Model.env true
         (state_after [OpGetSymbol; OpDevicelist; OpConnectionlist true]
            missing_end_in_monitors_example)) =
    Parser.error_messages p' ++
    missing_end_entries
      (true && negb (monitors_dictionary Model.env (Parser.world p')))
      (Parser.symbol p').
Proof.
  set (p := state_after [OpGetSymbol; OpDevicelist; OpConnectionlist true]
              missing_end_in_monitors_example).
  assert (Parser.missing_end p = false) as H1 by (vm_compute; reflexivity).
  assert (Parser.missing_end (Parser.monitorlist Model.env true p) = true)
    as H2 by (vm_compute; reflexivity).
  exact (@monitor_list_reports_missing_end_twice Model.world Model.env
           true p H1 H2).
Defined.

(** ** Valid programs are parsed *)

(** *** The scanner and its table of names *)
















Section ReadingTokens.

Variable World : Type.

Let pstate := Parser.t World.

Lemma steady_refl (p : pstate) : steady p p.
Proof. repeat split. Qed.

Lemma steady_trans (p q r : pstate) : steady p q -> steady q r -> steady p r.
Proof.
  intros [A1 [A2 [A3 A4]]] [B1 [B2 [B3 B4]]]. repeat split; congruence.
Qed.



End ReadingTokens.

(** *** Reserved words and names in the table *)








Section Reading.

Variable World : Type.

Let pstate := Parser.t World.







Lemma id_is_parsing (p : pstate) ty id tbl toks w i :
  parsing p ty (Some id) tbl toks w ->
  Parser.id_is p i = Nat.eqb id i.
Proof. intros (_ & H & _). unfold Parser.id_is. now rewrite H. Qed.



End Reading.

(** *** The items and the lists *)

Section Items.

Variable World : Type.
Variable E : Env World.

Let pstate := Parser.t World.

Ltac ids H := rewrite ?(fun i => @id_is_parsing _ _ _ _ _ _ _ i H).






















End Items.

(** A reference that takes a pin must have a NAME after its period: any
    other symbol there, a NUMBER among them, is the error
    NO_IDENTIFIER. *)
Lemma pin_must_be_a_name (World : Type) (E : Env World)
    (p : Parser.t World) kind io :
  get_device E (Parser.world p) (sym_id (Parser.symbol p)) = Some kind ->
  Nat.eqb io Parser.INPUT || Nat.eqb kind (dev_D_TYPE E) = true ->
  Parser.type_is (Parser.next p) Scanner.PE = true ->
  Parser.type_is (Parser.next (Parser.next p)) Scanner.NAMES = false ->
  Parser.get_io E io p =
  ((None, None),
   Parser.error_ E NO_IDENTIFIER true VNone (Parser.next (Parser.next p))).
Proof.
  intros Hdev Hexp Hpe Hn.
  unfold Parser.get_io. rewrite Hdev. cbv zeta.
  rewrite Hpe, Hexp, Hn. reflexivity.
Qed.


